(** * Obsidian Rclone Bridge: a shallow embedding of the multi-remote plugin

    The development follows the plugin source (the multi-destination version
    of [main.ts]): JavaScript strings, the four regular expressions of the
    output parser, the summary builder of the [close] handler,
    [runRcloneSync], [handleSync] and [loadSettings].

    Part I holds the definitions, Part II the lemmas and theorems. *)

From Stdlib Require Import List NArith ZArith Bool String Ascii Lia.
Import ListNotations.

(* ================================================================== *)
(** * Part I: definitions *)
(* ================================================================== *)

(** ** JavaScript strings

    A JavaScript string is a sequence of UTF-16 code units.  The regular
    expressions of the plugin carry no [u] flag, so [.], [\w], [\s] and
    [\d] each consume exactly one code unit. *)

Definition char := N.
Definition jsstring := list char.

Definition bytes_of (s : string) : list N :=
  map N_of_ascii (list_ascii_of_string s).

(** Source literals are written in this file as UTF-8 text; [utf16] turns
    the bytes of such a literal into code units (one-, two- and three-byte
    sequences: every literal of the plugin lies in the Basic Multilingual
    Plane). *)
Fixpoint utf16 (bs : list N) : jsstring :=
  match bs with
  | [] => []
  | b0 :: r0 =>
      if (b0 <? 128)%N then b0 :: utf16 r0
      else if (b0 <? 224)%N then
        match r0 with
        | b1 :: r1 => ((b0 - 192) * 64 + (b1 - 128))%N :: utf16 r1
        | [] => []
        end
      else
        match r0 with
        | b1 :: b2 :: r2 =>
            ((b0 - 224) * 4096 + (b1 - 128) * 64 + (b2 - 128))%N :: utf16 r2
        | _ => []
        end
  end.

Definition js (s : string) : jsstring := utf16 (bytes_of s).
Arguments js s%_string : simpl never.

(** Truthiness of a string: [""] is falsy, every other string truthy. *)
Definition truthy (s : jsstring) : bool :=
  match s with [] => false | _ :: _ => true end.

(** [a || b] on strings. *)
Definition or_else (a b : jsstring) : jsstring :=
  if truthy a then a else b.

Definition char_eqb (a b : char) : bool := N.eqb a b.

(** [s.includes(c)] for a one-character needle. *)
Definition includes_char (s : jsstring) (c : char) : bool :=
  existsb (char_eqb c) s.

Definition colon : char := 58%N.
Definition newline : char := 10%N.

(** [parts.join(sep)]. *)
Fixpoint join (sep : jsstring) (parts : list jsstring) : jsstring :=
  match parts with
  | [] => []
  | [p] => p
  | p :: rest => p ++ sep ++ join sep rest
  end.

(** ** Numbers

    [parseInt(s, 10)] is only ever applied to a capture of [\d+] (see
    [group_int_digits] below): it reads the longest prefix of decimal
    digits and yields [NaN] when that prefix is empty.  Its result is a
    double: the natural number denoted by the digits, rounded to 53
    significant bits, or [Infinity].  A double that is a natural number is
    kept here as that natural number.  The standard lets an implementation
    replace the digits after the twentieth by zeros before rounding; V8,
    the engine of the host, rounds the exact value, and so does
    [to_double]. *)

Inductive number :=
| NaN
| Num (n : N)
| Infinity.

Definition is_digit (c : char) : bool := (48 <=? c)%N && (c <=? 57)%N.

Fixpoint digits_value (acc : N) (s : jsstring) : N :=
  match s with
  | c :: s' => if is_digit c then digits_value (acc * 10 + (c - 48))%N s' else acc
  | [] => acc
  end.

(** 2^53: below it every natural number is a double. *)
Definition two_53 : N := 9007199254740992.

(** The double nearest to the natural number [n], a tie going to the even
    significand; [Infinity] when the rounded value reaches 2^1024. *)
Definition to_double (n : N) : number :=
  if (n <? two_53)%N then Num n
  else
    let shift := (N.log2 n - 52)%N in
    let q := N.shiftr n shift in
    let rest := (n - N.shiftl q shift)%N in
    let half := N.shiftl 1 (shift - 1) in
    let q' := if (half <? rest)%N || ((rest =? half)%N && N.odd q)
              then (q + 1)%N else q in
    let r := N.shiftl q' shift in
    if (r <? N.shiftl 1 1024)%N then Num r else Infinity.

Definition parseInt (s : jsstring) : number :=
  match s with
  | c :: _ => if is_digit c then to_double (digits_value 0%N s) else NaN
  | [] => NaN
  end.

Fixpoint uint_chars (d : Decimal.uint) : jsstring :=
  match d with
  | Decimal.Nil => []
  | Decimal.D0 d' => 48%N :: uint_chars d'
  | Decimal.D1 d' => 49%N :: uint_chars d'
  | Decimal.D2 d' => 50%N :: uint_chars d'
  | Decimal.D3 d' => 51%N :: uint_chars d'
  | Decimal.D4 d' => 52%N :: uint_chars d'
  | Decimal.D5 d' => 53%N :: uint_chars d'
  | Decimal.D6 d' => 54%N :: uint_chars d'
  | Decimal.D7 d' => 55%N :: uint_chars d'
  | Decimal.D8 d' => 56%N :: uint_chars d'
  | Decimal.D9 d' => 57%N :: uint_chars d'
  end.

(** The decimal numeral of a natural number. *)
Definition numeral (n : N) : jsstring := uint_chars (N.to_uint n).

(** The natural number [v] reads back as the double [n]. *)
Definition rounds_to (v n : N) : bool :=
  match to_double v with
  | Num m => N.eqb m n
  | _ => false
  end.

(** The numerals with [k] significant digits next to [n], below and above:
    the one that reads back as [n]; when both do, the nearer, and the one
    with the even last digit when they are equally near. *)
Definition shortest_at (n : N) (k : nat) : option N :=
  let d := List.length (numeral n) in
  let p := (10 ^ N.of_nat (d - k))%N in
  let lo := (n / p * p)%N in
  let hi := (lo + p)%N in
  match rounds_to lo n, rounds_to hi n with
  | true, true =>
      if (n - lo <? hi - n)%N then Some lo
      else if (hi - n <? n - lo)%N then Some hi
      else if N.even (n / p) then Some lo else Some hi
  | true, false => Some lo
  | false, true => Some hi
  | false, false => None
  end.

(** The first number of significant digits, from [k] up, that is enough;
    seventeen always are. *)
Fixpoint shortest_from (n : N) (k fuel : nat) : N :=
  match fuel with
  | O => n
  | S fuel' =>
      match shortest_at n k with
      | Some v => v
      | None => shortest_from n (S k) fuel'
      end
  end.

Definition shortest (n : N) : N := shortest_from n 1 17.

Fixpoint drop_zeros (s : jsstring) : jsstring :=
  match s with
  | c :: s' => if N.eqb c 48 then drop_zeros s' else s
  | [] => []
  end.

(** The digits of [v] in exponent notation: [d.ddde+x]. *)
Definition exponential (v : N) : jsstring :=
  let ds := numeral v in
  match rev (drop_zeros (rev ds)) with
  | [] => ds
  | c :: rest =>
      (c :: match rest with [] => [] | _ :: _ => 46%N :: rest end)
        ++ [101%N; 43%N] ++ numeral (N.of_nat (List.length ds - 1))
  end.

(** The digits of a double [n] are those of the shortest decimal numeral
    that reads back as [n], the nearest to [n] among the shortest; they are
    written out in full below 10^21 and in exponent notation from there
    on. *)
Definition double_to_string (n : N) : jsstring :=
  let v := shortest n in
  if (v <? 1000000000000000000000)%N then numeral v else exponential v.

(** [`${x}`] for a number ([Number::toString] in radix 10). *)
Definition number_to_string (x : number) : jsstring :=
  match x with
  | NaN => js "NaN"
  | Infinity => js "Infinity"
  | Num n => double_to_string n
  end.

(** [x === 0]. *)
Definition is_zero (x : number) : bool :=
  match x with
  | Num n => N.eqb n 0
  | _ => false
  end.

(** ** Regular expressions

    The fragment of ECMAScript patterns used by the plugin: pattern
    characters, the classes [.], [\s], [\d], [\w] and [[\d.]], greedy [*],
    [+] and [?] applied to a single-character atom, concatenation,
    alternation and capture groups.  All four patterns carry the [i] flag
    and no other. *)

Inductive atom :=
| Lit (c : char)   (* a pattern character *)
| AnyChar          (* .      *)
| Space            (* \s     *)
| Digit            (* \d     *)
| Word             (* \w     *)
| DigitOrDot.      (* [\d.]  *)

Inductive regex :=
| Eps
| One (a : atom)
| Star (a : atom)
| Plus (a : atom)
| Opt (a : atom)
| Seq (r1 r2 : regex)
| Alt (r1 r2 : regex)
| Group (i : nat) (r : regex).

(** Canonicalize under [i] without [u]: a code unit is upper-cased, and a
    code unit at or above 128 never canonicalises to one below 128.  Every
    pattern character of the plugin is below 128, so only the ASCII letters
    matter. *)
Definition canon (c : char) : char :=
  if (97 <=? c)%N && (c <=? 122)%N then (c - 32)%N else c.

Definition is_line_terminator (c : char) : bool :=
  N.eqb c 10 || N.eqb c 13 || N.eqb c 8232 || N.eqb c 8233.

Definition is_space (c : char) : bool :=
  ((9 <=? c)%N && (c <=? 13)%N)
  || N.eqb c 32 || N.eqb c 160 || N.eqb c 5760
  || ((8192 <=? c)%N && (c <=? 8202)%N)
  || N.eqb c 8232 || N.eqb c 8233 || N.eqb c 8239 || N.eqb c 8287
  || N.eqb c 12288 || N.eqb c 65279.

Definition is_word (c : char) : bool :=
  is_digit c
  || ((65 <=? c)%N && (c <=? 90)%N)
  || ((97 <=? c)%N && (c <=? 122)%N)
  || N.eqb c 95.

Definition atom_matches (a : atom) (c : char) : bool :=
  match a with
  | Lit p => char_eqb (canon c) (canon p)
  | AnyChar => negb (is_line_terminator c)
  | Space => is_space c
  | Digit => is_digit c
  | Word => is_word c
  | DigitOrDot => is_digit c || N.eqb c 46
  end.

(** Captures, most recent first. *)
Definition captures := list (nat * jsstring).

Fixpoint capture (i : nat) (caps : captures) : option jsstring :=
  match caps with
  | [] => None
  | (j, w) :: rest => if Nat.eqb i j then Some w else capture i rest
  end.

Section Matcher.

Variable R : Type.

(** A continuation receives the rest of the input and the captures. *)
Definition cont := jsstring -> captures -> option R.

Definition first_of (x y : option R) : option R :=
  match x with
  | Some r => Some r
  | None => y
  end.

Definition one_m (a : atom) (s : jsstring) (caps : captures) (k : cont)
  : option R :=
  match s with
  | c :: s' => if atom_matches a c then k s' caps else None
  | [] => None
  end.

(** Greedy repetition: try one more character first, then the
    continuation. *)
Fixpoint star_m (a : atom) (s : jsstring) (caps : captures) (k : cont)
  : option R :=
  match s with
  | c :: s' =>
      if atom_matches a c
      then first_of (star_m a s' caps k) (k s caps)
      else k s caps
  | [] => k [] caps
  end.

(** The backtracking matcher, alternatives tried in priority order. *)
Fixpoint rmatch (r : regex) (s : jsstring) (caps : captures) (k : cont)
  : option R :=
  match r with
  | Eps => k s caps
  | One a => one_m a s caps k
  | Star a => star_m a s caps k
  | Plus a => one_m a s caps (fun s1 c1 => star_m a s1 c1 k)
  | Opt a => first_of (one_m a s caps k) (k s caps)
  | Seq r1 r2 => rmatch r1 s caps (fun s1 c1 => rmatch r2 s1 c1 k)
  | Alt r1 r2 => first_of (rmatch r1 s caps k) (rmatch r2 s caps k)
  | Group i r1 =>
      rmatch r1 s caps
        (fun s1 c1 =>
           k s1 ((i, firstn (List.length s - List.length s1) s) :: c1))
  end.

End Matcher.

Arguments first_of {R} x y.
Arguments one_m {R} a s caps k.
Arguments star_m {R} a s caps k.
Arguments rmatch {R} r s caps k.

(** [re.exec(s)] for a pattern without the [g] flag: the leftmost start
    index at which the pattern matches; the captures of that match. *)
Fixpoint exec (r : regex) (s : jsstring) : option captures :=
  match rmatch r s [] (fun _ c => Some c) with
  | Some c => Some c
  | None =>
      match s with
      | [] => None
      | _ :: s' => exec r s'
      end
  end.

(** [re.test(s)]. *)
Definition test (r : regex) (s : jsstring) : bool :=
  match exec r s with
  | Some _ => true
  | None => false
  end.

Fixpoint word (s : jsstring) : regex :=
  match s with
  | [] => Eps
  | c :: s' => Seq (One (Lit c)) (word s')
  end.

Definition cat (rs : list regex) : regex := fold_right Seq Eps rs.

(** [[\d.]+\s*\w*i?B] *)
Definition sizeAmount : regex :=
  cat [Plus DigitOrDot; Star Space; Star Word; Opt (Lit 105%N); One (Lit 66%N)].

(** [/Transferred:\s*([\d.]+\s*\w*i?B)\s*\/\s*([\d.]+\s*\w*i?B)/i] *)
Definition sizeLineRe : regex :=
  cat [word (js "Transferred:"); Star Space; Group 1 sizeAmount; Star Space;
       One (Lit 47%N); Star Space; Group 2 sizeAmount].

(** [/Transferred:\s*(\d+)\s*\/\s*(\d+)/i] *)
Definition countLineRe : regex :=
  cat [word (js "Transferred:"); Star Space; Group 1 (Plus Digit); Star Space;
       One (Lit 47%N); Star Space; Group 2 (Plus Digit)].

(** [/Checks:\s*(\d+)\s*\/\s*(\d+)/i] *)
Definition checksLineRe : regex :=
  cat [word (js "Checks:"); Star Space; Group 1 (Plus Digit); Star Space;
       One (Lit 47%N); Star Space; Group 2 (Plus Digit)].

(** [/No changes|up.to.date|Nothing to do/i] *)
Definition noChangesRe : regex :=
  Alt (word (js "No changes"))
      (Alt (cat [word (js "up"); One AnyChar; word (js "to"); One AnyChar;
                 word (js "date")])
           (word (js "Nothing to do"))).

(** ** The output parser (body of the [close] handler)

    [durationSec] is the text of
    [((Date.now() - startTime) / 1000).toFixed(1)], a floating-point
    rendering of a clock difference; it is an input here. *)

Definition sizeLineMatch (combined : jsstring) : option captures :=
  exec sizeLineRe combined.
Definition countLineMatch (combined : jsstring) : option captures :=
  exec countLineRe combined.
Definition checksLineMatch (combined : jsstring) : option captures :=
  exec checksLineRe combined.

(** [m[i]] of a match object; [None] is [undefined]. *)
Definition group (i : nat) (m : option captures) : option jsstring :=
  match m with
  | Some c => capture i c
  | None => None
  end.

Definition transferredSize (combined : jsstring) : option jsstring :=
  group 1 (sizeLineMatch combined).

Definition group_int (i : nat) (m : option captures) : option number :=
  match m with
  | Some c =>
      Some (match capture i c with Some w => parseInt w | None => NaN end)
  | None => None
  end.

Definition transferredFiles (combined : jsstring) : option number :=
  group_int 1 (countLineMatch combined).
Definition checksTotal (combined : jsstring) : option number :=
  group_int 2 (checksLineMatch combined).
Definition checksDone (combined : jsstring) : option number :=
  group_int 1 (checksLineMatch combined).

Definition noChanges (combined : jsstring) : bool :=
  match transferredFiles combined with
  | Some n => is_zero n
  | None => false
  end
  || test noChangesRe combined.

(** [`${x}`] where [x] may be [undefined]. *)
Definition opt_number_to_string (x : option number) : jsstring :=
  match x with
  | Some n => number_to_string n
  | None => js "undefined"
  end.

Definition filesPart (combined : jsstring) : jsstring :=
  match transferredFiles combined with
  | Some n => number_to_string n ++ js " files"
  | None => []
  end.

Definition checksPart (combined : jsstring) : jsstring :=
  match checksLineMatch combined with
  | Some _ =>
      js ", checks " ++ opt_number_to_string (checksDone combined)
        ++ js "/" ++ opt_number_to_string (checksTotal combined)
  | None => []
  end.

Definition upToDateSummary (durationSec : jsstring) : jsstring :=
  js "已是最新 (耗时 " ++ durationSec ++ js "s)".

Definition doneSummary (durationSec : jsstring) : jsstring :=
  js "完成 (耗时 " ++ durationSec ++ js "s)".

Definition sizeSummary (combined size durationSec : jsstring) : jsstring :=
  (if truthy (filesPart combined) then filesPart combined ++ js ", " else [])
    ++ size ++ js " (耗时 " ++ durationSec ++ js "s"
    ++ checksPart combined ++ js ")".

Definition parse (combined durationSec : jsstring) : jsstring :=
  if noChanges combined then upToDateSummary durationSec
  else
    match transferredSize combined with
    | Some size =>
        if truthy size then sizeSummary combined size durationSec
        else doneSummary durationSec
    | None => doneSummary durationSec
    end.

(** ** What the patterns denote

    The words a pattern matches, next to the matcher above: used to state
    what a match or a capture means. *)

Definition all_match (a : atom) (w : jsstring) : Prop :=
  Forall (fun c => atom_matches a c = true) w.

Fixpoint lang (r : regex) (w : jsstring) : Prop :=
  match r with
  | Eps => w = []
  | One a => exists c, w = [c] /\ atom_matches a c = true
  | Star a => all_match a w
  | Plus a => w <> [] /\ all_match a w
  | Opt a => w = [] \/ exists c, w = [c] /\ atom_matches a c = true
  | Seq r1 r2 => exists w1 w2, w = w1 ++ w2 /\ lang r1 w1 /\ lang r2 w2
  | Alt r1 r2 => lang r1 w \/ lang r2 w
  | Group _ r1 => lang r1 w
  end.

(** Every capture recorded satisfies [P]. *)
Definition caps_ok (P : nat -> jsstring -> Prop) (caps : captures) : Prop :=
  Forall (fun p => P (fst p) (snd p)) caps.

(** Every word of a group of [r] satisfies [P] at the group's index. *)
Fixpoint groups_ok (P : nat -> jsstring -> Prop) (r : regex) : Prop :=
  match r with
  | Seq r1 r2 | Alt r1 r2 => groups_ok P r1 /\ groups_ok P r2
  | Group i r1 => groups_ok P r1 /\ forall w, lang r1 w -> P i w
  | _ => True
  end.

(** [w] and [p] are equal up to the case of ASCII letters. *)
Definition same_letters (w p : jsstring) : Prop := map canon w = map canon p.

(** Some contiguous part of [s] satisfies [P]. *)
Definition occurs_in (P : jsstring -> Prop) (s : jsstring) : Prop :=
  exists pre w post, s = pre ++ w ++ post /\ P w.

(** "up", any one character that is not a line terminator, "to", any one
    such character, "date". *)
Definition up_to_date_phrase (w : jsstring) : Prop :=
  exists u a t b d,
    w = u ++ a :: t ++ b :: d
    /\ same_letters u (js "up") /\ is_line_terminator a = false
    /\ same_letters t (js "to") /\ is_line_terminator b = false
    /\ same_letters d (js "date").

(** The no-changes marker: one of the three phrases occurs in the text, or
    the extracted file count is exactly 0. *)
Definition no_changes_marker (combined : jsstring) : Prop :=
  occurs_in (fun w => same_letters w (js "No changes")) combined
  \/ occurs_in up_to_date_phrase combined
  \/ occurs_in (fun w => same_letters w (js "Nothing to do")) combined
  \/ transferredFiles combined = Some (Num 0).

(** The optional parts of the summary built around a captured size: the
    file count in front, the checks behind. *)
Definition files_prefix (combined : jsstring) : jsstring :=
  match transferredFiles combined with
  | Some n => number_to_string n ++ js " files, "
  | None => []
  end.

Definition checks_suffix (combined : jsstring) : jsstring :=
  match checksDone combined, checksTotal combined with
  | Some d, Some t =>
      js ", checks " ++ number_to_string d ++ js "/" ++ number_to_string t
  | _, _ => []
  end.

(** Group [i] is recorded by every match of [r]. *)
Fixpoint always_captures (i : nat) (r : regex) : bool :=
  match r with
  | Seq r1 r2 => always_captures i r1 || always_captures i r2
  | Alt r1 r2 => always_captures i r1 && always_captures i r2
  | Group j r1 => Nat.eqb i j || always_captures i r1
  | _ => false
  end.

Definition has_capture (i : nat) (caps : captures) : Prop :=
  capture i caps <> None.

(** ** Plugin data *)

(** [interface RcloneRemote] *)
Record RcloneRemote := {
  name : jsstring;
  path : jsstring;
  enable : bool
}.

(** [interface ObsidianRcloneBridgeSettings], as the object built by
    [Object.assign({}, DEFAULT_SETTINGS, data)]: [remotes] is [None] when the
    stored value is [null], and the legacy properties [remoteName] and
    [remotePath] are own properties of the object whenever the stored data
    had them. *)
Record ObsidianRcloneBridgeSettings := {
  rclonePath : jsstring;
  remotes : option (list RcloneRemote);
  remoteName : option jsstring;
  remotePath : option jsstring
}.

(** The blob kept by the host ([loadData] / [saveData]); a field is [None]
    when the key is absent.  For [remotes], [Some None] is a stored
    [null]. *)
Record StoredData := {
  stored_rclonePath : option jsstring;
  stored_remotes : option (option (list RcloneRemote));
  stored_remoteName : option jsstring;
  stored_remotePath : option jsstring
}.

(** [DEFAULT_SETTINGS] as the module holds it when it has just been
    evaluated.  Its [remotes] is one array for the life of the module;
    [Object.assign] copies the reference, so the array can be pushed into
    later: what it holds at a given moment is part of the [State] below. *)
Definition DEFAULT_SETTINGS : ObsidianRcloneBridgeSettings :=
  {| rclonePath := []; remotes := Some []; remoteName := None;
     remotePath := None |}.

(** The element type of [results] in [handleSync]. *)
Record SyncResult := {
  remote : RcloneRemote;
  success : bool;
  summary : jsstring
}.

(** ** The world outside the plugin *)

Inductive Chunk :=
| StdoutData (text : jsstring)
| StderrData (text : jsstring).

(** What a spawned child does: either the ['error'] event fires (the
    process could not be started), or data arrives on the two streams and
    the ['close'] event fires with an exit code ([None] is [null]: killed by
    a signal).  [durationSec] is the text of
    [((Date.now() - startTime) / 1000).toFixed(1)] at that moment. *)
Inductive ChildBehaviour :=
| EmitsError (message : jsstring)
| Closes (chunks : list Chunk) (code : option Z) (durationSec : jsstring).

Record World := {
  (** [(this.app.vault.adapter as any).getBasePath?.()] *)
  getBasePath : option jsstring;
  (** behaviour of the n-th child spawned, given the command and argv *)
  child : nat -> jsstring -> list jsstring -> ChildBehaviour;
  (** [((Date.now() - overallStart) / 1000).toFixed(1)] after the loop *)
  overallDurationSec : jsstring
}.

Inductive Event :=
| Notice (text : jsstring)
| ConsoleError (message : jsstring)
| ConsoleLog (text : jsstring)
| ConsoleWarn (text : jsstring)
| Spawn (command : jsstring) (args : list jsstring) (shell : bool)
| ChildError (message : jsstring)
| ChildClose (code : option Z).

(** The mutable fields of the plugin object, the host storage, the
    number of children spawned so far, and the one mutable piece of the
    module: the array [DEFAULT_SETTINGS.remotes].  [sharesDefault] tells
    whether [this.settings.remotes] is that very array, as it is after a
    load that found no [remotes] in the storage and did not migrate; the
    two then hold the same rows and change together. *)
Record State := {
  settings : ObsidianRcloneBridgeSettings;
  statusBar : option jsstring;
  isSyncing : bool;
  storage : option StoredData;
  spawned : nat;
  defaultRemotes : list RcloneRemote;
  sharesDefault : bool
}.

Definition set_isSyncing (b : bool) (st : State) : State :=
  {| settings := settings st; statusBar := statusBar st; isSyncing := b;
     storage := storage st; spawned := spawned st;
     defaultRemotes := defaultRemotes st; sharesDefault := sharesDefault st |}.

Definition set_statusBar (t : option jsstring) (st : State) : State :=
  {| settings := settings st; statusBar := t; isSyncing := isSyncing st;
     storage := storage st; spawned := spawned st;
     defaultRemotes := defaultRemotes st; sharesDefault := sharesDefault st |}.

Definition set_settings (x : ObsidianRcloneBridgeSettings) (st : State)
  : State :=
  {| settings := x; statusBar := statusBar st; isSyncing := isSyncing st;
     storage := storage st; spawned := spawned st;
     defaultRemotes := defaultRemotes st; sharesDefault := sharesDefault st |}.

Definition set_storage (d : option StoredData) (st : State) : State :=
  {| settings := settings st; statusBar := statusBar st;
     isSyncing := isSyncing st; storage := d; spawned := spawned st;
     defaultRemotes := defaultRemotes st; sharesDefault := sharesDefault st |}.

Definition set_spawned (n : nat) (st : State) : State :=
  {| settings := settings st; statusBar := statusBar st;
     isSyncing := isSyncing st; storage := storage st; spawned := n;
     defaultRemotes := defaultRemotes st; sharesDefault := sharesDefault st |}.

Definition set_defaultRemotes (l : list RcloneRemote) (st : State) : State :=
  {| settings := settings st; statusBar := statusBar st;
     isSyncing := isSyncing st; storage := storage st; spawned := spawned st;
     defaultRemotes := l; sharesDefault := sharesDefault st |}.

Definition set_sharesDefault (b : bool) (st : State) : State :=
  {| settings := settings st; statusBar := statusBar st;
     isSyncing := isSyncing st; storage := storage st; spawned := spawned st;
     defaultRemotes := defaultRemotes st; sharesDefault := b |}.

(** ** A monad for the plugin's methods

    A computation runs from a state, returns or throws an [Error] with a
    message, and leaves a state and the events it caused, oldest first. *)

Inductive outcome (A : Type) :=
| Returned (a : A)
| Thrown (message : jsstring).
Arguments Returned {A} a.
Arguments Thrown {A} message.

Definition M (A : Type) := State -> outcome A * State * list Event.

Definition ret {A} (a : A) : M A := fun st => (Returned a, st, []).

Definition bind {A B} (m : M A) (f : A -> M B) : M B :=
  fun st =>
    match m st with
    | (Returned a, st1, t1) =>
        match f a st1 with
        | (o, st2, t2) => (o, st2, t1 ++ t2)
        end
    | (Thrown e, st1, t1) => (Thrown e, st1, t1)
    end.

Declare Scope js_scope.
Delimit Scope js_scope with js.
Notation "x <- m ;; k" := (bind m (fun x => k))
  (at level 61, m at next level, right associativity) : js_scope.
Notation "m ;; k" := (bind m (fun _ => k))
  (at level 61, right associativity) : js_scope.
Open Scope js_scope.

Definition throw {A} (message : jsstring) : M A :=
  fun st => (Thrown message, st, []).

Definition emit (e : Event) : M unit := fun st => (Returned tt, st, [e]).

Definition emit_all (es : list Event) : M unit :=
  fun st => (Returned tt, st, es).

Definition get : M State := fun st => (Returned st, st, []).

Definition modify (f : State -> State) : M unit :=
  fun st => (Returned tt, f st, []).

(** [try { body } catch (err) { handler }], where [handler] receives
    [err instanceof Error ? err.message : String(err)]. *)
Definition try_catch {A} (body : M A) (handler : jsstring -> M A) : M A :=
  fun st =>
    match body st with
    | (Returned a, st1, t1) => (Returned a, st1, t1)
    | (Thrown e, st1, t1) =>
        match handler e st1 with
        | (o, st2, t2) => (o, st2, t1 ++ t2)
        end
    end.

(** [try { body } finally { cleanup }]: the cleanup runs on both exits; the
    body's outcome stands unless the cleanup itself throws. *)
Definition try_finally {A} (body : M A) (cleanup : M unit) : M A :=
  fun st =>
    match body st with
    | (o, st1, t1) =>
        match cleanup st1 with
        | (Returned _, st2, t2) => (o, st2, t1 ++ t2)
        | (Thrown e, st2, t2) => (Thrown e, st2, t1 ++ t2)
        end
    end.

(** ** [updateStatus] *)
Definition updateStatus (status : jsstring) : M unit :=
  modify (fun st =>
            match statusBar st with
            | None => st
            | Some _ => set_statusBar (Some (js "Rclone: " ++ status)) st
            end).

(** ** [runRcloneSync] *)

(** The [remoteTarget] expression. *)
Definition remoteTarget (r : RcloneRemote) : jsstring :=
  if includes_char (path r) colon then path r
  else if truthy (name r) then name r ++ [colon] ++ path r
  else [].

(** The accumulated [stdout] and [stderr] buffers. *)
Fixpoint stdout_of (chunks : list Chunk) : jsstring :=
  match chunks with
  | [] => []
  | StdoutData t :: rest => t ++ stdout_of rest
  | StderrData _ :: rest => stdout_of rest
  end.

Fixpoint stderr_of (chunks : list Chunk) : jsstring :=
  match chunks with
  | [] => []
  | StdoutData _ :: rest => stderr_of rest
  | StderrData t :: rest => t ++ stderr_of rest
  end.

(** The console line written by each ['data'] handler. *)
Definition chunk_event (c : Chunk) : Event :=
  match c with
  | StdoutData t => ConsoleLog (js "[rclone stdout] " ++ t)
  | StderrData t => ConsoleWarn (js "[rclone stderr] " ++ t)
  end.

(** [`${code}`] for an exit code. *)
Definition code_to_string (code : option Z) : jsstring :=
  match code with
  | None => js "null"
  | Some z =>
      if (z <? 0)%Z
      then js "-" ++ uint_chars (N.to_uint (Z.to_N (- z)))
      else uint_chars (N.to_uint (Z.to_N z))
  end.

(** [code === 0] *)
Definition code_is_zero (code : option Z) : bool :=
  match code with
  | Some z => Z.eqb z 0
  | None => false
  end.

Definition msg_no_rclonePath : jsstring :=
  js "请在设置中填写 rclone 可执行文件的绝对路径。".
Definition msg_no_vaultPath : jsstring :=
  js "无法获取当前 Vault 的本地路径（仅桌面端支持）。".
Definition msg_no_remoteTarget : jsstring :=
  js "请在设置中填写 Remote 名称与远程路径。".
Definition msg_no_enabled : jsstring :=
  js "请在设置中至少启用一个 Remote。".
Definition msg_already_syncing : jsstring :=
  js "已有同步任务正在进行，请稍候...".

(** The argv of the child. *)
Definition bisync_args (vaultPath target : jsstring) : list jsstring :=
  [js "bisync"; vaultPath; target; js "--verbose"; js "--resync"].

(** The message of the [Error] built when the exit code is not zero. *)
Definition exit_message (code : option Z) (stdout stderr : jsstring)
  : jsstring :=
  js "rclone 退出码 " ++ code_to_string code ++ [newline]
    ++ or_else stderr stdout.

Section Plugin.

Variable W : World.

(** [spawn(command, args, { shell: false })] and the events of the child
    until the promise settles. *)
Definition spawn (command : jsstring) (args : list jsstring) (shell : bool)
  : M ChildBehaviour :=
  fun st =>
    (Returned (child W (spawned st) command args),
     set_spawned (S (spawned st)) st,
     [Spawn command args shell]).

Definition runRcloneSync (r : RcloneRemote) : M jsstring :=
  st <- get ;;
  let rclonePath := rclonePath (settings st) in
  if negb (truthy rclonePath) then throw msg_no_rclonePath
  else
    match getBasePath W with
    | None => throw msg_no_vaultPath
    | Some vaultPath =>
        if negb (truthy vaultPath) then throw msg_no_vaultPath
        else
          let target := remoteTarget r in
          if negb (truthy target) then throw msg_no_remoteTarget
          else
            b <- spawn rclonePath (bisync_args vaultPath target) false ;;
            match b with
            | EmitsError message =>
                emit (ChildError message) ;;
                throw message
            | Closes chunks code durationSec =>
                emit_all (map chunk_event chunks) ;;
                emit (ChildClose code) ;;
                let stdout := stdout_of chunks in
                let stderr := stderr_of chunks in
                let combined := stdout ++ [newline] ++ stderr in
                let s := parse combined durationSec in
                if code_is_zero code then ret s
                else throw (exit_message code stdout stderr)
            end
    end.

(** ** [handleSync] *)

(** One iteration of the [for] loop: the inner [try]/[catch]. *)
Definition syncOne (r : RcloneRemote) : M SyncResult :=
  try_catch
    (s <- runRcloneSync r ;;
     ret {| remote := r; success := true; summary := s |})
    (fun message =>
       emit (ConsoleError message) ;;
       ret {| remote := r; success := false;
              summary := js "失败: " ++ message |}).

(** The [for (const remote of enabledRemotes)] loop, pushing onto
    [results]. *)
Fixpoint syncLoop (enabledRemotes : list RcloneRemote)
  (results : list SyncResult) : M (list SyncResult) :=
  match enabledRemotes with
  | [] => ret results
  | r :: rest =>
      x <- syncOne r ;;
      syncLoop rest (results ++ [x])
  end.

(** [(this.settings.remotes || []).filter((r) => r.enable)] *)
Definition enabledRemotes (s : ObsidianRcloneBridgeSettings)
  : list RcloneRemote :=
  filter enable (match remotes s with Some l => l | None => [] end).

(** One line of the final notice. *)
Definition resultLine (x : SyncResult) : jsstring :=
  or_else (name (remote x)) (js "(未命名)") ++ js ": " ++ summary x.

Definition completionNotice (durationSec : jsstring)
  (results : list SyncResult) : jsstring :=
  join [newline]
    ((js "同步完成 (" ++ durationSec ++ js "s)") :: map resultLine results).

(** The body of the outer [try]. *)
Definition syncBody : M unit :=
  st <- get ;;
  let enabled := enabledRemotes (settings st) in
  match enabled with
  | [] => throw msg_no_enabled
  | _ :: _ =>
      results <- syncLoop enabled [] ;;
      let durationSec := overallDurationSec W in
      let allSuccess := forallb success results in
      updateStatus (if allSuccess then js "同步成功" else js "同步失败") ;;
      emit (Notice (completionNotice durationSec results))
  end.

(** The outer [catch]. *)
Definition syncCatch (message : jsstring) : M unit :=
  emit (ConsoleError message) ;;
  updateStatus (js "同步失败") ;;
  emit (Notice (js "同步失败: " ++ message)).

(** [handleSync] with an arbitrary body inside the outer [try]: the guard,
    the outer [catch] and the [finally]. *)
Definition handleSyncWith (body : M unit) : M unit :=
  st <- get ;;
  if isSyncing st then emit (Notice msg_already_syncing)
  else
    modify (set_isSyncing true) ;;
    updateStatus (js "正在同步...") ;;
    try_finally (try_catch body syncCatch) (modify (set_isSyncing false)).

Definition handleSync : M unit := handleSyncWith syncBody.

(** ** [loadSettings] and [saveSettings] *)

Definition opt_truthy (x : option jsstring) : bool :=
  match x with
  | Some s => truthy s
  | None => false
  end.

(** [x || ""] *)
Definition opt_or_empty (x : option jsstring) : jsstring :=
  match x with
  | Some s => s
  | None => []
  end.

(** The object [DEFAULT_SETTINGS] in state [st]: as written in the source,
    with what its [remotes] array holds by now. *)
Definition defaults_in (st : State) : ObsidianRcloneBridgeSettings :=
  {| rclonePath := rclonePath DEFAULT_SETTINGS;
     remotes := Some (defaultRemotes st);
     remoteName := remoteName DEFAULT_SETTINGS;
     remotePath := remotePath DEFAULT_SETTINGS |}.

(** [Object.assign({}, defaults, data)] *)
Definition assign_defaults (defaults : ObsidianRcloneBridgeSettings)
  (data : option StoredData) : ObsidianRcloneBridgeSettings :=
  match data with
  | None => defaults
  | Some d =>
      {| rclonePath :=
           match stored_rclonePath d with
           | Some p => p
           | None => rclonePath defaults
           end;
         remotes :=
           match stored_remotes d with
           | Some v => v
           | None => remotes defaults
           end;
         remoteName := stored_remoteName d;
         remotePath := stored_remotePath d |}
  end.

(** [Object.assign] found no [remotes] in the data, so the new object got
    the array of the defaults. *)
Definition takes_default_remotes (data : option StoredData) : bool :=
  match data with
  | None => true
  | Some d =>
      match stored_remotes d with
      | None => true
      | Some _ => false
      end
  end.

(** [!remotes || remotes.length === 0] *)
Definition remotes_empty (s : ObsidianRcloneBridgeSettings) : bool :=
  match remotes s with
  | None => true
  | Some [] => true
  | Some (_ :: _) => false
  end.

(** [(data as any)?.remoteName] and [(data as any)?.remotePath] *)
Definition legacyRemoteName (data : option StoredData) : option jsstring :=
  match data with
  | Some d => stored_remoteName d
  | None => None
  end.

Definition legacyRemotePath (data : option StoredData) : option jsstring :=
  match data with
  | Some d => stored_remotePath d
  | None => None
  end.

(** The condition of the migration. *)
Definition migrates (data : option StoredData)
  (s : ObsidianRcloneBridgeSettings) : bool :=
  remotes_empty s
  && (opt_truthy (legacyRemoteName data)
      || opt_truthy (legacyRemotePath data)).

(** The migration of the older single-target fields: [remotes] becomes a
    new array. *)
Definition migrate (data : option StoredData)
  (s : ObsidianRcloneBridgeSettings) : ObsidianRcloneBridgeSettings :=
  if migrates data s
  then
    {| rclonePath := rclonePath s;
       remotes := Some [ {| name := opt_or_empty (legacyRemoteName data);
                            path := opt_or_empty (legacyRemotePath data);
                            enable := true |} ];
       remoteName := remoteName s;
       remotePath := remotePath s |}
  else s.

Definition loadSettings : M unit :=
  st <- get ;;
  let data := storage st in
  let assigned := assign_defaults (defaults_in st) data in
  modify (set_settings (migrate data assigned)) ;;
  modify (set_sharesDefault
            (takes_default_remotes data && negb (migrates data assigned))).

(** The object handed to [saveData]: the settings with all their own
    properties. *)
Definition to_stored (s : ObsidianRcloneBridgeSettings) : StoredData :=
  {| stored_rclonePath := Some (rclonePath s);
     stored_remotes := Some (remotes s);
     stored_remoteName := remoteName s;
     stored_remotePath := remotePath s |}.

Definition saveSettings : M unit :=
  st <- get ;;
  modify (set_storage (Some (to_stored (settings st)))).

End Plugin.

(** ** Vocabulary of the statements *)

(** What the inner [catch] makes of the outcome of one runner call. *)
Definition result_of (r : RcloneRemote) (o : outcome jsstring) : SyncResult :=
  match o with
  | Returned s => {| remote := r; success := true; summary := s |}
  | Thrown message =>
      {| remote := r; success := false; summary := js "失败: " ++ message |}
  end.

Definition catch_events (o : outcome jsstring) : list Event :=
  match o with
  | Returned _ => []
  | Thrown message => [ConsoleError message]
  end.

(** [Runs W st rs l st'] : starting in [st], the runner is called on each
    target of [rs] in turn, each call starting in the state the previous one
    left; [l] pairs the result recorded for each target with the events of
    its iteration, and [st'] is the state after the last call. *)
Inductive Runs (W : World)
  : State -> list RcloneRemote -> list (SyncResult * list Event) -> State
    -> Prop :=
| Runs_nil : forall st, Runs W st [] [] st
| Runs_cons : forall st r o st1 t rs l st2,
    runRcloneSync W r st = (o, st1, t) ->
    Runs W st1 rs l st2 ->
    Runs W st (r :: rs) ((result_of r o, t ++ catch_events o) :: l) st2.

(** What the promise settles to once the child has been spawned. *)
Definition settle (b : ChildBehaviour) : outcome jsstring :=
  match b with
  | EmitsError message => Thrown message
  | Closes chunks code durationSec =>
      if code_is_zero code
      then Returned (parse (stdout_of chunks ++ [newline] ++ stderr_of chunks)
                           durationSec)
      else Thrown (exit_message code (stdout_of chunks) (stderr_of chunks))
  end.

Definition child_events (b : ChildBehaviour) : list Event :=
  match b with
  | EmitsError message => [ChildError message]
  | Closes chunks code _ => map chunk_event chunks ++ [ChildClose code]
  end.

(** The three messages thrown by the checks that precede the spawn, and the
    one thrown when no target is enabled. *)
Definition is_precheck_message (m : jsstring) : Prop :=
  m = msg_no_rclonePath \/ m = msg_no_vaultPath \/ m = msg_no_remoteTarget.

Definition is_spawn (e : Event) : bool :=
  match e with
  | Spawn _ _ _ => true
  | _ => false
  end.

Definition is_child_end (e : Event) : bool :=
  match e with
  | ChildError _ | ChildClose _ => true
  | _ => false
  end.

(** The state in which the loop starts: the guard taken, the status bar
    showing that a run is in progress. *)
Definition running (st : State) : State :=
  match statusBar st with
  | None => set_isSyncing true st
  | Some _ =>
      set_statusBar (Some (js "Rclone: " ++ js "正在同步..."))
        (set_isSyncing true st)
  end.

(** The status bar after [updateStatus status]. *)
Definition with_status (status : jsstring) (st : State) : State :=
  match statusBar st with
  | None => st
  | Some _ => set_statusBar (Some (js "Rclone: " ++ status)) st
  end.

(** The targets of the children spawned in a trace, oldest first:
    the third element of each argv. *)
Fixpoint spawned_targets (t : list Event) : list jsstring :=
  match t with
  | [] => []
  | Spawn _ args _ :: t' => nth 2 args [] :: spawned_targets t'
  | _ :: t' => spawned_targets t'
  end.

(** [sequential busy t]: reading [t] from a moment at which a child is
    alive ([busy]) or not, no child is spawned while another is alive, every
    end event belongs to a live child, and no child is left alive. *)
Fixpoint sequential (busy : bool) (t : list Event) : bool :=
  match t with
  | [] => negb busy
  | e :: t' =>
      if is_spawn e then negb busy && sequential true t'
      else if is_child_end e then busy && sequential false t'
      else sequential busy t'
  end.

(** ** Sample data for the examples *)

Definition remote_a : RcloneRemote :=
  {| name := js "a"; path := js "a:v"; enable := true |}.
Definition remote_b : RcloneRemote :=
  {| name := js "b"; path := js "x"; enable := false |}.
Definition remote_c : RcloneRemote :=
  {| name := js "c"; path := js "y"; enable := true |}.

(** The first child reports nothing to do and exits with 0, every later
    one is refused by the remote and exits with 1. *)
Definition sample_world : World :=
  {| getBasePath := Some (js "/home/me/vault");
     child := fun n _ _ =>
       match n with
       | O => Closes [StderrData (js "INFO : No changes found")]
                (Some 0%Z) (js "0.5")
       | S _ => Closes [StderrData (js "permission denied")]
                  (Some 1%Z) (js "0.2")
       end;
     overallDurationSec := js "0.7" |}.

Definition sample_settings : ObsidianRcloneBridgeSettings :=
  {| rclonePath := js "/usr/bin/rclone";
     remotes := Some [remote_a; remote_b; remote_c];
     remoteName := None; remotePath := None |}.

Definition sample_state : State :=
  {| settings := sample_settings;
     statusBar := Some (js "Rclone: 就绪");
     isSyncing := false;
     storage := Some (to_stored sample_settings);
     spawned := 0;
     defaultRemotes := [];
     sharesDefault := false |}.

(** ** Vocabulary for the configuration errors *)

(** A configuration with no executable path, with an enabled target that
    has no remote address, or with no enabled target. *)
Definition config_invalid (st : State) : Prop :=
  rclonePath (settings st) = []
  \/ (exists r, In r (enabledRemotes (settings st)) /\ remoteTarget r = [])
  \/ enabledRemotes (settings st) = [].

(** A run that failed as a whole: the two events of the outer [catch] are
    all that happened, so nothing was spawned and no target has a line. *)
Definition batch_aborted (x : outcome unit * State * list Event) : Prop :=
  exists m, snd x = [ConsoleError m; Notice (js "同步失败: " ++ m)].

(** The result recorded for a target whose runner threw [m], with the
    events of its iteration when nothing was spawned. *)
Definition failed_entry (m : jsstring) (r : RcloneRemote)
  : SyncResult * list Event :=
  ({| remote := r; success := false; summary := js "失败: " ++ m |},
   [ConsoleError m]).

Definition state_no_executable : State :=
  set_settings
    {| rclonePath := []; remotes := Some [remote_a; remote_b; remote_c];
       remoteName := None; remotePath := None |} sample_state.

Definition state_unaddressed_target : State :=
  set_settings
    {| rclonePath := js "/usr/bin/rclone";
       remotes := Some [ {| name := []; path := []; enable := true |};
                         remote_c ];
       remoteName := None; remotePath := None |} sample_state.

(** ** Vocabulary for the legacy migration *)

(** The stored [remotes] is absent, [null] or an empty list. *)
Definition stored_remotes_absent_or_empty (data : option StoredData) : bool :=
  match data with
  | None => true
  | Some d =>
      match stored_remotes d with
      | None | Some None | Some (Some []) => true
      | Some (Some (_ :: _)) => false
      end
  end.

(** The state once [loadSettings] has run. *)
Definition loaded (st : State) : State := snd (fst (loadSettings st)).

(** A blob written by the single-target version with both fields blank. *)
Definition legacy_blank : StoredData :=
  {| stored_rclonePath := Some (js "/usr/bin/rclone");
     stored_remotes := None;
     stored_remoteName := Some [];
     stored_remotePath := Some [] |}.

(** A blob written by the single-target version. *)
Definition legacy_onedrive : StoredData :=
  {| stored_rclonePath := Some (js "/usr/bin/rclone");
     stored_remotes := None;
     stored_remoteName := Some (js "onedrive");
     stored_remotePath := Some (js "vault") |}.

(** ** Sample outputs of the child *)

Definition output_no_changes : jsstring :=
  js "2024/01/01 10:00:00 INFO  : Bisync successful: No Changes found".

Definition output_transfer : jsstring :=
  js "Transferred:        1.234 MiB / 1.234 MiB, 100%, 500 KiB/s, ETA 0s"
    ++ [newline] ++ js "Transferred:            3 / 3, 100%"
    ++ [newline] ++ js "Checks:                10 / 12, 83%".

Definition output_unknown : jsstring := js "Bisync finished".

(** Counts that are not below 2^53. *)
Definition output_large_counts : jsstring :=
  js "Transferred:   1 KiB / 1 KiB, 100%"
    ++ [newline]
    ++ js "Transferred:   9007199254740993 / 9007199254740993, 100%"
    ++ [newline]
    ++ js "Checks:   1000000000000000000000 / 18446744073709551615".

(** ** [onload] *)

(** [loadSettings], then the status bar item is created (its text empty)
    and set to "ready".  The ribbon icon and the settings tab registered
    here only install the callbacks modelled by [handleSync] and by the
    handlers of the settings tab below. *)
Definition onload : M unit :=
  loadSettings ;;
  modify (set_statusBar (Some [])) ;;
  updateStatus (js "就绪").

(** ** The settings tab ([RcloneSettingTab.display]) *)

(** [s.trim()]: white space and line terminators are removed at both
    ends; they are the characters of [\s]. *)
Fixpoint trimStart (s : jsstring) : jsstring :=
  match s with
  | c :: s' => if is_space c then trimStart s' else s
  | [] => []
  end.

Definition trimEnd (s : jsstring) : jsstring := rev (trimStart (rev s)).

Definition trim (s : jsstring) : jsstring := trimEnd (trimStart s).

Definition with_rclonePath (p : jsstring) (s : ObsidianRcloneBridgeSettings)
  : ObsidianRcloneBridgeSettings :=
  {| rclonePath := p; remotes := remotes s; remoteName := remoteName s;
     remotePath := remotePath s |}.

Definition with_remotes (l : option (list RcloneRemote))
  (s : ObsidianRcloneBridgeSettings) : ObsidianRcloneBridgeSettings :=
  {| rclonePath := rclonePath s; remotes := l; remoteName := remoteName s;
     remotePath := remotePath s |}.

(** The element at [index] replaced by its image; a list too short is left
    as it is. *)
Fixpoint update_at (index : nat) (f : RcloneRemote -> RcloneRemote)
  (l : list RcloneRemote) : list RcloneRemote :=
  match l, index with
  | [], _ => []
  | x :: l', O => f x :: l'
  | x :: l', S i => x :: update_at i f l'
  end.

(** [l.splice(index, 1)] for an index that is not negative: the element
    at [index] removed, nothing removed past the end. *)
Fixpoint splice1 (index : nat) (l : list RcloneRemote) : list RcloneRemote :=
  match l, index with
  | [], _ => []
  | _ :: l', O => l'
  | x :: l', S i => x :: splice1 i l'
  end.

(** The message of the [TypeError] raised when a method is read from
    [null], in the wording of V8; no statement depends on the wording. *)
Definition null_property_error (property : jsstring) : jsstring :=
  js "Cannot read properties of null (reading '" ++ property ++ js "')".

(** The [onChange] handler of the executable path. *)
Definition rclonePath_onChange (value : jsstring) : M unit :=
  modify (fun st => set_settings (with_rclonePath (trim value) (settings st)) st) ;;
  saveSettings.

(** [this.settings.remotes] and its rows are changed in place.  While the
    array is the one of [DEFAULT_SETTINGS], that one changes with it. *)
Definition in_place (l : option (list RcloneRemote)) (st : State) : State :=
  let st' := set_settings (with_remotes l (settings st)) st in
  match l with
  | Some rows => if sharesDefault st then set_defaultRemotes rows st' else st'
  | None => st'
  end.

(** The handlers of the row rendered for the remote at [index].  The row
    holds the remote object itself; the list is rendered again after every
    insertion and removal, so the object is the element at [index].  On a
    list that no longer has this element the assignment changes nothing
    that is stored. *)
Definition edit_remote (index : nat) (f : RcloneRemote -> RcloneRemote)
  : M unit :=
  modify (fun st =>
            in_place (option_map (update_at index f) (remotes (settings st)))
              st) ;;
  saveSettings.

Definition name_onChange (index : nat) (value : jsstring) : M unit :=
  edit_remote index
    (fun r => {| name := trim value; path := path r; enable := enable r |}).

Definition path_onChange (index : nat) (value : jsstring) : M unit :=
  edit_remote index
    (fun r => {| name := name r; path := trim value; enable := enable r |}).

Definition enable_onChange (index : nat) (value : bool) : M unit :=
  edit_remote index
    (fun r => {| name := name r; path := path r; enable := value |}).

(** The trash button: [this.plugin.settings.remotes.splice(index, 1)]. *)
Definition trash_onClick (index : nat) : M unit :=
  st <- get ;;
  match remotes (settings st) with
  | Some l =>
      modify (in_place (Some (splice1 index l))) ;;
      saveSettings
  | None => throw (null_property_error (js "splice"))
  end.

(** The "add" button:
    [this.plugin.settings.remotes.push({ name: "", path: "", enable: true })]. *)
Definition add_onClick : M unit :=
  st <- get ;;
  match remotes (settings st) with
  | Some l =>
      modify (in_place
                (Some (l ++ [ {| name := []; path := []; enable := true |} ]))) ;;
      saveSettings
  | None => throw (null_property_error (js "push"))
  end.

(** One action of the user in the settings tab. *)
Inductive TabAction :=
| SetRclonePath (value : jsstring)
| SetName (index : nat) (value : jsstring)
| SetPath (index : nat) (value : jsstring)
| SetEnable (index : nat) (value : bool)
| Trash (index : nat)
| Add.

Definition perform (a : TabAction) : M unit :=
  match a with
  | SetRclonePath v => rclonePath_onChange v
  | SetName i v => name_onChange i v
  | SetPath i v => path_onChange i v
  | SetEnable i v => enable_onChange i v
  | Trash i => trash_onClick i
  | Add => add_onClick
  end.

(** ** The single-target version ([src/main.ts]) *)

Module Legacy.

(** [interface ObsidianRcloneBridgeSettings] of that version. *)
Record Settings := {
  rclonePath : jsstring;
  remoteName : jsstring;
  remotePath : jsstring
}.

Definition DEFAULT_SETTINGS : Settings :=
  {| rclonePath := []; remoteName := []; remotePath := [] |}.

(** [Object.assign({}, DEFAULT_SETTINGS, await this.loadData())], read at
    the three fields this version uses. *)
Definition loadSettings (data : option StoredData) : Settings :=
  match data with
  | None => DEFAULT_SETTINGS
  | Some d =>
      {| rclonePath :=
           match stored_rclonePath d with
           | Some p => p
           | None => rclonePath DEFAULT_SETTINGS
           end;
         remoteName :=
           match stored_remoteName d with
           | Some n => n
           | None => remoteName DEFAULT_SETTINGS
           end;
         remotePath :=
           match stored_remotePath d with
           | Some n => n
           | None => remotePath DEFAULT_SETTINGS
           end |}
  end.

(** The [remoteTarget] expression of that version. *)
Definition remoteTarget (s : Settings) : jsstring :=
  if includes_char (remotePath s) colon then remotePath s
  else if truthy (remoteName s) then remoteName s ++ [colon] ++ remotePath s
  else [].

(** Only [stderr] is accumulated; the error of a non-zero exit code
    carries it. *)
Definition exit_message (code : option Z) (stderr : jsstring) : jsstring :=
  js "rclone 退出码 " ++ code_to_string code ++ [newline] ++ stderr.

Section Plugin.

Variable W : World.

(** [this.settings] is only read by the two methods below: it is their
    argument [s]. *)
Definition runRcloneSync (s : Settings) : M unit :=
  if negb (truthy (rclonePath s)) then throw msg_no_rclonePath
  else
    match getBasePath W with
    | None => throw msg_no_vaultPath
    | Some vaultPath =>
        if negb (truthy vaultPath) then throw msg_no_vaultPath
        else
          let target := remoteTarget s in
          if negb (truthy target) then throw msg_no_remoteTarget
          else
            b <- spawn W (rclonePath s) (bisync_args vaultPath target) false ;;
            match b with
            | EmitsError message =>
                emit (ChildError message) ;;
                throw message
            | Closes chunks code _ =>
                emit_all (map chunk_event chunks) ;;
                emit (ChildClose code) ;;
                if code_is_zero code then ret tt
                else throw (exit_message code (stderr_of chunks))
            end
    end.

Definition handleSync (s : Settings) : M unit :=
  st <- get ;;
  if isSyncing st then emit (Notice msg_already_syncing)
  else
    modify (set_isSyncing true) ;;
    updateStatus (js "正在同步...") ;;
    try_finally
      (try_catch
         (runRcloneSync s ;;
          updateStatus (js "同步成功") ;;
          emit (Notice (js "同步成功 ✅")))
         (fun message =>
            emit (ConsoleError message) ;;
            updateStatus (js "同步失败") ;;
            emit (Notice (js "同步失败: " ++ message))))
      (modify (set_isSyncing false)).

End Plugin.

End Legacy.

(** ** Vocabulary for the further properties *)

(** The events of a trace that spawn a child. *)
Definition spawns (t : list Event) : list Event := filter is_spawn t.

Definition is_notice (e : Event) : bool :=
  match e with
  | Notice _ => true
  | _ => false
  end.

(** [w] is a contiguous part of [s]. *)
Definition part_of (w s : jsstring) : Prop :=
  exists pre post, s = pre ++ w ++ post.

(** The state after a computation, and its trace. *)
Definition state_after {A} (x : outcome A * State * list Event) : State :=
  snd (fst x).

Definition trace_of {A} (x : outcome A * State * list Event) : list Event :=
  snd x.

(** The actions of the settings tab one after the other, stopping at the
    first that throws. *)
Fixpoint perform_all (actions : list TabAction) : M unit :=
  match actions with
  | [] => ret tt
  | a :: rest => perform a ;; perform_all rest
  end.

(** A stored blob with a blank executable path and one remote. *)
Definition state_blank_path_typed : State :=
  state_after (rclonePath_onChange (js "   ") sample_state).

(** The captures with every captured word canonicalised. *)
Definition canon_captures (caps : captures) : captures :=
  map (fun p => (fst p, map canon (snd p))) caps.

(** A captured size: an amount of digits and dots, white space, then a
    unit of word characters that ends with the letter B. *)
Definition size_shaped (size : jsstring) : Prop :=
  exists amount gap unit b,
    size = amount ++ gap ++ unit ++ [b]
    /\ amount <> []
    /\ Forall (fun c => is_digit c = true \/ c = 46%N) amount
    /\ Forall (fun c => is_space c = true) gap
    /\ Forall (fun c => is_word c = true) unit
    /\ canon b = 66%N.

(** [k'] does on the canonical input what [k] does on the input. *)
Definition follows {R R' : Type} (f : R -> R') (k : cont R) (k' : cont R')
  : Prop :=
  forall s c, k' (map canon s) (canon_captures c) = option_map f (k s c).

(** The sample plugin after it has loaded a blob of the single-target
    version. *)
Definition state_migrated : State :=
  loaded (set_storage (Some legacy_onedrive) sample_state).

(** The row appended by the "add" button. *)
Definition blank_remote : RcloneRemote :=
  {| name := []; path := []; enable := true |}.

(** The target the migration makes of [legacy_onedrive]. *)
Definition legacy_onedrive_target : RcloneRemote :=
  {| name := js "onedrive"; path := js "vault"; enable := true |}.

(** The plugin started with nothing stored, the "add" button pressed once,
    and the storage then replaced by a blob of the single-target version:
    the array of the defaults holds the row that was added. *)
Definition state_default_pushed : State :=
  set_storage (Some legacy_onedrive)
    (state_after (add_onClick (loaded (set_storage None sample_state)))).

(** The target the migration makes of the legacy fields of the settings. *)
Definition legacy_target (s : ObsidianRcloneBridgeSettings) : RcloneRemote :=
  {| name := opt_or_empty (remoteName s);
     path := opt_or_empty (remotePath s);
     enable := true |}.

Definition has_legacy (s : ObsidianRcloneBridgeSettings) : bool :=
  opt_truthy (remoteName s) || opt_truthy (remotePath s).

(** The target the single-target settings describe. *)
Definition legacy_remote (s : Legacy.Settings) : RcloneRemote :=
  {| name := Legacy.remoteName s; path := Legacy.remotePath s;
     enable := true |}.

(* ================================================================== *)
(** * Part II: lemmas and theorems *)
(* ================================================================== *)


(** ** String facts *)

Lemma truthy_false (s : jsstring) : truthy s = false <-> s = [].
Proof. destruct s; simpl; split; congruence. Qed.

Lemma truthy_true (s : jsstring) : truthy s = true <-> s <> [].
Proof. destruct s; simpl; split; congruence. Qed.

Lemma truthy_app_cons (a : jsstring) (c : char) (b : jsstring) :
  truthy (a ++ c :: b) = true.
Proof. destruct a; reflexivity. Qed.

Lemma includes_char_In (s : jsstring) (c : char) :
  includes_char s c = true <-> In c s.
Proof.
  unfold includes_char. rewrite existsb_exists. split.
  - intros [x [Hin Heq]]. apply N.eqb_eq in Heq. now subst.
  - intros Hin. exists c. split; [assumption | apply N.eqb_refl].
Qed.

Lemma includes_char_not_In (s : jsstring) (c : char) :
  includes_char s c = false <-> ~ In c s.
Proof.
  rewrite <- includes_char_In. destruct (includes_char s c); split;
    congruence.
Qed.

Lemma includes_char_truthy (s : jsstring) (c : char) :
  includes_char s c = true -> truthy s = true.
Proof. destruct s; simpl; [discriminate | reflexivity]. Qed.

(** ** Address resolution *)

Lemma remoteTarget_delimited (r : RcloneRemote) :
  includes_char (path r) colon = true -> remoteTarget r = path r.
Proof. intros H. unfold remoteTarget. now rewrite H. Qed.

Lemma remoteTarget_prefixed (r : RcloneRemote) :
  includes_char (path r) colon = false -> name r <> [] ->
  remoteTarget r = name r ++ [colon] ++ path r.
Proof.
  intros H Hn. unfold remoteTarget. rewrite H.
  apply truthy_true in Hn. now rewrite Hn.
Qed.

Lemma remoteTarget_empty_iff (r : RcloneRemote) :
  remoteTarget r = [] <->
  name r = [] /\ includes_char (path r) colon = false.
Proof.
  unfold remoteTarget.
  destruct (includes_char (path r) colon) eqn:Hc.
  - split.
    + intros E. apply includes_char_truthy in Hc. rewrite E in Hc.
      discriminate.
    + intros [_ F]. discriminate.
  - destruct (name r) as [|c n]; simpl.
    + split; auto.
    + split; [discriminate | intros [F _]; discriminate].
Qed.

(** ** The runner, case by case *)

Ltac run_unfold :=
  unfold runRcloneSync, bind, get, throw, spawn, emit, emit_all, ret; simpl.

Section RunnerFacts.

Variable W : World.

Lemma run_no_rclonePath (r : RcloneRemote) (st : State) :
  rclonePath (settings st) = [] ->
  runRcloneSync W r st = (Thrown msg_no_rclonePath, st, []).
Proof. intros H. run_unfold. rewrite H. reflexivity. Qed.

Lemma run_no_vaultPath (r : RcloneRemote) (st : State) :
  rclonePath (settings st) <> [] ->
  opt_truthy (getBasePath W) = false ->
  runRcloneSync W r st = (Thrown msg_no_vaultPath, st, []).
Proof.
  intros H Hv. run_unfold. apply truthy_true in H. rewrite H. simpl.
  destruct (getBasePath W) as [v|]; simpl in *; [rewrite Hv|]; reflexivity.
Qed.

Lemma run_no_remoteTarget (r : RcloneRemote) (st : State) :
  rclonePath (settings st) <> [] ->
  opt_truthy (getBasePath W) = true ->
  remoteTarget r = [] ->
  runRcloneSync W r st = (Thrown msg_no_remoteTarget, st, []).
Proof.
  intros H Hv Ht. run_unfold. apply truthy_true in H. rewrite H. simpl.
  destruct (getBasePath W) as [v|]; simpl in *; [|discriminate].
  rewrite Hv, Ht. reflexivity.
Qed.

Lemma run_spawns (r : RcloneRemote) (st : State) (v : jsstring) :
  rclonePath (settings st) <> [] ->
  getBasePath W = Some v -> v <> [] ->
  remoteTarget r <> [] ->
  let args := bisync_args v (remoteTarget r) in
  let b := child W (spawned st) (rclonePath (settings st)) args in
  runRcloneSync W r st =
    (settle b, set_spawned (S (spawned st)) st,
     Spawn (rclonePath (settings st)) args false :: child_events b).
Proof.
  intros H Hv Hv' Ht. run_unfold.
  apply truthy_true in H, Hv', Ht. rewrite H, Hv. simpl. rewrite Hv', Ht.
  simpl. destruct (child W _ _ _) as [m|chunks code d]; simpl.
  - reflexivity.
  - destruct (code_is_zero code); simpl; rewrite ?app_nil_r; reflexivity.
Qed.

End RunnerFacts.

(** ** The loop *)

Section LoopFacts.

Variable W : World.

(** The runner either stops at one of its three checks, leaving no trace
    and no change, or spawns exactly one child and settles with it. *)
Lemma run_cases (r : RcloneRemote) (st : State) :
  (exists m, is_precheck_message m /\
             runRcloneSync W r st = (Thrown m, st, []))
  \/ (exists v,
        rclonePath (settings st) <> [] /\ getBasePath W = Some v /\
        v <> [] /\ remoteTarget r <> [] /\
        runRcloneSync W r st =
          (settle (child W (spawned st) (rclonePath (settings st))
                     (bisync_args v (remoteTarget r))),
           set_spawned (S (spawned st)) st,
           Spawn (rclonePath (settings st))
             (bisync_args v (remoteTarget r)) false
             :: child_events
                  (child W (spawned st) (rclonePath (settings st))
                     (bisync_args v (remoteTarget r))))).
Proof.
  destruct (list_eq_dec N.eq_dec (rclonePath (settings st)) []) as [Hp|Hne].
  - left. exists msg_no_rclonePath. split; [left; reflexivity|].
    now apply run_no_rclonePath.
  - destruct (opt_truthy (getBasePath W)) eqn:Hv.
    + destruct (remoteTarget r) as [|c' t] eqn:Ht.
      * left. exists msg_no_remoteTarget.
        split; [right; right; reflexivity|].
        now apply run_no_remoteTarget.
      * right. destruct (getBasePath W) as [v|] eqn:Hg; [|discriminate].
        exists v. simpl in Hv. apply truthy_true in Hv.
        assert (Htne : remoteTarget r <> []) by (rewrite Ht; discriminate).
        rewrite <- Ht. repeat split; auto.
        apply (run_spawns W r st v Hne Hg Hv Htne).
    + left. exists msg_no_vaultPath. split; [right; left; reflexivity|].
      now apply run_no_vaultPath.
Qed.

(** The runner touches nothing of the state but the spawn counter. *)
Lemma run_frame (r : RcloneRemote) (st st1 : State) o t :
  runRcloneSync W r st = (o, st1, t) ->
  st1 = set_spawned (spawned st1) st.
Proof.
  intros H. destruct (run_cases r st) as [[m [_ E]] | [v [_ [_ [_ [_ E]]]]]];
    rewrite E in H; inversion H; subst; clear;
    repeat match goal with s : State |- _ => destruct s end; reflexivity.
Qed.

Lemma syncOne_spec (r : RcloneRemote) (st st1 : State) o t :
  runRcloneSync W r st = (o, st1, t) ->
  syncOne W r st = (Returned (result_of r o), st1, t ++ catch_events o).
Proof.
  intros H. unfold syncOne, try_catch, bind, ret, emit. rewrite H.
  destruct o as [s|m]; simpl; rewrite ?app_nil_r; reflexivity.
Qed.

Lemma syncLoop_Runs (rs : list RcloneRemote) :
  forall (acc : list SyncResult) (st : State),
  exists l st2,
    Runs W st rs l st2 /\
    syncLoop W rs acc st =
      (Returned (acc ++ map fst l), st2, List.concat (map snd l)).
Proof.
  induction rs as [|r rs IH]; intros acc st.
  - exists [], st. split; [constructor|]. simpl. unfold ret.
    now rewrite app_nil_r.
  - destruct (runRcloneSync W r st) as [[o st1] t] eqn:Hr.
    destruct (IH (acc ++ [result_of r o]) st1) as [l [st2 [HR HL]]].
    exists ((result_of r o, t ++ catch_events o) :: l), st2. split.
    + econstructor; eassumption.
    + simpl. unfold bind at 1. rewrite (syncOne_spec r st _ _ _ Hr), HL.
      simpl. now rewrite <- app_assoc.
Qed.

Lemma Runs_frame st rs l st2 :
  Runs W st rs l st2 -> st2 = set_spawned (spawned st2) st.
Proof.
  induction 1 as [st | st r o st1 t rs l st2 Hr HR IH].
  - destruct st; reflexivity.
  - rewrite IH. apply run_frame in Hr. rewrite Hr. reflexivity.
Qed.

Lemma Runs_targets st rs l st2 :
  Runs W st rs l st2 -> map (fun x => remote (fst x)) l = rs.
Proof.
  induction 1 as [st | st r o st1 t rs l st2 Hr HR IH]; simpl.
  - reflexivity.
  - rewrite IH. destruct o; reflexivity.
Qed.

Lemma Runs_length st rs l st2 :
  Runs W st rs l st2 -> List.length l = List.length rs.
Proof.
  intros H. apply Runs_targets in H. rewrite <- H. now rewrite length_map.
Qed.

Lemma Runs_deterministic st rs l st2 l' st2' :
  Runs W st rs l st2 -> Runs W st rs l' st2' -> l = l' /\ st2 = st2'.
Proof.
  intros H. revert l' st2'.
  induction H as [st | st r o st1 t rs l st2 Hr HR IH]; intros l' st2' H'.
  - inversion H'; subst. split; reflexivity.
  - inversion H' as [| ? ? o' st1' t' ? l0 ? Hr' HR']; subst.
    rewrite Hr in Hr'. inversion Hr'; subst.
    destruct (IH _ _ HR') as [-> ->]. split; reflexivity.
Qed.

End LoopFacts.

(** ** [handleSync] path by path *)

Section HandleSyncFacts.

Variable W : World.

Lemma settings_running st : settings (running st) = settings st.
Proof. unfold running. destruct (statusBar st); reflexivity. Qed.

Lemma spawned_running st : spawned (running st) = spawned st.
Proof. unfold running. destruct (statusBar st); reflexivity. Qed.

Lemma storage_running st : storage (running st) = storage st.
Proof. unfold running. destruct (statusBar st); reflexivity. Qed.

Lemma isSyncing_running st : isSyncing (running st) = true.
Proof. unfold running. destruct (statusBar st); reflexivity. Qed.

Lemma handleSyncWith_idle (body : M unit) (st : State) :
  isSyncing st = false ->
  handleSyncWith body st =
    try_finally (try_catch body syncCatch) (modify (set_isSyncing false))
      (running st).
Proof.
  intros H. unfold handleSyncWith, bind at 1, get. rewrite H.
  unfold bind, modify, updateStatus, running; simpl.
  destruct (statusBar st); simpl;
    destruct (try_finally _ _ _) as [[o s] t]; reflexivity.
Qed.

Lemma handleSync_busy (st : State) :
  isSyncing st = true ->
  handleSync W st = (Returned tt, st, [Notice msg_already_syncing]).
Proof.
  intros H. unfold handleSync, handleSyncWith, bind, get, emit.
  rewrite H. reflexivity.
Qed.

Lemma handleSyncWith_releases (body : M unit) (st : State) :
  isSyncing st = false ->
  isSyncing (snd (fst (handleSyncWith body st))) = false.
Proof.
  intros H. rewrite (handleSyncWith_idle body st H).
  unfold try_finally, modify.
  destruct (try_catch body syncCatch (running st)) as [[o s] t].
  reflexivity.
Qed.

Lemma handleSync_no_enabled (st : State) :
  isSyncing st = false ->
  enabledRemotes (settings st) = [] ->
  handleSync W st =
    (Returned tt,
     set_isSyncing false (with_status (js "同步失败") (running st)),
     [ConsoleError msg_no_enabled;
      Notice (js "同步失败: " ++ msg_no_enabled)]).
Proof.
  intros H He. unfold handleSync. rewrite (handleSyncWith_idle _ st H).
  unfold try_finally, try_catch, syncBody, bind at 1, get.
  rewrite settings_running, He. unfold throw, syncCatch, bind, emit,
    updateStatus, modify, with_status. simpl. reflexivity.
Qed.

Lemma handleSync_completed (st : State) :
  isSyncing st = false ->
  enabledRemotes (settings st) <> [] ->
  exists l st2,
    Runs W (running st) (enabledRemotes (settings st)) l st2 /\
    handleSync W st =
      (Returned tt,
       set_isSyncing false
         (with_status (if forallb success (map fst l)
                       then js "同步成功" else js "同步失败") st2),
       List.concat (map snd l)
         ++ [Notice (completionNotice (overallDurationSec W) (map fst l))]).
Proof.
  intros H He.
  destruct (syncLoop_Runs W (enabledRemotes (settings st)) [] (running st))
    as [l [st2 [HR HL]]].
  exists l, st2. split; [assumption|].
  unfold handleSync. rewrite (handleSyncWith_idle _ st H).
  unfold try_finally, try_catch, syncBody, bind at 1, get.
  rewrite settings_running.
  destruct (enabledRemotes (settings st)) as [|r rs] eqn:E; [congruence|].
  unfold bind at 1. rewrite HL. simpl app.
  unfold bind, updateStatus, modify, emit, with_status. simpl.
  rewrite app_nil_r. reflexivity.
Qed.

End HandleSyncFacts.


(** ** Traces of the loop *)

Section TraceFacts.

Variable W : World.

Lemma spawned_targets_app (t1 t2 : list Event) :
  spawned_targets (t1 ++ t2) = spawned_targets t1 ++ spawned_targets t2.
Proof.
  induction t1 as [|e t1 IH]; simpl; [reflexivity|].
  destruct e; simpl; rewrite IH; reflexivity.
Qed.

Lemma child_events_no_spawn (b : ChildBehaviour) :
  Forall (fun e => is_spawn e = false) (child_events b).
Proof.
  destruct b as [m|chunks code d]; simpl.
  - repeat constructor.
  - apply Forall_app. split; [|repeat constructor].
    induction chunks as [|c chunks IH]; simpl; constructor;
      [destruct c; reflexivity | exact IH].
Qed.

Lemma catch_events_no_spawn (o : outcome jsstring) :
  Forall (fun e => is_spawn e = false) (catch_events o).
Proof. destruct o; simpl; repeat constructor. Qed.

Lemma no_spawn_targets (t : list Event) :
  Forall (fun e => is_spawn e = false) t -> spawned_targets t = [].
Proof.
  induction 1 as [|e t He Ht IH]; simpl; [reflexivity|].
  destruct e; simpl in *; try discriminate; exact IH.
Qed.

Lemma no_spawn_not_In (t : list Event) cmd args sh :
  Forall (fun e => is_spawn e = false) t -> ~ In (Spawn cmd args sh) t.
Proof.
  intros H Hin. rewrite Forall_forall in H. apply H in Hin. discriminate.
Qed.

Lemma sequential_chunks (chunks : list Chunk) (t : list Event) (b : bool) :
  sequential b (map chunk_event chunks ++ t) = sequential b t.
Proof.
  induction chunks as [|c chunks IH]; simpl; [reflexivity|].
  destruct c; simpl; exact IH.
Qed.

Lemma sequential_child (b : ChildBehaviour) (t : list Event) :
  sequential true (child_events b ++ t) = sequential false t.
Proof.
  destruct b as [m|chunks code d]; simpl; [reflexivity|].
  rewrite <- app_assoc, sequential_chunks. reflexivity.
Qed.

Lemma sequential_catch (o : outcome jsstring) (t : list Event) (b : bool) :
  sequential b (catch_events o ++ t) = sequential b t.
Proof. destruct o; reflexivity. Qed.

(** The events of one iteration, whatever the runner did. *)
Lemma iteration_sequential (r : RcloneRemote) (st st1 : State) o t rest :
  runRcloneSync W r st = (o, st1, t) ->
  sequential false ((t ++ catch_events o) ++ rest) = sequential false rest.
Proof.
  intros H.
  destruct (run_cases W r st) as [[m [_ E]] | [v [_ [_ [_ [_ E]]]]]];
    rewrite E in H; inversion H; subst; clear H.
  - simpl. reflexivity.
  - simpl. rewrite <- app_assoc, sequential_child.
    apply sequential_catch.
Qed.

Lemma iteration_targets (r : RcloneRemote) (st st1 : State) o t :
  runRcloneSync W r st = (o, st1, t) ->
  spawned_targets (t ++ catch_events o) =
    if truthy (rclonePath (settings st)) && opt_truthy (getBasePath W)
       && truthy (remoteTarget r)
    then [remoteTarget r] else [].
Proof.
  intros H. rewrite spawned_targets_app.
  rewrite (no_spawn_targets _ (catch_events_no_spawn o)), app_nil_r.
  destruct (list_eq_dec N.eq_dec (rclonePath (settings st)) []) as [Hp|Hp].
  - rewrite (run_no_rclonePath W r st Hp) in H. inversion H; subst.
    rewrite Hp. reflexivity.
  - pose proof Hp as Hp'. apply truthy_true in Hp'. rewrite Hp'. simpl.
    destruct (opt_truthy (getBasePath W)) eqn:Hv.
    + destruct (list_eq_dec N.eq_dec (remoteTarget r) []) as [Ht|Ht].
      * rewrite (run_no_remoteTarget W r st Hp Hv Ht) in H.
        inversion H; subst. rewrite Ht. reflexivity.
      * pose proof Ht as Ht'. apply truthy_true in Ht'. rewrite Ht'. simpl.
        destruct (getBasePath W) as [v|] eqn:Hg; [|discriminate].
        simpl in Hv. apply truthy_true in Hv.
        rewrite (run_spawns W r st v Hp Hg Hv Ht) in H. inversion H; subst.
        simpl. now rewrite (no_spawn_targets _ (child_events_no_spawn _)).
    + rewrite (run_no_vaultPath W r st Hp Hv) in H. inversion H; subst.
      reflexivity.
Qed.

Lemma iteration_spawn_shape (r : RcloneRemote) (st st1 : State) o t
  cmd args sh :
  runRcloneSync W r st = (o, st1, t) ->
  In (Spawn cmd args sh) (t ++ catch_events o) ->
  exists v, getBasePath W = Some v /\ v <> [] /\
            cmd = rclonePath (settings st) /\ cmd <> [] /\
            remoteTarget r <> [] /\
            args = bisync_args v (remoteTarget r) /\ sh = false.
Proof.
  intros H Hin. apply in_app_or in Hin. destruct Hin as [Hin|Hin];
    [| exfalso; revert Hin; apply no_spawn_not_In, catch_events_no_spawn].
  destruct (run_cases W r st) as [[m [_ E]] | [v [Hp [Hg [Hv [Ht E]]]]]];
    rewrite E in H; inversion H; subst; clear H.
  - destruct Hin.
  - destruct Hin as [Heq|Hin].
    + inversion Heq; subst. exists v. repeat split; auto.
    + exfalso. revert Hin. apply no_spawn_not_In, child_events_no_spawn.
Qed.

Lemma Runs_settings st rs l st2 :
  Runs W st rs l st2 -> settings st2 = settings st.
Proof. intros H. apply Runs_frame in H. rewrite H. reflexivity. Qed.

Lemma run_settings (r : RcloneRemote) (st st1 : State) o t :
  runRcloneSync W r st = (o, st1, t) -> settings st1 = settings st.
Proof. intros H. apply run_frame in H. rewrite H. reflexivity. Qed.

Lemma Runs_sequential st rs l st2 (rest : list Event) :
  Runs W st rs l st2 ->
  sequential false (List.concat (map snd l) ++ rest) = sequential false rest.
Proof.
  induction 1 as [st | st r o st1 t rs l st2 Hr HR IH]; simpl.
  - reflexivity.
  - rewrite <- app_assoc. rewrite (iteration_sequential r st _ _ _ _ Hr). exact IH.
Qed.

Lemma Runs_spawned_targets st rs l st2 :
  Runs W st rs l st2 ->
  spawned_targets (List.concat (map snd l)) =
    if truthy (rclonePath (settings st)) && opt_truthy (getBasePath W)
    then filter truthy (map remoteTarget rs) else [].
Proof.
  induction 1 as [st | st r o st1 t rs l st2 Hr HR IH]; simpl.
  - destruct (_ && _); reflexivity.
  - rewrite spawned_targets_app, IH, (iteration_targets r st _ _ _ Hr).
    rewrite (run_settings r st _ _ _ Hr).
    destruct (truthy (rclonePath (settings st)) && opt_truthy (getBasePath W));
      simpl; [|reflexivity].
    destruct (truthy (remoteTarget r)); reflexivity.
Qed.

Lemma Runs_spawn_shape st rs l st2 cmd args sh :
  Runs W st rs l st2 ->
  In (Spawn cmd args sh) (List.concat (map snd l)) ->
  exists r v, In r rs /\ getBasePath W = Some v /\ v <> [] /\
              cmd = rclonePath (settings st) /\ cmd <> [] /\
              remoteTarget r <> [] /\
              args = bisync_args v (remoteTarget r) /\ sh = false.
Proof.
  induction 1 as [st | st r o st1 t rs l st2 Hr HR IH]; simpl.
  - intros [].
  - intros Hin. apply in_app_or in Hin. destruct Hin as [Hin|Hin].
    + destruct (iteration_spawn_shape r st _ _ _ _ _ _ Hr Hin) as [v Hv].
      exists r, v. split; [left; reflexivity | exact Hv].
    + destruct (IH Hin) as [r' [v [Hr' Hrest]]].
      rewrite (run_settings r st _ _ _ Hr) in Hrest.
      exists r', v. split; [right; exact Hr' | exact Hrest].
Qed.

Lemma Runs_no_notice st rs l st2 text :
  Runs W st rs l st2 -> ~ In (Notice text) (List.concat (map snd l)).
Proof.
  induction 1 as [st | st r o st1 t rs l st2 Hr HR IH]; simpl.
  - intros [].
  - intros Hin. apply in_app_or in Hin. destruct Hin as [Hin|Hin];
      [|exact (IH Hin)].
    apply in_app_or in Hin. destruct Hin as [Hin|Hin].
    + destruct (run_cases W r st) as [[m [_ E]] | [v [_ [_ [_ [_ E]]]]]];
        rewrite E in Hr; inversion Hr; subst; clear Hr.
      * destruct Hin.
      * destruct Hin as [Heq|Hin]; [discriminate|].
        destruct (child W _ _ _) as [m|chunks code d]; simpl in Hin.
        -- destruct Hin as [Heq|[]]; discriminate.
        -- apply in_app_or in Hin. destruct Hin as [Hin|[Heq|[]]];
             [|discriminate].
           apply in_map_iff in Hin. destruct Hin as [c [Hc _]].
           destruct c; discriminate.
    + destruct o; simpl in Hin; [destruct Hin|].
      destruct Hin as [Heq|[]]; discriminate.
Qed.

(** Entry [i] of a run is the runner's outcome on target [i], called in the
    starting state up to the number of children spawned before. *)
Lemma Runs_nth st rs l st2 :
  Runs W st rs l st2 ->
  forall i r, nth_error rs i = Some r ->
  exists n o s' t,
    runRcloneSync W r (set_spawned n st) = (o, s', t) /\
    nth_error l i = Some (result_of r o, t ++ catch_events o).
Proof.
  induction 1 as [st | st r o st1 t rs l st2 Hr HR IH]; intros i r' Hi.
  - destruct i; discriminate.
  - destruct i as [|i]; simpl in Hi.
    + inversion Hi; subst. exists (spawned st), o, st1, t.
      split; [|reflexivity].
      replace (set_spawned (spawned st) st) with st by (destruct st; reflexivity).
      exact Hr.
    + destruct (IH i r' Hi) as [n [o' [s' [t' [E Hn]]]]].
      exists n, o', s', t'. split; [|exact Hn].
      apply run_frame in Hr. rewrite Hr in E. exact E.
Qed.

End TraceFacts.
(** ** The children spawned *)

Lemma spawns_app (t1 t2 : list Event) :
  spawns (t1 ++ t2) = spawns t1 ++ spawns t2.
Proof. apply filter_app. Qed.

Lemma spawns_none (t : list Event) :
  Forall (fun e => is_spawn e = false) t -> spawns t = [].
Proof.
  induction 1 as [|e t He _ IH]; simpl; [reflexivity|]. now rewrite He.
Qed.

(** With an executable path and a vault path, the children of a run are
    those of the targets that have an address, one each, in order. *)
Lemma Runs_spawns (W : World) st rs l st2 (v : jsstring) :
  Runs W st rs l st2 ->
  rclonePath (settings st) <> [] -> getBasePath W = Some v -> v <> [] ->
  spawns (List.concat (map snd l))
  = map (fun r => Spawn (rclonePath (settings st))
                    (bisync_args v (remoteTarget r)) false)
      (filter (fun r => truthy (remoteTarget r)) rs).
Proof.
  intros HR. induction HR as [st | st r o st1 t rs l st2 Hr HR IH];
    intros Hp Hg Hv; [reflexivity|].
  cbn [map snd List.concat filter]. rewrite spawns_app, spawns_app.
  rewrite (spawns_none _ (catch_events_no_spawn o)), app_nil_r.
  rewrite IH; rewrite ?(run_settings W r st _ _ _ Hr); auto.
  destruct (list_eq_dec N.eq_dec (remoteTarget r) []) as [Ht|Ht].
  - rewrite run_no_remoteTarget in Hr; auto; [|now rewrite Hg; apply truthy_true].
    inversion Hr; subst. rewrite Ht. reflexivity.
  - rewrite (run_spawns W r st v Hp Hg Hv Ht) in Hr. inversion Hr; subst.
    apply truthy_true in Ht. rewrite Ht. cbn [map spawns filter is_spawn].
    fold (spawns (child_events
                    (child W (spawned st) (rclonePath (settings st))
                       (bisync_args v (remoteTarget r))))).
    now rewrite (spawns_none _ (child_events_no_spawn _)).
Qed.

(** ** Address resolution and the argv of the child *)

(** C4. Remote-address resolution: a path holding [":"] is the address as it
    stands and the name is ignored; a path without [":"] is prefixed with
    the non-empty name and [":"]; with an empty name and no [":"] in the path
    the runner throws at one of its checks, before any spawn and without any
    change of state. *)
Theorem C4_remote_address_resolution :
  (forall r, In colon (path r) -> remoteTarget r = path r)
  /\ (forall r, ~ In colon (path r) -> name r <> [] ->
        remoteTarget r = name r ++ js ":" ++ path r)
  /\ remoteTarget {| name := js "onedrive"; path := js "vault";
                     enable := true |} = js "onedrive:vault"
  /\ remoteTarget {| name := js "onedrive"; path := js "remote:vault";
                     enable := true |} = js "remote:vault"
  /\ (forall W r st,
        name r = [] -> ~ In colon (path r) ->
        exists m, is_precheck_message m /\
                  runRcloneSync W r st = (Thrown m, st, [])).
Proof.
  split.
  { intros r H. apply remoteTarget_delimited. now apply includes_char_In. }
  split.
  { intros r H. apply remoteTarget_prefixed.
    now apply includes_char_not_In. }
  split; [vm_compute; reflexivity|].
  split; [vm_compute; reflexivity|].
  intros W r st Hn Hc. apply includes_char_not_In in Hc.
  assert (Ht : remoteTarget r = []) by (apply remoteTarget_empty_iff; auto).
  destruct (run_cases W r st) as [Hpre | [v [_ [_ [_ [Hne _]]]]]].
  - exact Hpre.
  - contradiction.
Qed.

Lemma C4_witness :
  remoteTarget remote_a = js "a:v"
  /\ remoteTarget remote_c = js "c:y"
  /\ exists m, is_precheck_message m /\
       runRcloneSync sample_world
         {| name := []; path := js "vault"; enable := true |} sample_state
       = (Thrown m, sample_state, []).
Proof.
  destruct C4_remote_address_resolution as [H1 [H2 [_ [_ H5]]]].
  split; [|split].
  - rewrite (H1 remote_a); [reflexivity|]. right. left. reflexivity.
  - rewrite (H2 remote_c); [reflexivity | | discriminate].
    apply includes_char_not_In. reflexivity.
  - apply H5; [reflexivity|]. apply includes_char_not_In. reflexivity.
Defined.

(** C10. With a non-empty name and an empty path the address is the name
    followed by [":"], which is not empty; so, once the executable path and
    the vault path are there, the check on the address passes and the child
    is spawned on that address.  The runner stops at the check on the
    remote address exactly when the two earlier checks pass, the name is
    empty and the path holds no [":"]. *)
Theorem C10_empty_path_edge_case :
  (forall r, name r <> [] -> path r = [] ->
     remoteTarget r = name r ++ js ":" /\ remoteTarget r <> [])
  /\ (forall r, remoteTarget r = [] <->
        name r = [] /\ ~ In colon (path r))
  /\ (forall W r st v,
        rclonePath (settings st) <> [] -> getBasePath W = Some v -> v <> [] ->
        name r <> [] -> path r = [] ->
        exists o evs,
          runRcloneSync W r st =
            (o, set_spawned (S (spawned st)) st,
             Spawn (rclonePath (settings st))
               [js "bisync"; v; name r ++ js ":"; js "--verbose";
                js "--resync"] false :: evs))
  /\ (forall W r st,
        runRcloneSync W r st = (Thrown msg_no_remoteTarget, st, [])
        <-> rclonePath (settings st) <> []
            /\ opt_truthy (getBasePath W) = true
            /\ name r = [] /\ ~ In colon (path r)).
Proof.
  assert (Haddr : forall r, name r <> [] -> path r = [] ->
            remoteTarget r = name r ++ js ":" /\ remoteTarget r <> []).
  { intros r Hn Hpath.
    assert (Ht : remoteTarget r = name r ++ js ":").
    { rewrite remoteTarget_prefixed; [| rewrite Hpath; reflexivity | exact Hn].
      rewrite Hpath. reflexivity. }
    split; [exact Ht|]. rewrite Ht. destruct (name r); discriminate. }
  assert (Hempty : forall r, remoteTarget r = [] <->
            name r = [] /\ ~ In colon (path r)).
  { intros r. rewrite remoteTarget_empty_iff, includes_char_not_In.
    reflexivity. }
  split; [exact Haddr|]. split; [exact Hempty|]. split.
  - intros W r st v Hp Hv Hv' Hn Hpath.
    destruct (Haddr r Hn Hpath) as [Ht Hne].
    pose proof (run_spawns W r st v Hp Hv Hv' Hne) as E. simpl in E.
    rewrite Ht in E. eexists. eexists. exact E.
  - intros W r st. split.
    + intros E.
      destruct (list_eq_dec N.eq_dec (rclonePath (settings st)) []) as [Hp|Hp].
      { rewrite (run_no_rclonePath W r st Hp) in E.
        injection E as E. vm_compute in E. discriminate. }
      destruct (opt_truthy (getBasePath W)) eqn:Hv.
      2:{ rewrite (run_no_vaultPath W r st Hp Hv) in E.
          injection E as E. vm_compute in E. discriminate. }
      split; [exact Hp|]. split; [reflexivity|].
      apply Hempty.
      destruct (list_eq_dec N.eq_dec (remoteTarget r) []) as [Ht|Hne];
        [exact Ht|].
      destruct (getBasePath W) as [v|] eqn:Hg; [|discriminate].
      simpl in Hv. apply truthy_true in Hv.
      pose proof (run_spawns W r st v Hp Hg Hv Hne) as E'. simpl in E'.
      rewrite E in E'. discriminate.
    + intros [Hp [Hv Hn]]. apply run_no_remoteTarget; auto.
      now apply Hempty.
Qed.

Lemma C10_witness :
  remoteTarget {| name := js "onedrive"; path := []; enable := true |}
  = js "onedrive:" /\
  exists o evs,
    runRcloneSync sample_world
      {| name := js "onedrive"; path := []; enable := true |} sample_state
    = (o, set_spawned 1 sample_state,
       Spawn (js "/usr/bin/rclone")
         [js "bisync"; js "/home/me/vault"; js "onedrive:"; js "--verbose";
          js "--resync"] false :: evs).
Proof.
  destruct C10_empty_path_edge_case as [H1 [_ [H3 _]]].
  split.
  - apply (H1 {| name := js "onedrive"; path := []; enable := true |});
      [discriminate | reflexivity].
  - apply (H3 sample_world
              {| name := js "onedrive"; path := []; enable := true |}
              sample_state (js "/home/me/vault"));
      [discriminate | reflexivity | discriminate | discriminate | reflexivity].
Defined.

(** C8. Every run of a target that passes the three checks spawns one
    child and no other: the command is the configured executable path, the
    argv is ["bisync", vault path, remote address, "--verbose", "--resync"]
    in this order, and the [shell] option is [false], so the arguments reach
    the child as an array, never through a shell.  In a whole run of
    [handleSync] the children spawned are exactly these, one for each
    enabled target that has an address, in order.  No [Spawn] of any other
    shape ever occurs. *)
Theorem C8_spawn_argv (W : World) :
  (forall r st v,
     rclonePath (settings st) <> [] -> getBasePath W = Some v -> v <> [] ->
     remoteTarget r <> [] ->
     exists evs,
       snd (runRcloneSync W r st)
       = Spawn (rclonePath (settings st))
           [js "bisync"; v; remoteTarget r; js "--verbose"; js "--resync"]
           false :: evs
       /\ Forall (fun e => is_spawn e = false) evs)
  /\ (forall st v,
        isSyncing st = false ->
        rclonePath (settings st) <> [] -> getBasePath W = Some v ->
        v <> [] ->
        spawns (snd (handleSync W st))
        = map (fun r =>
                 Spawn (rclonePath (settings st))
                   [js "bisync"; v; remoteTarget r; js "--verbose";
                    js "--resync"] false)
            (filter (fun r => truthy (remoteTarget r))
               (enabledRemotes (settings st))))
  /\ (forall r st o st1 t cmd args sh,
        runRcloneSync W r st = (o, st1, t) ->
        In (Spawn cmd args sh) t ->
        exists v, getBasePath W = Some v /\
                  cmd = rclonePath (settings st) /\
                  args = [js "bisync"; v; remoteTarget r;
                          js "--verbose"; js "--resync"] /\
                  sh = false)
  /\ (forall st cmd args sh,
        In (Spawn cmd args sh) (snd (handleSync W st)) ->
        exists r v, In r (enabledRemotes (settings st)) /\
                    getBasePath W = Some v /\
                    cmd = rclonePath (settings st) /\
                    args = [js "bisync"; v; remoteTarget r;
                            js "--verbose"; js "--resync"] /\
                    sh = false).
Proof.
  split; [|split; [|split]].
  - intros r st v Hp Hg Hv Ht.
    rewrite (run_spawns W r st v Hp Hg Hv Ht). cbn [snd].
    eexists. split; [reflexivity | apply child_events_no_spawn].
  - intros st v Hs Hp Hg Hv.
    destruct (enabledRemotes (settings st)) as [|r0 rs] eqn:He.
    + rewrite (handleSync_no_enabled W st Hs He). reflexivity.
    + assert (Hne : enabledRemotes (settings st) <> [])
        by (rewrite He; discriminate).
      destruct (handleSync_completed W st Hs Hne) as [l [st2 [HR E]]].
      rewrite <- He, E. cbn [snd]. rewrite spawns_app.
      match goal with
      | |- context [spawns [Notice ?x]] =>
          change (spawns [Notice x]) with (@nil Event)
      end.
      rewrite app_nil_r.
      rewrite (Runs_spawns W _ _ _ _ v HR);
        rewrite ?settings_running; auto.
  - intros r st o st1 t cmd args sh H Hin.
    destruct (iteration_spawn_shape W r st st1 o t cmd args sh H)
      as [v [Hg [_ [Hc [_ [_ [Ha Hs]]]]]]].
    + apply in_or_app. left. exact Hin.
    + exists v. auto.
  - intros st cmd args sh Hin.
    destruct (isSyncing st) eqn:Hs.
    + rewrite (handleSync_busy W st Hs) in Hin. simpl in Hin.
      destruct Hin as [Heq|[]]. discriminate.
    + destruct (enabledRemotes (settings st)) as [|r0 rs] eqn:He.
      * rewrite (handleSync_no_enabled W st Hs He) in Hin. simpl in Hin.
        destruct Hin as [Heq|[Heq|[]]]; discriminate.
      * assert (Hne : enabledRemotes (settings st) <> [])
          by (rewrite He; discriminate).
        destruct (handleSync_completed W st Hs Hne) as [l [st2 [HR E]]].
        rewrite E in Hin. simpl in Hin. apply in_app_or in Hin.
        destruct Hin as [Hin|[Heq|[]]]; [|discriminate].
        destruct (Runs_spawn_shape W _ _ _ _ cmd args sh HR Hin)
          as [r [v [Hr [Hg [_ [Hc [_ [_ [Ha Hsh]]]]]]]]].
        rewrite settings_running in Hc. rewrite <- He.
        exists r, v. auto.
Qed.

Lemma C8_witness :
  (exists evs,
     snd (runRcloneSync sample_world remote_c sample_state)
     = Spawn (js "/usr/bin/rclone")
         [js "bisync"; js "/home/me/vault"; js "c:y"; js "--verbose";
          js "--resync"] false :: evs
     /\ Forall (fun e => is_spawn e = false) evs)
  /\ spawns (snd (handleSync sample_world sample_state))
     = [ Spawn (js "/usr/bin/rclone")
           [js "bisync"; js "/home/me/vault"; js "a:v"; js "--verbose";
            js "--resync"] false;
         Spawn (js "/usr/bin/rclone")
           [js "bisync"; js "/home/me/vault"; js "c:y"; js "--verbose";
            js "--resync"] false ].
Proof.
  destruct (C8_spawn_argv sample_world) as [H1 [H2 _]].
  split.
  - apply (H1 remote_c sample_state (js "/home/me/vault"));
      [discriminate | reflexivity | discriminate | discriminate].
  - rewrite (H2 sample_state (js "/home/me/vault"));
      [reflexivity | reflexivity | discriminate | reflexivity | discriminate].
Defined.

(** ** The batch *)

Lemma join_In (sep p : jsstring) (parts : list jsstring) :
  In p parts -> exists pre post, join sep parts = pre ++ p ++ post.
Proof.
  induction parts as [|q parts IH]; intros Hin; [destruct Hin|].
  destruct Hin as [Heq|Hin].
  - subst q. exists []. destruct parts as [|q' parts'].
    + exists []. simpl. now rewrite app_nil_r.
    + exists (sep ++ join sep (q' :: parts')). reflexivity.
  - destruct (IH Hin) as [pre [post E]].
    destruct parts as [|q' parts']; [destruct Hin|].
    exists (q ++ sep ++ pre), post.
    change (join sep (q :: q' :: parts'))
      with (q ++ sep ++ join sep (q' :: parts')).
    rewrite E. now rewrite <- !app_assoc.
Qed.

Lemma join_head (sep : jsstring) (c : char) (p : jsstring)
  (parts : list jsstring) :
  exists rest, join sep ((c :: p) :: parts) = c :: rest.
Proof.
  destruct parts as [|q parts].
  - exists p. reflexivity.
  - exists (p ++ sep ++ join sep (q :: parts)). reflexivity.
Qed.

Lemma forallb_success (results : list SyncResult) :
  forallb success results = true <->
  Forall (fun x => success x = true) results.
Proof.
  rewrite forallb_forall, Forall_forall. reflexivity.
Qed.

Lemma not_all_success (results : list SyncResult) :
  forallb success results = false <->
  Exists (fun x => success x = false) results.
Proof.
  induction results as [|x xs IH]; simpl.
  - split; [discriminate | intros H; inversion H].
  - destruct (success x) eqn:Hx; simpl.
    + rewrite IH. split; intros H.
      * now apply Exists_cons_tl.
      * inversion H; subst; [congruence | assumption].
    + split; [intros _; now apply Exists_cons_hd | reflexivity].
Qed.

(** C1. Failure isolation: in a run over the enabled targets, the runner is
    called on every one of them, whatever the earlier calls did; what it
    throws (the spawn error, or the error built from a non-zero exit code) is
    caught in the loop and recorded as a failed result whose summary carries
    the message; each recorded result is the outcome of the runner on its own
    target; [handleSync] itself returns normally and ends with the
    completion notice. *)
Theorem C1_failure_isolation (W : World) (st : State) :
  isSyncing st = false ->
  enabledRemotes (settings st) <> [] ->
  exists l st2,
    Runs W (running st) (enabledRemotes (settings st)) l st2
    /\ fst (fst (handleSync W st)) = Returned tt
    /\ snd (handleSync W st) =
         List.concat (map snd l)
           ++ [Notice (completionNotice (overallDurationSec W) (map fst l))]
    /\ List.length l = List.length (enabledRemotes (settings st))
    /\ (forall i r,
          nth_error (enabledRemotes (settings st)) i = Some r ->
          exists n o s' t,
            runRcloneSync W r (set_spawned n (running st)) = (o, s', t)
            /\ nth_error l i = Some (result_of r o, t ++ catch_events o)
            /\ match o with
               | Returned s =>
                   result_of r o =
                     {| remote := r; success := true; summary := s |}
               | Thrown m =>
                   result_of r o =
                     {| remote := r; success := false;
                        summary := js "失败: " ++ m |}
                   /\ In (ConsoleError m) (t ++ catch_events o)
               end)
    /\ (forall r s v m,
          rclonePath (settings s) <> [] -> getBasePath W = Some v ->
          v <> [] -> remoteTarget r <> [] ->
          child W (spawned s) (rclonePath (settings s))
            (bisync_args v (remoteTarget r)) = EmitsError m ->
          fst (fst (runRcloneSync W r s)) = Thrown m)
    /\ (forall r s v chunks code d,
          rclonePath (settings s) <> [] -> getBasePath W = Some v ->
          v <> [] -> remoteTarget r <> [] ->
          child W (spawned s) (rclonePath (settings s))
            (bisync_args v (remoteTarget r)) = Closes chunks code d ->
          code_is_zero code = false ->
          fst (fst (runRcloneSync W r s)) =
            Thrown (exit_message code (stdout_of chunks) (stderr_of chunks))).
Proof.
  intros Hs Hne.
  destruct (handleSync_completed W st Hs Hne) as [l [st2 [HR E]]].
  exists l, st2. rewrite E. simpl.
  split; [exact HR|]. split; [reflexivity|]. split; [reflexivity|].
  split; [exact (Runs_length W _ _ _ _ HR)|]. split; [|split].
  - intros i r Hi.
    destruct (Runs_nth W _ _ _ _ HR i r Hi) as [n [o [s' [t [Hrun Hn]]]]].
    exists n, o, s', t. split; [exact Hrun|]. split; [exact Hn|].
    destruct o as [s|m]; simpl; [reflexivity|].
    split; [reflexivity|]. apply in_or_app. right. left. reflexivity.
  - intros r s v m Hp Hg Hv Ht Hc.
    rewrite (run_spawns W r s v Hp Hg Hv Ht). simpl. rewrite Hc. reflexivity.
  - intros r s v chunks code d Hp Hg Hv Ht Hc Hz.
    rewrite (run_spawns W r s v Hp Hg Hv Ht). simpl. rewrite Hc. simpl.
    rewrite Hz. reflexivity.
Qed.

Lemma C1_witness :
  fst (fst (handleSync sample_world sample_state)) = Returned tt.
Proof.
  destruct (C1_failure_isolation sample_world sample_state)
    as [l [st2 [_ [H _]]]]; [reflexivity | discriminate | exact H].
Defined.

(** C6. Sequential order: the runner is called once on each target of the
    snapshot of enabled targets and on no other, in list order, each call
    starting where the previous one ended; the recorded results follow the
    same order; in the trace, no child is spawned before the previous child
    has ended, and the children are spawned in list order. *)
Theorem C6_sequential_order (W : World) (st : State) :
  isSyncing st = false ->
  enabledRemotes (settings st) <> [] ->
  exists l st2,
    Runs W (running st) (enabledRemotes (settings st)) l st2
    /\ snd (handleSync W st) =
         List.concat (map snd l)
           ++ [Notice (completionNotice (overallDurationSec W) (map fst l))]
    /\ map (fun x => remote (fst x)) l =
         filter enable
           (match remotes (settings st) with Some rs => rs | None => [] end)
    /\ List.length l =
         List.length
           (filter enable
              (match remotes (settings st) with
               | Some rs => rs | None => [] end))
    /\ sequential false (snd (handleSync W st)) = true
    /\ spawned_targets (snd (handleSync W st)) =
         if truthy (rclonePath (settings st)) && opt_truthy (getBasePath W)
         then filter truthy
                (map remoteTarget
                   (filter enable
                      (match remotes (settings st) with
                       | Some rs => rs | None => [] end)))
         else [].
Proof.
  intros Hs Hne.
  destruct (handleSync_completed W st Hs Hne) as [l [st2 [HR E]]].
  exists l, st2. rewrite E. simpl.
  split; [exact HR|]. split; [reflexivity|].
  split; [exact (Runs_targets W _ _ _ _ HR)|].
  split; [exact (Runs_length W _ _ _ _ HR)|]. split.
  - rewrite (Runs_sequential W _ _ _ _ _ HR). reflexivity.
  - rewrite spawned_targets_app. simpl. rewrite app_nil_r.
    rewrite (Runs_spawned_targets W _ _ _ _ HR), settings_running.
    reflexivity.
Qed.

Lemma C6_witness :
  sequential false (snd (handleSync sample_world sample_state)) = true.
Proof.
  destruct (C6_sequential_order sample_world sample_state)
    as [l [st2 [_ [_ [_ [_ [H _]]]]]]];
    [reflexivity | discriminate | exact H].
Defined.

Lemma resultLine_eq (x : SyncResult) :
  resultLine x
  = match name (remote x) with
    | [] => js "(未命名)"
    | _ :: _ => name (remote x)
    end ++ js ": " ++ summary x.
Proof. unfold resultLine, or_else. destruct (name (remote x)); reflexivity. Qed.

Lemma nth_error_map_fst {A B} (l : list (A * B)) (i : nat) :
  nth_error (map fst l) i = option_map fst (nth_error l i).
Proof.
  revert i. induction l as [|p l IH]; intros [|i]; simpl; auto.
Qed.

(** C7. Overall outcome: when the loop has completed, the status bar shows
    success if and only if every recorded result is a success, and failure
    if and only if at least one is a failure.  The final notice is the
    header line followed by one line per recorded result, in order; the
    line of a result is the name of its target (or "(未命名)" when the name is
    empty), a colon and a space, and the summary of the result.  So every
    attempted target has its line in the notice, also when some failed. *)
Theorem C7_overall_outcome (W : World) (st : State) :
  isSyncing st = false ->
  enabledRemotes (settings st) <> [] ->
  exists l st2 results st' text,
    Runs W (running st) (enabledRemotes (settings st)) l st2
    /\ results = map fst l
    /\ handleSync W st =
         (Returned tt, st', List.concat (map snd l) ++ [Notice text])
    /\ text =
         join [newline]
           ((js "同步完成 (" ++ overallDurationSec W ++ js "s)")
              :: map (fun x =>
                        match name (remote x) with
                        | [] => js "(未命名)"
                        | _ :: _ => name (remote x)
                        end ++ js ": " ++ summary x) results)
    /\ map remote results = enabledRemotes (settings st)
    /\ (forall i r,
          nth_error (enabledRemotes (settings st)) i = Some r ->
          exists x,
            nth_error results i = Some x
            /\ remote x = r
            /\ part_of (match name r with
                        | [] => js "(未命名)"
                        | _ :: _ => name r
                        end ++ js ": " ++ summary x) text)
    /\ (statusBar st <> None ->
          (statusBar st' = Some (js "Rclone: 同步成功")
           <-> Forall (fun x => success x = true) results)
          /\ (statusBar st' = Some (js "Rclone: 同步失败")
              <-> Exists (fun x => success x = false) results)).
Proof.
  intros Hs Hne.
  destruct (handleSync_completed W st Hs Hne) as [l [st2 [HR E]]].
  exists l, st2, (map fst l).
  eexists. eexists. split; [exact HR|]. split; [reflexivity|].
  split; [exact E|].
  assert (Hmap : map remote (map fst l) = enabledRemotes (settings st)).
  { rewrite map_map. exact (Runs_targets W _ _ _ _ HR). }
  split; [|split; [exact Hmap|split]].
  - unfold completionNotice. f_equal. f_equal.
    apply map_ext. exact resultLine_eq.
  - intros i r Hi.
    assert (Hx : exists x, nth_error (map fst l) i = Some x /\ remote x = r).
    { rewrite <- Hmap in Hi. rewrite nth_error_map in Hi.
      destruct (nth_error (map fst l) i) as [x|]; [|discriminate].
      exists x. split; [reflexivity|]. now inversion Hi. }
    destruct Hx as [x [Hx Hr]]. exists x. split; [exact Hx|].
    split; [exact Hr|]. subst r. rewrite <- resultLine_eq.
    unfold completionNotice, part_of. apply join_In. right.
    apply in_map. exact (nth_error_In _ _ Hx).
  - intros Hbar.
    assert (Hb2 : exists b, statusBar st2 = Some b).
    { apply Runs_frame in HR. rewrite HR. simpl. unfold running.
      destruct (statusBar st) as [b|]; [|congruence]. simpl. eauto. }
    destruct Hb2 as [b Hb2]. unfold with_status. rewrite Hb2. simpl.
    rewrite <- forallb_success, <- not_all_success.
    destruct (forallb success (map fst l)); split; split; intros H;
      try reflexivity; try discriminate.
Qed.

Lemma C7_witness :
  exists l st2 results st' text,
    Runs sample_world (running sample_state) [remote_a; remote_c] l st2
    /\ results = map fst l
    /\ map remote results = [remote_a; remote_c]
    /\ snd (handleSync sample_world sample_state)
       = List.concat (map snd l) ++ [Notice text]
    /\ text = js "同步完成 (0.7s)" ++ [newline]
                ++ js "a: 已是最新 (耗时 0.5s)" ++ [newline]
                ++ js "c: 失败: rclone 退出码 1" ++ [newline]
                ++ js "permission denied"
    /\ (exists x, nth_error results 1 = Some x /\ remote x = remote_c
                  /\ part_of (js "c" ++ js ": " ++ summary x) text)
    /\ statusBar st' = Some (js "Rclone: 同步失败")
    /\ Exists (fun x => success x = false) results.
Proof.
  destruct (C7_overall_outcome sample_world sample_state)
    as [l [st2 [results [st' [text [H1 [H2 [H3 [H4 [H5 [H6 H7]]]]]]]]]]];
    [reflexivity | discriminate |].
  exists l, st2, results, st', text.
  split; [exact H1|]. split; [exact H2|]. split; [exact H5|].
  assert (E : snd (handleSync sample_world sample_state)
              = List.concat (map snd l) ++ [Notice text])
    by (rewrite H3; reflexivity).
  split; [exact E|].
  split.
  { assert (E2 : exists pre,
              snd (handleSync sample_world sample_state)
              = pre ++ [Notice (js "同步完成 (0.7s)" ++ [newline]
                                  ++ js "a: 已是最新 (耗时 0.5s)" ++ [newline]
                                  ++ js "c: 失败: rclone 退出码 1" ++ [newline]
                                  ++ js "permission denied")]).
    { eexists (firstn 7 (snd (handleSync sample_world sample_state))).
      vm_compute. reflexivity. }
    destruct E2 as [pre E2]. rewrite E in E2.
    apply app_inj_tail in E2. destruct E2 as [_ E2]. now inversion E2. }
  split; [exact (H6 1 remote_c eq_refl)|].
  assert (Hst : statusBar st' = Some (js "Rclone: 同步失败")).
  { assert (E3 : snd (fst (handleSync sample_world sample_state)) = st')
      by (rewrite H3; reflexivity).
    rewrite <- E3. vm_compute. reflexivity. }
  split; [exact Hst|].
  apply H7; [discriminate | exact Hst].
Defined.

(** C2. Single-flight guard: a request made while [isSyncing] is set does
    nothing but show the notice that a run is in progress, a notice no real
    run ever shows: it spawns nothing and leaves the state as it was.  A
    request made while the guard is free takes the guard before the body of
    the [try] starts: whatever that body is, it runs from a state in which
    [isSyncing] is set and which differs from the state of the request in
    the guard and the status bar only.  So a request made from inside that
    body, or in any state the loop reaches, is refused in the same way.
    The request ends with the guard free again, whatever the body does, be
    it a normal return or an exception thrown from inside the loop; so the
    next request is served. *)
Theorem C2_single_flight (W : World) :
  (forall st, isSyncing st = true ->
     handleSync W st = (Returned tt, st, [Notice msg_already_syncing]))
  /\ (forall st, isSyncing st = false ->
        ~ In (Notice msg_already_syncing) (snd (handleSync W st)))
  /\ (forall body st, isSyncing st = false ->
        isSyncing (snd (fst (handleSyncWith body st))) = false)
  /\ (forall st, isSyncing st = false ->
        isSyncing (snd (fst (handleSync W st))) = false
        /\ ~ In (Notice msg_already_syncing)
               (snd (handleSync W (snd (fst (handleSync W st))))))
  /\ (forall st rs l st2,
        isSyncing st = false ->
        Runs W (running st) rs l st2 ->
        handleSync W st2 = (Returned tt, st2, [Notice msg_already_syncing]))
  /\ handleSync W = handleSyncWith (syncBody W)
  /\ (forall st, isSyncing st = false ->
        exists st1,
          isSyncing st1 = true
          /\ settings st1 = settings st /\ storage st1 = storage st
          /\ spawned st1 = spawned st
          /\ (forall body o st2 t,
                body st1 = (o, st2, t) ->
                exists t', snd (handleSyncWith body st) = t ++ t')
          /\ (forall body st2 t,
                body st1 = (Returned tt, st2, t) ->
                handleSyncWith body st
                = (Returned tt, set_isSyncing false st2, t))
          /\ (forall rs l st2,
                Runs W st1 rs l st2 ->
                isSyncing st2 = true
                /\ handleSync W st2
                   = (Returned tt, st2, [Notice msg_already_syncing]))
          /\ (enabledRemotes (settings st) <> [] ->
              exists l st2,
                Runs W st1 (enabledRemotes (settings st)) l st2
                /\ snd (handleSync W st)
                   = List.concat (map snd l)
                       ++ [Notice (completionNotice (overallDurationSec W)
                                     (map fst l))]))
  /\ (forall st, isSyncing st = false ->
        snd (handleSyncWith (handleSync W) st) = [Notice msg_already_syncing]
        /\ isSyncing (snd (fst (handleSyncWith (handleSync W) st))) = false).
Proof.
  assert (Hdistinct : forall st, isSyncing st = false ->
            ~ In (Notice msg_already_syncing) (snd (handleSync W st))).
  { intros st Hs Hin.
    destruct (enabledRemotes (settings st)) as [|r0 rs] eqn:He.
    - rewrite (handleSync_no_enabled W st Hs He) in Hin. simpl in Hin.
      destruct Hin as [Heq|[Heq|[]]]; [discriminate|].
      inversion Heq.
    - assert (Hne : enabledRemotes (settings st) <> [])
        by (rewrite He; discriminate).
      destruct (handleSync_completed W st Hs Hne) as [l [st2 [HR E]]].
      rewrite E in Hin. simpl in Hin. apply in_app_or in Hin.
      destruct Hin as [Hin|[Heq|[]]].
      + exact (Runs_no_notice W _ _ _ _ _ HR Hin).
      + unfold completionNotice in Heq.
        destruct (join_head [newline] 21516%N
                    (skipn 1 (js "同步完成 (") ++ overallDurationSec W
                       ++ js "s)")
                    (map resultLine (map fst l))) as [rest Hj].
        change (21516%N :: skipn 1 (js "同步完成 (") ++ overallDurationSec W
                  ++ js "s)")
          with (js "同步完成 (" ++ overallDurationSec W ++ js "s)") in Hj.
        rewrite Hj in Heq. inversion Heq. }
  assert (Hnested : forall st, isSyncing st = false ->
            handleSyncWith (handleSync W) st
            = (Returned tt, set_isSyncing false (running st),
               [Notice msg_already_syncing])).
  { intros st Hs. rewrite (handleSyncWith_idle _ st Hs).
    unfold try_finally, try_catch, modify.
    rewrite (handleSync_busy W (running st) (isSyncing_running st)).
    reflexivity. }
  split; [exact (handleSync_busy W)|]. split; [exact Hdistinct|].
  split; [exact handleSyncWith_releases|].
  split.
  { intros st Hs.
    assert (Hfree : isSyncing (snd (fst (handleSync W st))) = false)
      by (apply handleSyncWith_releases; exact Hs).
    split; [exact Hfree | exact (Hdistinct _ Hfree)]. }
  split.
  { intros st rs l st2 Hs HR. apply handleSync_busy.
    apply Runs_frame in HR. rewrite HR. simpl. apply isSyncing_running. }
  split; [reflexivity|].
  split.
  { intros st Hs. exists (running st).
    split; [apply isSyncing_running|].
    split; [apply settings_running|].
    split; [apply storage_running|].
    split; [apply spawned_running|].
    split; [|split; [|split]].
    - intros body o st2 t Hb. rewrite (handleSyncWith_idle body st Hs).
      unfold try_finally, try_catch, modify. rewrite Hb.
      destruct o as [[]|m].
      + exists []. reflexivity.
      + destruct (syncCatch m st2) as [[o' s'] t'] eqn:Ec. cbn [snd].
        exists t'. apply app_nil_r.
    - intros body st2 t Hb. rewrite (handleSyncWith_idle body st Hs).
      unfold try_finally, try_catch, modify. rewrite Hb.
      cbn [fst snd]. now rewrite app_nil_r.
    - intros rs l st2 HR.
      assert (Hg : isSyncing st2 = true).
      { apply Runs_frame in HR. rewrite HR. simpl. apply isSyncing_running. }
      split; [exact Hg | exact (handleSync_busy W st2 Hg)].
    - intros Hne.
      destruct (handleSync_completed W st Hs Hne) as [l [st2 [HR E]]].
      exists l, st2. split; [exact HR|]. rewrite E. reflexivity. }
  intros st Hs. rewrite (Hnested st Hs). split; reflexivity.
Qed.

Lemma C2_witness :
  handleSync sample_world (set_isSyncing true sample_state)
  = (Returned tt, set_isSyncing true sample_state,
     [Notice msg_already_syncing])
  /\ isSyncing (snd (fst (handleSync sample_world sample_state))) = false
  /\ snd (handleSyncWith (handleSync sample_world) sample_state)
     = [Notice msg_already_syncing].
Proof.
  destruct (C2_single_flight sample_world)
    as [H1 [_ [_ [H4 [_ [_ [_ H8]]]]]]].
  split; [|split].
  - apply H1. reflexivity.
  - apply (H4 sample_state). reflexivity.
  - apply (H8 sample_state). reflexivity.
Defined.

(** ** Configuration errors *)

Lemma Runs_no_executable (W : World) st rs l st2 :
  Runs W st rs l st2 ->
  rclonePath (settings st) = [] ->
  l = map (failed_entry msg_no_rclonePath) rs /\ st2 = st.
Proof.
  induction 1 as [st | st r o st1 t rs l st2 Hr HR IH]; intros Hp.
  - split; reflexivity.
  - rewrite (run_no_rclonePath W r st Hp) in Hr. inversion Hr; subst.
    destruct (IH Hp) as [-> ->]. split; reflexivity.
Qed.

Lemma failed_entries_no_spawn (m : jsstring) (rs : list RcloneRemote) :
  spawned_targets (List.concat (map snd (map (failed_entry m) rs))) = [].
Proof. induction rs as [|r rs IH]; simpl; [reflexivity | exact IH]. Qed.

(** Without an executable path the two enabled targets of the sample are
    each recorded as failed and the run ends with the completion notice;
    with one enabled target that has no address and one that has, a child
    is spawned for the latter. *)
Lemma C3_counterexample :
  (isSyncing state_no_executable = false
   /\ config_invalid state_no_executable
   /\ snd (handleSync sample_world state_no_executable) =
        [ ConsoleError msg_no_rclonePath;
          ConsoleError msg_no_rclonePath;
          Notice (js "同步完成 (0.7s)" ++ [newline]
                    ++ js "a: 失败: " ++ msg_no_rclonePath ++ [newline]
                    ++ js "c: 失败: " ++ msg_no_rclonePath) ]
   /\ ~ batch_aborted (handleSync sample_world state_no_executable))
  /\ (isSyncing state_unaddressed_target = false
      /\ config_invalid state_unaddressed_target
      /\ spawned_targets
           (snd (handleSync sample_world state_unaddressed_target))
         = [js "c:y"]).
Proof.
  split.
  - split; [reflexivity|]. split; [left; reflexivity|].
    split; [vm_compute; reflexivity|].
    intros [m H]. vm_compute in H. discriminate.
  - split; [reflexivity|]. split; [|vm_compute; reflexivity].
    right. left. exists {| name := []; path := []; enable := true |}.
    split; [left; reflexivity | reflexivity].
Qed.

(** C3, amended. With no enabled target the run fails as a whole: the
    outer [catch] reports the "enable at least one remote" error, nothing is
    spawned and no target has a result.  With enabled targets the run is
    attempted and ends with the completion notice: without an executable
    path nothing is spawned and every enabled target is recorded as failed
    with that error; an enabled target without a remote address is recorded
    as failed with the error of the check that stopped it and spawns
    nothing, while the other targets are run as usual. *)
Theorem C3_config_errors (W : World) (st : State) :
  isSyncing st = false ->
  (enabledRemotes (settings st) = [] ->
     handleSync W st =
       (Returned tt,
        set_isSyncing false (with_status (js "同步失败") (running st)),
        [ConsoleError msg_no_enabled;
         Notice (js "同步失败: " ++ msg_no_enabled)]))
  /\ (enabledRemotes (settings st) <> [] ->
      exists l st2,
        Runs W (running st) (enabledRemotes (settings st)) l st2
        /\ snd (handleSync W st) =
             List.concat (map snd l)
               ++ [Notice (completionNotice (overallDurationSec W)
                             (map fst l))]
        /\ (rclonePath (settings st) = [] ->
              l = map (failed_entry msg_no_rclonePath)
                    (enabledRemotes (settings st))
              /\ spawned_targets (snd (handleSync W st)) = [])
        /\ (forall i r,
              nth_error (enabledRemotes (settings st)) i = Some r ->
              remoteTarget r = [] ->
              exists m,
                is_precheck_message m
                /\ nth_error l i = Some (failed_entry m r)
                /\ (rclonePath (settings st) <> [] ->
                    opt_truthy (getBasePath W) = true ->
                    m = msg_no_remoteTarget))).
Proof.
  intros Hs. split; [exact (handleSync_no_enabled W st Hs)|].
  intros Hne.
  destruct (handleSync_completed W st Hs Hne) as [l [st2 [HR E]]].
  exists l, st2. rewrite E. simpl.
  split; [exact HR|]. split; [reflexivity|]. split.
  - intros Hp.
    destruct (Runs_no_executable W _ _ _ _ HR) as [Hl _];
      [rewrite settings_running; exact Hp|].
    split; [exact Hl|].
    rewrite spawned_targets_app, Hl, failed_entries_no_spawn. reflexivity.
  - intros i r Hi Ht.
    destruct (Runs_nth W _ _ _ _ HR i r Hi) as [n [o [s' [t [Hrun Hn]]]]].
    destruct (run_cases W r (set_spawned n (running st)))
      as [[m [Hm Em]] | [v [_ [_ [_ [Hcontra _]]]]]]; [|contradiction].
    rewrite Em in Hrun. inversion Hrun; subst.
    exists m. split; [exact Hm|]. split; [exact Hn|].
    intros Hp Hv.
    rewrite (run_no_remoteTarget W r (set_spawned n (running st))) in Em.
    + inversion Em. reflexivity.
    + simpl. rewrite settings_running. exact Hp.
    + exact Hv.
    + exact Ht.
Qed.

Lemma C3_witness :
  handleSync sample_world
    (set_settings DEFAULT_SETTINGS sample_state)
  = (Returned tt,
     set_isSyncing false
       (with_status (js "同步失败")
          (running (set_settings DEFAULT_SETTINGS sample_state))),
     [ConsoleError msg_no_enabled;
      Notice (js "同步失败: " ++ msg_no_enabled)])
  /\ spawned_targets (snd (handleSync sample_world state_no_executable)) = [].
Proof.
  split.
  - destruct (C3_config_errors sample_world
                (set_settings DEFAULT_SETTINGS sample_state)) as [H _];
      [reflexivity|]. apply H. reflexivity.
  - destruct (C3_config_errors sample_world state_no_executable) as [_ H];
      [reflexivity|].
    destruct H as [l [st2 [_ [_ [H _]]]]]; [discriminate|].
    destruct H as [_ H]; [reflexivity | exact H].
Defined.

(** ** Loading the settings *)

Lemma loadSettings_eq (st : State) :
  loadSettings st =
    (Returned tt,
     set_sharesDefault
       (takes_default_remotes (storage st)
        && negb (migrates (storage st)
                   (assign_defaults (defaults_in st) (storage st))))
       (set_settings
          (migrate (storage st)
             (assign_defaults (defaults_in st) (storage st))) st),
     []).
Proof. reflexivity. Qed.

(** In a module that has just been evaluated the defaults are those of the
    source text. *)
Lemma defaults_fresh (st : State) :
  defaultRemotes st = [] -> defaults_in st = DEFAULT_SETTINGS.
Proof. intros H. unfold defaults_in. now rewrite H. Qed.

Lemma settings_loaded (st : State) :
  settings (loaded st)
  = migrate (storage st) (assign_defaults (defaults_in st) (storage st)).
Proof. reflexivity. Qed.

Lemma remotes_empty_assign (defaults : ObsidianRcloneBridgeSettings)
  (data : option StoredData) :
  remotes_empty (assign_defaults defaults data)
  = if takes_default_remotes data then remotes_empty defaults
    else stored_remotes_absent_or_empty data.
Proof.
  destruct data as [d|]; [|reflexivity].
  unfold remotes_empty, stored_remotes_absent_or_empty, takes_default_remotes.
  simpl. destruct (stored_remotes d) as [[[|r rs]|]|]; reflexivity.
Qed.

(** While the array of the defaults is empty wherever it is used, the list
    found by the load is empty exactly when the stored one is absent, [null]
    or empty. *)
Lemma remotes_empty_fresh (st : State) :
  (takes_default_remotes (storage st) = true -> defaultRemotes st = []) ->
  remotes_empty (assign_defaults (defaults_in st) (storage st))
  = stored_remotes_absent_or_empty (storage st).
Proof.
  intros Hf. rewrite remotes_empty_assign.
  destruct (takes_default_remotes (storage st)) eqn:E; [|reflexivity].
  unfold remotes_empty, defaults_in. simpl. rewrite (Hf eq_refl).
  unfold takes_default_remotes in E. unfold stored_remotes_absent_or_empty.
  destruct (storage st) as [d|]; [|reflexivity].
  destruct (stored_remotes d); [discriminate | reflexivity].
Qed.

Lemma migrate_synthesizes (data : option StoredData)
  (s : ObsidianRcloneBridgeSettings) :
  migrates data s = true ->
  remotes (migrate data s) =
    Some [ {| name := opt_or_empty (legacyRemoteName data);
              path := opt_or_empty (legacyRemotePath data);
              enable := true |} ].
Proof. intros H. unfold migrate. now rewrite H. Qed.

Lemma migrate_unless (data : option StoredData)
  (s : ObsidianRcloneBridgeSettings) :
  migrates data s = false -> migrate data s = s.
Proof. intros H. unfold migrate. now rewrite H. Qed.

Lemma migrate_without_legacy (data : option StoredData)
  (s : ObsidianRcloneBridgeSettings) :
  opt_truthy (legacyRemoteName data) || opt_truthy (legacyRemotePath data)
  = false ->
  migrate data s = s.
Proof.
  intros Hl. apply migrate_unless. unfold migrates.
  rewrite Hl. apply andb_false_r.
Qed.

Lemma migrate_nonempty (data : option StoredData)
  (s : ObsidianRcloneBridgeSettings) :
  remotes_empty s = false -> migrate data s = s.
Proof. intros He. apply migrate_unless. unfold migrates. now rewrite He. Qed.

Lemma migrate_remoteName (defaults : ObsidianRcloneBridgeSettings)
  (data : option StoredData) :
  remoteName defaults = None ->
  remoteName (migrate data (assign_defaults defaults data))
  = legacyRemoteName data.
Proof.
  intros Hd. unfold migrate. destruct (migrates _ _); destruct data;
    simpl; congruence.
Qed.

Lemma migrate_remotePath (defaults : ObsidianRcloneBridgeSettings)
  (data : option StoredData) :
  remotePath defaults = None ->
  remotePath (migrate data (assign_defaults defaults data))
  = legacyRemotePath data.
Proof.
  intros Hd. unfold migrate. destruct (migrates _ _); destruct data;
    simpl; congruence.
Qed.

(** What [saveSettings] wrote has every key, so the defaults play no part
    when it is loaded. *)
Lemma assign_to_stored (defaults s : ObsidianRcloneBridgeSettings) :
  assign_defaults defaults (Some (to_stored s)) = s.
Proof. destruct s; reflexivity. Qed.

Lemma takes_default_to_stored (s : ObsidianRcloneBridgeSettings) :
  takes_default_remotes (Some (to_stored s)) = false.
Proof. reflexivity. Qed.

(** The settings loaded from what [saveSettings] wrote. *)
Lemma settings_loaded_saved (st : State) (s : ObsidianRcloneBridgeSettings) :
  storage st = Some (to_stored s) ->
  settings (loaded st) = migrate (Some (to_stored s)) s.
Proof.
  intros H. rewrite settings_loaded, H. now rewrite assign_to_stored.
Qed.

(** Settings produced by a load are not migrated again when they are loaded
    back from what [saveSettings] wrote. *)
Lemma migrate_stable (defaults : ObsidianRcloneBridgeSettings)
  (data : option StoredData) :
  remoteName defaults = None -> remotePath defaults = None ->
  migrate (Some (to_stored (migrate data (assign_defaults defaults data))))
    (migrate data (assign_defaults defaults data))
  = migrate data (assign_defaults defaults data).
Proof.
  intros Hn Hp.
  destruct (migrates data (assign_defaults defaults data)) eqn:Hm.
  - apply migrate_nonempty. unfold migrate. rewrite Hm. reflexivity.
  - rewrite (migrate_unless _ _ Hm). apply migrate_unless.
    unfold migrates in *. apply andb_false_iff in Hm.
    destruct Hm as [Hm|Hm]; [now rewrite Hm|].
    apply andb_false_iff. right. rewrite <- Hm.
    destruct data as [d|]; simpl; [reflexivity|]. now rewrite Hn, Hp.
Qed.

(** The legacy target comes back: settings with an empty list and a legacy
    field that is not empty, once saved, are loaded with the legacy target
    as their only remote. *)
Lemma migrate_again (st : State) (s : ObsidianRcloneBridgeSettings) :
  storage st = Some (to_stored s) ->
  remotes_empty s = true ->
  has_legacy s = true ->
  remotes (settings (loaded st)) = Some [legacy_target s].
Proof.
  intros Hst He Hl. rewrite (settings_loaded_saved st s Hst).
  apply migrate_synthesizes. unfold migrates. rewrite He. exact Hl.
Qed.

(** Three stored configurations that meet the condition of the claim and
    are not migrated as it says.  With both legacy fields present and
    empty, nothing is synthesized.  After a migration, once the user has
    removed the migrated target (which saves the settings), the next load
    synthesizes it again.  And when the storage holds no [remotes] while the
    array of the defaults has been pushed into, the load finds that array
    and synthesizes nothing. *)
Lemma C9_counterexample :
  (stored_remotes legacy_blank = None
   /\ stored_remoteName legacy_blank = Some []
   /\ stored_remotePath legacy_blank = Some []
   /\ defaultRemotes sample_state = []
   /\ remotes (settings (loaded (set_storage (Some legacy_blank)
                                   sample_state)))
      = Some []
   /\ remotes (settings (loaded (set_storage (Some legacy_blank)
                                   sample_state)))
      <> Some [ {| name := []; path := []; enable := true |} ])
  /\ (remotes (settings state_migrated) = Some [legacy_onedrive_target]
      /\ remotes (settings (state_after (trash_onClick 0 state_migrated)))
         = Some []
      /\ storage (state_after (trash_onClick 0 state_migrated))
         = Some {| stored_rclonePath := Some (js "/usr/bin/rclone");
                   stored_remotes := Some (Some []);
                   stored_remoteName := Some (js "onedrive");
                   stored_remotePath := Some (js "vault") |}
      /\ remotes (settings (loaded (state_after
                                      (trash_onClick 0 state_migrated))))
         = Some [legacy_onedrive_target])
  /\ (storage state_default_pushed = Some legacy_onedrive
      /\ stored_remotes legacy_onedrive = None
      /\ defaultRemotes state_default_pushed = [blank_remote]
      /\ remotes (settings (loaded state_default_pushed))
         = Some [blank_remote]
      /\ remotes (settings (loaded state_default_pushed))
         <> Some [legacy_onedrive_target]).
Proof.
  repeat split; try reflexivity; intros H; vm_compute in H; discriminate.
Qed.

(** C9, amended.  Loading the settings only reads the storage.  When the
    list found by the load is empty (the stored [remotes] is [null] or
    empty, or it is absent and the array of the defaults is still empty)
    and at least one of the legacy fields [remoteName], [remotePath] is a
    non-empty string, the loaded [remotes] is the single enabled target made
    of the two fields, an absent or empty field counting as the empty
    string.  When both legacy fields are absent or empty nothing is
    synthesized; a non-empty stored [remotes] is loaded as it is.  The
    legacy fields stay on the settings object, so a later save writes them
    back, and loading what was saved right after a load gives the same
    settings.  The migration is not recorded: once the migrated target has
    been removed and the settings saved, the next load synthesizes it
    again. *)
Theorem C9_legacy_migration (st : State) :
  exists s',
    fst (fst (loadSettings st)) = Returned tt
    /\ snd (loadSettings st) = []
    /\ loaded st = set_sharesDefault (sharesDefault (loaded st))
                     (set_settings s' st)
    /\ storage (loaded st) = storage st
    /\ defaultRemotes (loaded st) = defaultRemotes st
    /\ (stored_remotes_absent_or_empty (storage st) = true ->
        (takes_default_remotes (storage st) = true ->
         defaultRemotes st = []) ->
        opt_truthy (legacyRemoteName (storage st))
        || opt_truthy (legacyRemotePath (storage st)) = true ->
        remotes s' =
          Some [ {| name := opt_or_empty (legacyRemoteName (storage st));
                    path := opt_or_empty (legacyRemotePath (storage st));
                    enable := true |} ]
        /\ remotes (settings (state_after (trash_onClick 0 (loaded st))))
           = Some []
        /\ remotes (settings (loaded (state_after
                                        (trash_onClick 0 (loaded st)))))
           = Some [ {| name := opt_or_empty (legacyRemoteName (storage st));
                       path := opt_or_empty (legacyRemotePath (storage st));
                       enable := true |} ])
    /\ (opt_truthy (legacyRemoteName (storage st))
        || opt_truthy (legacyRemotePath (storage st)) = false ->
        s' = assign_defaults (defaults_in st) (storage st))
    /\ (forall d r rs,
          storage st = Some d ->
          stored_remotes d = Some (Some (r :: rs)) ->
          remotes s' = Some (r :: rs))
    /\ remoteName s' = legacyRemoteName (storage st)
    /\ remotePath s' = legacyRemotePath (storage st)
    /\ stored_remoteName (to_stored s') = legacyRemoteName (storage st)
    /\ stored_remotePath (to_stored s') = legacyRemotePath (storage st)
    /\ settings (loaded (state_after (saveSettings (loaded st)))) = s'.
Proof.
  exists (migrate (storage st) (assign_defaults (defaults_in st) (storage st))).
  split; [reflexivity|]. split; [reflexivity|]. split; [reflexivity|].
  split; [reflexivity|]. split; [reflexivity|]. split.
  { intros He Hf Hl.
    assert (Hm : migrates (storage st) (assign_defaults (defaults_in st) (storage st)) = true).
    { unfold migrates.
      rewrite (remotes_empty_fresh st Hf), He. exact Hl. }
    pose proof (migrate_synthesizes (storage st) (assign_defaults (defaults_in st) (storage st)) Hm) as Hs.
    split; [exact Hs|].
    assert (Hr : remotes (settings (loaded st))
                 = Some [ {| name := opt_or_empty (legacyRemoteName (storage st));
                             path := opt_or_empty (legacyRemotePath (storage st));
                             enable := true |} ]) by exact Hs.
    assert (Hsh : sharesDefault (loaded st) = false).
    { change (takes_default_remotes (storage st) && negb (migrates (storage st) (assign_defaults (defaults_in st) (storage st)))
              = false). rewrite Hm. apply andb_false_r. }
    unfold trash_onClick, bind, get, modify, saveSettings, state_after.
    cbn [fst snd]. rewrite Hr. cbn [fst snd splice1].
    unfold in_place. rewrite Hsh. cbn [fst snd settings remotes with_remotes
                                        set_settings].
    split; [reflexivity|].
    match goal with
    | |- remotes (settings (loaded ?x)) = _ =>
        rewrite (migrate_again x
                   (with_remotes (Some []) (settings (loaded st))))
    end.
    - unfold legacy_target. cbn [remoteName remotePath with_remotes].
      change (settings (loaded st)) with (migrate (storage st) (assign_defaults (defaults_in st) (storage st))).
      rewrite (migrate_remoteName (defaults_in st) (storage st) eq_refl).
      rewrite (migrate_remotePath (defaults_in st) (storage st) eq_refl).
      reflexivity.
    - reflexivity.
    - reflexivity.
    - unfold has_legacy. cbn [remoteName remotePath with_remotes].
      change (settings (loaded st)) with (migrate (storage st) (assign_defaults (defaults_in st) (storage st))).
      rewrite (migrate_remoteName (defaults_in st) (storage st) eq_refl).
      rewrite (migrate_remotePath (defaults_in st) (storage st) eq_refl).
      exact Hl. }
  split; [intros H; now apply migrate_without_legacy|].
  split.
  { intros d r rs Hd Hr. rewrite migrate_nonempty; 
      rewrite Hd; simpl; rewrite Hr; reflexivity. }
  split; [exact (migrate_remoteName (defaults_in st) (storage st) eq_refl)|].
  split; [exact (migrate_remotePath (defaults_in st) (storage st) eq_refl)|].
  split; [exact (migrate_remoteName (defaults_in st) (storage st) eq_refl)|].
  split; [exact (migrate_remotePath (defaults_in st) (storage st) eq_refl)|].
  rewrite (settings_loaded_saved
             (state_after (saveSettings (loaded st)))
             (migrate (storage st)
                (assign_defaults (defaults_in st) (storage st))) eq_refl).
  apply (migrate_stable (defaults_in st) (storage st)); reflexivity.
Qed.

Lemma C9_witness :
  remotes (settings (loaded (set_storage (Some legacy_onedrive) sample_state)))
  = Some [ {| name := js "onedrive"; path := js "vault"; enable := true |} ]
  /\ remotes (settings
                (loaded (state_after
                           (trash_onClick 0
                              (loaded (set_storage (Some legacy_onedrive)
                                         sample_state))))))
     = Some [ {| name := js "onedrive"; path := js "vault"; enable := true |} ].
Proof.
  destruct (C9_legacy_migration
              (set_storage (Some legacy_onedrive) sample_state))
    as [s' [_ [_ [E [_ [_ [H _]]]]]]].
  destruct H as [H1 [_ H3]]; [reflexivity | reflexivity | reflexivity |].
  split; [|exact H3].
  rewrite E. exact H1.
Defined.

(** ** The matcher against the words of a pattern *)

Lemma firstn_consumed (w s' : jsstring) :
  firstn (List.length (w ++ s') - List.length s') (w ++ s') = w.
Proof.
  rewrite length_app, Nat.add_sub, firstn_app, firstn_all, Nat.sub_diag.
  simpl. apply app_nil_r.
Qed.

Section MatcherFacts.

Variable R : Type.

Lemma first_of_Some (x y : option R) (z : R) :
  first_of x y = Some z -> x = Some z \/ y = Some z.
Proof. destruct x; simpl; auto. Qed.

Lemma first_of_not_None_l (x y : option R) :
  x <> None -> first_of x y <> None.
Proof. destruct x; simpl; congruence. Qed.

Lemma first_of_not_None_r (x y : option R) :
  y <> None -> first_of x y <> None.
Proof. destruct x; simpl; congruence. Qed.

Lemma one_m_sound (a : atom) (s : jsstring) (caps : captures) (k : cont R)
  (x : R) :
  one_m a s caps k = Some x ->
  exists c s', s = c :: s' /\ atom_matches a c = true /\ k s' caps = Some x.
Proof.
  destruct s as [|c s']; simpl; [discriminate|].
  destruct (atom_matches a c) eqn:Hc; [|discriminate].
  intros H. exists c, s'. auto.
Qed.

Lemma star_m_sound (a : atom) (caps : captures) (k : cont R) (x : R) :
  forall s,
  star_m a s caps k = Some x ->
  exists w s', s = w ++ s' /\ all_match a w /\ k s' caps = Some x.
Proof.
  induction s as [|c s IH]; simpl; intros H.
  - exists [], []. repeat split; [constructor | exact H].
  - destruct (atom_matches a c) eqn:Hc.
    + apply first_of_Some in H. destruct H as [H|H].
      * destruct (IH H) as [w [s' [E [Hw Hk]]]].
        exists (c :: w), s'. subst s. repeat split; [|exact Hk].
        constructor; assumption.
      * exists [], (c :: s). repeat split; [constructor | exact H].
    + exists [], (c :: s). repeat split; [constructor | exact H].
Qed.

Lemma star_m_fallback (a : atom) (caps : captures) (k : cont R) :
  forall s, k s caps <> None -> star_m a s caps k <> None.
Proof.
  destruct s as [|c s]; simpl; intros H; [exact H|].
  destruct (atom_matches a c); [|exact H].
  now apply first_of_not_None_r.
Qed.

Lemma star_m_complete (a : atom) (caps : captures) (k : cont R)
  (s' : jsstring) :
  forall w, all_match a w -> k s' caps <> None ->
  star_m a (w ++ s') caps k <> None.
Proof.
  induction w as [|c w IH]; simpl; intros Hw Hk.
  - now apply star_m_fallback.
  - inversion Hw as [|? ? Hc Hw']; subst. rewrite Hc.
    apply first_of_not_None_l. now apply IH.
Qed.

Variable P : nat -> jsstring -> Prop.

(** A successful match consumed a word of the pattern and handed the rest
    to the continuation, with captures that are words of their groups. *)
Lemma rmatch_sound (r : regex) :
  groups_ok P r ->
  forall (s : jsstring) (caps : captures) (k : cont R) (x : R),
  caps_ok P caps ->
  rmatch r s caps k = Some x ->
  exists w s' caps',
    s = w ++ s' /\ lang r w /\ caps_ok P caps' /\ k s' caps' = Some x.
Proof.
  induction r as [|a|a|a|a|r1 IH1 r2 IH2|r1 IH1 r2 IH2|i r1 IH1];
    intros Hg s caps k x Hc H; simpl in H.
  - exists [], s, caps. repeat split; assumption.
  - apply one_m_sound in H. destruct H as [c [s' [E [Hm Hk]]]].
    exists [c], s', caps. subst s. repeat split; try assumption.
    exists c. auto.
  - apply star_m_sound in H. destruct H as [w [s' [E [Hw Hk]]]].
    exists w, s', caps. repeat split; assumption.
  - apply one_m_sound in H. destruct H as [c [s1 [E [Hm Hk]]]].
    apply star_m_sound in Hk. destruct Hk as [w [s' [E' [Hw Hk]]]].
    exists (c :: w), s', caps. subst s s1. repeat split; try assumption.
    + discriminate.
    + constructor; assumption.
  - apply first_of_Some in H. destruct H as [H|H].
    + apply one_m_sound in H. destruct H as [c [s' [E [Hm Hk]]]].
      exists [c], s', caps. subst s. repeat split; try assumption.
      right. exists c. auto.
    + exists [], s, caps. repeat split; try assumption. now left.
  - destruct Hg as [Hg1 Hg2].
    destruct (IH1 Hg1 _ _ _ _ Hc H) as [w1 [s1 [c1 [E1 [L1 [Hc1 H1]]]]]].
    destruct (IH2 Hg2 _ _ _ _ Hc1 H1) as [w2 [s2 [c2 [E2 [L2 [Hc2 H2]]]]]].
    exists (w1 ++ w2), s2, c2. subst s s1.
    repeat split; try assumption; [now rewrite app_assoc|].
    exists w1, w2. auto.
  - destruct Hg as [Hg1 Hg2]. apply first_of_Some in H. destruct H as [H|H].
    + destruct (IH1 Hg1 _ _ _ _ Hc H) as [w [s' [c' [E [L [Hc' H']]]]]].
      exists w, s', c'. repeat split; try assumption. now left.
    + destruct (IH2 Hg2 _ _ _ _ Hc H) as [w [s' [c' [E [L [Hc' H']]]]]].
      exists w, s', c'. repeat split; try assumption. now right.
  - destruct Hg as [Hg1 HP].
    destruct (IH1 Hg1 _ _ _ _ Hc H) as [w [s' [c' [E [L [Hc' H']]]]]].
    subst s. rewrite firstn_consumed in H'.
    exists w, s', ((i, w) :: c'). repeat split; try assumption.
    constructor; [apply HP; exact L | exact Hc'].
Qed.

(** A word of the pattern in front of the input is matched, provided the
    continuation accepts what follows it. *)
Lemma rmatch_complete (r : regex) :
  forall (w s' : jsstring) (caps : captures) (k : cont R),
  lang r w ->
  (forall c, k s' c <> None) ->
  rmatch r (w ++ s') caps k <> None.
Proof.
  induction r as [|a|a|a|a|r1 IH1 r2 IH2|r1 IH1 r2 IH2|i r1 IH1];
    intros w s' caps k L Hk; simpl in L; simpl.
  - subst w. apply Hk.
  - destruct L as [c [-> Hc]]. simpl. rewrite Hc. apply Hk.
  - apply star_m_complete; [exact L | apply Hk].
  - destruct L as [Hne Hw]. destruct w as [|c w]; [congruence|].
    inversion Hw as [|? ? Hc Hw']; subst. simpl. rewrite Hc.
    apply star_m_complete; [exact Hw' | apply Hk].
  - destruct L as [->|[c [-> Hc]]].
    + apply first_of_not_None_r. apply Hk.
    + apply first_of_not_None_l. simpl. rewrite Hc. apply Hk.
  - destruct L as [w1 [w2 [-> [L1 L2]]]]. rewrite <- app_assoc.
    apply IH1; [exact L1|]. intros c. apply IH2; [exact L2 | exact Hk].
  - destruct L as [L|L].
    + apply first_of_not_None_l. now apply IH1.
    + apply first_of_not_None_r. now apply IH2.
  - apply IH1; [exact L|]. intros c. apply Hk.
Qed.

End MatcherFacts.

Lemma groups_ok_True (r : regex) : groups_ok (fun _ _ => True) r.
Proof. induction r; simpl; auto. Qed.

Lemma exec_sound (P : nat -> jsstring -> Prop) (r : regex) :
  groups_ok P r ->
  forall s caps,
  exec r s = Some caps -> occurs_in (lang r) s /\ caps_ok P caps.
Proof.
  intros Hg. induction s as [|c s IH]; intros caps H; simpl in H.
  - destruct (rmatch r [] [] (fun _ c => Some c)) as [c0|] eqn:Hm;
      [|discriminate].
    inversion H; subst.
    destruct (rmatch_sound _ P r Hg [] [] _ caps (Forall_nil _) Hm)
      as [w [s' [c' [E [L [Hc Hk]]]]]].
    inversion Hk; subst. split; [|exact Hc].
    exists [], w, s'. auto.
  - destruct (rmatch r (c :: s) [] (fun _ c => Some c)) as [c0|] eqn:Hm.
    + inversion H; subst.
      destruct (rmatch_sound _ P r Hg (c :: s) [] _ caps (Forall_nil _) Hm)
        as [w [s' [c' [E [L [Hc Hk]]]]]].
      inversion Hk; subst. split; [|exact Hc].
      exists [], w, s'. auto.
    + destruct (IH caps H) as [[pre [w [post [E L]]]] Hc].
      split; [|exact Hc]. exists (c :: pre), w, post. subst s. auto.
Qed.

Lemma exec_complete (r : regex) (s : jsstring) :
  occurs_in (lang r) s -> exec r s <> None.
Proof.
  intros [pre [w [post [E L]]]]. subst s.
  induction pre as [|c pre IH].
  - simpl app.
    assert (Hm : rmatch r (w ++ post) [] (fun _ c => Some c) <> None).
    { apply rmatch_complete; [exact L | discriminate]. }
    destruct (w ++ post); simpl;
      destruct (rmatch r _ [] (fun _ c => Some c)); congruence.
  - simpl. destruct (rmatch r _ [] (fun _ c => Some c));
      [discriminate | exact IH].
Qed.

Lemma test_occurs (r : regex) (s : jsstring) :
  test r s = true <-> occurs_in (lang r) s.
Proof.
  unfold test. split.
  - destruct (exec r s) as [caps|] eqn:E; [|discriminate]. intros _.
    exact (proj1 (exec_sound (fun _ _ => True) r (groups_ok_True r) s caps E)).
  - intros H. apply exec_complete in H. destruct (exec r s); congruence.
Qed.

(** ** The four patterns *)

Lemma lit_matches (p c : char) :
  atom_matches (Lit p) c = true <-> canon c = canon p.
Proof. simpl. unfold char_eqb. apply N.eqb_eq. Qed.

Lemma lang_word (p : jsstring) :
  forall w, lang (word p) w <-> same_letters w p.
Proof.
  unfold same_letters.
  induction p as [|c p IH]; intros w; simpl.
  - split.
    + intros ->. reflexivity.
    + destruct w; [reflexivity | discriminate].
  - split.
    + intros [w1 [w2 [-> [[c0 [-> Hc]] L]]]]. simpl.
      apply lit_matches in Hc. apply IH in L. now rewrite Hc, L.
    + destruct w as [|c0 w]; [discriminate|]. simpl. intros H.
      inversion H as [[Hc Hw]].
      exists [c0], w. repeat split.
      * exists c0. split; [reflexivity | now apply lit_matches].
      * now apply IH.
Qed.

Lemma groups_ok_word (P : nat -> jsstring -> Prop) (p : jsstring) :
  groups_ok P (word p).
Proof. induction p; simpl; auto. Qed.

Lemma any_char_matches (c : char) :
  atom_matches AnyChar c = true <-> is_line_terminator c = false.
Proof. simpl. apply negb_true_iff. Qed.

Lemma lang_noChangesRe (w : jsstring) :
  lang noChangesRe w <->
  same_letters w (js "No changes") \/ up_to_date_phrase w
  \/ same_letters w (js "Nothing to do").
Proof.
  unfold noChangesRe, cat, up_to_date_phrase. cbn [lang fold_right].
  rewrite !lang_word. split.
  - intros [H|[H|H]]; [left; exact H | right; left | right; right; exact H].
    destruct H as [u [w1 [-> [Lu H]]]].
    destruct H as [x [w2 [-> [[a [-> Ha]] H]]]].
    destruct H as [t [w3 [-> [Lt H]]]].
    destruct H as [y [w4 [-> [[b [-> Hb]] H]]]].
    destruct H as [d [e [-> [Ld ->]]]].
    apply lang_word in Lu, Lt, Ld. apply any_char_matches in Ha, Hb.
    exists u, a, t, b, d. rewrite app_nil_r. simpl.
    repeat split; assumption.
  - intros [H|[H|H]]; [left; exact H | right; left | right; right; exact H].
    destruct H as [u [a [t [b [d [-> [Lu [Ha [Lt [Hb Ld]]]]]]]]]].
    apply lang_word in Lu, Lt, Ld. apply any_char_matches in Ha, Hb.
    exists u, (a :: t ++ b :: d). repeat split; [exact Lu|].
    exists [a], (t ++ b :: d). repeat split; [exists a; auto|].
    exists t, (b :: d). repeat split; [exact Lt|].
    exists [b], d. repeat split; [exists b; auto|].
    exists d, []. rewrite app_nil_r. auto.
Qed.

Lemma occurs_in_iff (P Q : jsstring -> Prop) (s : jsstring) :
  (forall w, P w <-> Q w) -> occurs_in P s <-> occurs_in Q s.
Proof.
  intros H. split; intros [pre [w [post [E Hw]]]]; exists pre, w, post;
    (split; [exact E | now apply H]).
Qed.

Lemma occurs_in_or (P Q : jsstring -> Prop) (s : jsstring) :
  occurs_in (fun w => P w \/ Q w) s <-> occurs_in P s \/ occurs_in Q s.
Proof.
  split.
  - intros [pre [w [post [E [H|H]]]]]; [left | right];
      exists pre, w, post; auto.
  - intros [[pre [w [post [E H]]]] | [pre [w [post [E H]]]]];
      exists pre, w, post; auto.
Qed.

(** ** Doubles *)

Lemma to_double_small (n : N) : (n < two_53)%N -> to_double n = Num n.
Proof.
  intros H. unfold to_double. apply N.ltb_lt in H. now rewrite H.
Qed.

Lemma to_double_not_NaN (n : N) : to_double n <> NaN.
Proof.
  unfold to_double. destruct (n <? two_53)%N; [discriminate|].
  cbv zeta. destruct (_ <? N.shiftl 1 1024)%N; discriminate.
Qed.

(** Rounding never takes a number from 2^53 on below 2^53. *)
Lemma to_double_large (v m : N) :
  (two_53 <= v)%N -> to_double v = Num m -> (two_53 <= m)%N.
Proof.
  intros Hv. unfold to_double.
  destruct (v <? two_53)%N eqn:E; [apply N.ltb_lt in E; lia|]. clear E.
  cbv zeta.
  set (sh := (N.log2 v - 52)%N).
  set (q := N.shiftr v sh).
  match goal with
  | |- context [if ?b then (q + 1)%N else q] =>
      set (q' := if b then (q + 1)%N else q)
  end.
  destruct (N.shiftl q' sh <? N.shiftl 1 1024)%N; [|discriminate].
  intros H. inversion H; subst m; clear H.
  assert (Hl : (53 <= N.log2 v)%N).
  { change 53%N with (N.log2 two_53). now apply N.log2_le_mono. }
  assert (Hsh : (N.log2 v = 52 + sh)%N) by (unfold sh; lia).
  assert (Hs1 : (1 <= sh)%N) by lia.
  assert (Hpos : (0 < v)%N) by (unfold two_53 in Hv; lia).
  pose proof (proj1 (N.log2_spec v Hpos)) as Hlow.
  rewrite Hsh, N.pow_add_r in Hlow.
  assert (Hp : (2 <= 2 ^ sh)%N).
  { change 2%N with (2 ^ 1)%N at 1. apply N.pow_le_mono_r; lia. }
  assert (Hq : (2 ^ 52 <= q)%N).
  { unfold q. rewrite N.shiftr_div_pow2.
    apply N.div_le_lower_bound; [lia|]. rewrite N.mul_comm. exact Hlow. }
  assert (Hq' : (q <= q')%N).
  { unfold q'. match goal with |- context [if ?b then _ else _] => destruct b end; lia. }
  rewrite N.shiftl_mul_pow2.
  change two_53 with (2 ^ 52 * 2)%N.
  apply N.mul_le_mono; lia.
Qed.

Lemma rounds_to_spec (v n : N) :
  rounds_to v n = true <-> to_double v = Num n.
Proof.
  unfold rounds_to. destruct (to_double v) as [|m|].
  - split; discriminate.
  - rewrite N.eqb_eq. split; [intros ->; reflexivity | congruence].
  - split; discriminate.
Qed.

Lemma shortest_at_reads_back (n : N) (k : nat) (v : N) :
  shortest_at n k = Some v -> to_double v = Num n.
Proof.
  unfold shortest_at. cbv zeta.
  set (p := (10 ^ N.of_nat (List.length (numeral n) - k))%N).
  destruct (rounds_to (n / p * p) n) eqn:Elo;
    destruct (rounds_to (n / p * p + p) n) eqn:Ehi;
    try discriminate;
    repeat match goal with
           | |- context [if ?b then _ else _] => destruct b
           end;
    intros H; inversion H; subst v; apply rounds_to_spec; assumption.
Qed.

Lemma shortest_from_reads_back (n : N) (fuel k : nat) :
  shortest_from n k fuel = n \/ to_double (shortest_from n k fuel) = Num n.
Proof.
  revert k. induction fuel as [|fuel IH]; intros k; simpl; [now left|].
  destruct (shortest_at n k) as [v|] eqn:E.
  - right. exact (shortest_at_reads_back n k v E).
  - apply IH.
Qed.

(** Below 2^53 the shortest numeral that reads back as [n] is [n]. *)
Lemma shortest_small (n : N) : (n < two_53)%N -> shortest n = n.
Proof.
  intros Hn. unfold shortest.
  destruct (shortest_from_reads_back n 17 1) as [H|H]; [exact H|].
  destruct (N.lt_ge_cases (shortest_from n 1 17) two_53) as [Hv|Hv].
  - rewrite (to_double_small _ Hv) in H. injection H as H. exact H.
  - apply (to_double_large _ n Hv) in H. lia.
Qed.

(** Below 2^53 a number is shown as its decimal numeral. *)
Lemma number_to_string_small (n : N) :
  (n < two_53)%N -> number_to_string (Num n) = numeral n.
Proof.
  intros Hn. unfold number_to_string, double_to_string.
  rewrite (shortest_small n Hn).
  assert (H : (n <? 1000000000000000000000)%N = true)
    by (apply N.ltb_lt; unfold two_53 in Hn; lia).
  now rewrite H.
Qed.

Lemma is_zero_iff (n : number) : is_zero n = true <-> n = Num 0.
Proof.
  destruct n as [|n|]; simpl; [split; discriminate| |split; discriminate].
  rewrite N.eqb_eq. split; [intros ->; reflexivity | intros H; now inversion H].
Qed.

(** The flag computed by the handler is the marker. *)
Lemma noChanges_iff (combined : jsstring) :
  noChanges combined = true <-> no_changes_marker combined.
Proof.
  unfold noChanges, no_changes_marker.
  rewrite orb_true_iff, test_occurs.
  rewrite (occurs_in_iff _ _ combined lang_noChangesRe).
  rewrite occurs_in_or, occurs_in_or.
  destruct (transferredFiles combined) as [n|].
  - rewrite is_zero_iff. split.
    + intros [H|[H|[H|H]]]; auto. subst n. auto.
    + intros [H|[H|[H|H]]]; auto. inversion H. auto.
  - split.
    + intros [H|[H|[H|H]]]; auto. discriminate.
    + intros [H|[H|[H|H]]]; auto. discriminate.
Qed.

Lemma capture_ok (P : nat -> jsstring -> Prop) (caps : captures) (i : nat)
  (w : jsstring) :
  caps_ok P caps -> capture i caps = Some w -> P i w.
Proof.
  induction 1 as [|[j v] caps Hj Hc IH]; simpl; [discriminate|].
  destruct (Nat.eqb i j) eqn:E.
  - intros H. inversion H; subst. apply Nat.eqb_eq in E. now subst j.
  - exact IH.
Qed.

Lemma lang_sizeAmount_nonempty (w : jsstring) :
  lang sizeAmount w -> w <> [].
Proof.
  unfold sizeAmount, cat. cbn [lang fold_right].
  intros [w1 [w2 [-> [[Hne _] _]]]]. destruct w1; [congruence | discriminate].
Qed.

(** A captured size is a word of [[\d.]+\s*\w*i?B]. *)
Lemma transferredSize_lang (combined size : jsstring) :
  transferredSize combined = Some size -> lang sizeAmount size.
Proof.
  unfold transferredSize, sizeLineMatch, group.
  destruct (exec sizeLineRe combined) as [caps|] eqn:E; [|discriminate].
  intros H.
  apply (capture_ok (fun _ w => lang sizeAmount w) caps 1 size); [|exact H].
  apply (exec_sound (fun _ w => lang sizeAmount w) sizeLineRe) in E.
  - exact (proj2 E).
  - unfold sizeLineRe, cat. cbn [groups_ok fold_right].
    repeat split; auto using groups_ok_word.
Qed.

Lemma checks_suffix_eq (combined : jsstring) :
  checksPart combined = checks_suffix combined.
Proof.
  unfold checksPart, checks_suffix, checksDone, checksTotal, group_int.
  destruct (checksLineMatch combined); reflexivity.
Qed.

Lemma files_prefix_eq (combined : jsstring) :
  (if truthy (filesPart combined) then filesPart combined ++ js ", " else [])
  = files_prefix combined.
Proof.
  unfold filesPart, files_prefix.
  destruct (transferredFiles combined) as [n|]; [|reflexivity].
  change (js " files") with (32%N :: skipn 1 (js " files")).
  rewrite truthy_app_cons, <- app_assoc. reflexivity.
Qed.

(** ** Captured numbers are numbers *)

Lemma rmatch_records (R : Type) (r : regex) :
  forall (s : jsstring) (caps : captures) (k : cont R) (x : R),
  rmatch r s caps k = Some x ->
  exists s' caps',
    k s' caps' = Some x
    /\ forall i, has_capture i caps \/ always_captures i r = true ->
                 has_capture i caps'.
Proof.
  induction r as [|a|a|a|a|r1 IH1 r2 IH2|r1 IH1 r2 IH2|j r1 IH1];
    intros s caps k x H; simpl in H.
  - exists s, caps. split; [exact H|]. intros i [Hi|Hi]; [exact Hi|discriminate].
  - apply one_m_sound in H. destruct H as [c [s' [_ [_ Hk]]]].
    exists s', caps. split; [exact Hk|].
    intros i [Hi|Hi]; [exact Hi|discriminate].
  - apply star_m_sound in H. destruct H as [w [s' [_ [_ Hk]]]].
    exists s', caps. split; [exact Hk|].
    intros i [Hi|Hi]; [exact Hi|discriminate].
  - apply one_m_sound in H. destruct H as [c [s1 [_ [_ Hk]]]].
    apply star_m_sound in Hk. destruct Hk as [w [s' [_ [_ Hk]]]].
    exists s', caps. split; [exact Hk|].
    intros i [Hi|Hi]; [exact Hi|discriminate].
  - apply first_of_Some in H. destruct H as [H|H].
    + apply one_m_sound in H. destruct H as [c [s' [_ [_ Hk]]]].
      exists s', caps. split; [exact Hk|].
      intros i [Hi|Hi]; [exact Hi|discriminate].
    + exists s, caps. split; [exact H|].
      intros i [Hi|Hi]; [exact Hi|discriminate].
  - destruct (IH1 _ _ _ _ H) as [s1 [c1 [H1 Hc1]]].
    destruct (IH2 _ _ _ _ H1) as [s2 [c2 [H2 Hc2]]].
    exists s2, c2. split; [exact H2|].
    intros i [Hi|Hi].
    + apply Hc2. left. apply Hc1. now left.
    + simpl in Hi. apply orb_true_iff in Hi. destruct Hi as [Hi|Hi].
      * apply Hc2. left. apply Hc1. now right.
      * apply Hc2. now right.
  - apply first_of_Some in H. destruct H as [H|H].
    + destruct (IH1 _ _ _ _ H) as [s1 [c1 [H1 Hc1]]].
      exists s1, c1. split; [exact H1|].
      intros i [Hi|Hi]; apply Hc1; [now left|].
      simpl in Hi. apply andb_true_iff in Hi. right. apply Hi.
    + destruct (IH2 _ _ _ _ H) as [s1 [c1 [H1 Hc1]]].
      exists s1, c1. split; [exact H1|].
      intros i [Hi|Hi]; apply Hc1; [now left|].
      simpl in Hi. apply andb_true_iff in Hi. right. apply Hi.
  - destruct (IH1 _ _ _ _ H) as [s1 [c1 [H1 Hc1]]].
    eexists. eexists. split; [exact H1|].
    intros i Hi. unfold has_capture. simpl.
    destruct (Nat.eqb i j) eqn:E; [discriminate|].
    apply Hc1. destruct Hi as [Hi|Hi]; [now left|].
    simpl in Hi. rewrite E in Hi. now right.
Qed.

Lemma exec_records (r : regex) (i : nat) :
  always_captures i r = true ->
  forall s caps, exec r s = Some caps -> has_capture i caps.
Proof.
  intros Hi. induction s as [|c s IH]; intros caps H; simpl in H.
  - destruct (rmatch r [] [] (fun _ c => Some c)) as [c0|] eqn:Hm;
      [|discriminate].
    inversion H; subst.
    destruct (rmatch_records _ r _ _ _ _ Hm) as [s' [c' [Hk Hc]]].
    inversion Hk; subst. apply Hc. now right.
  - destruct (rmatch r (c :: s) [] (fun _ c => Some c)) as [c0|] eqn:Hm.
    + inversion H; subst.
      destruct (rmatch_records _ r _ _ _ _ Hm) as [s' [c' [Hk Hc]]].
      inversion Hk; subst. apply Hc. now right.
    + exact (IH caps H).
Qed.

(** On a capture of [\d+], [parseInt] is the double nearest to the number
    the digits denote. *)
Lemma parseInt_digits (w : jsstring) :
  lang (Plus Digit) w -> parseInt w = to_double (digits_value 0 w).
Proof.
  intros [Hne Hw]. destruct w as [|c w]; [congruence|].
  inversion Hw as [|? ? Hc _]; subst. simpl in Hc.
  unfold parseInt. now rewrite Hc.
Qed.

(** A number read from a capture of [\d+] is never [NaN]: the digits-only
    [parseInt] above is all the handler needs. *)
Lemma group_int_number (r : regex) (i : nat) (s : jsstring) (x : number) :
  groups_ok (fun _ w => lang (Plus Digit) w) r ->
  always_captures i r = true ->
  group_int i (exec r s) = Some x -> x <> NaN.
Proof.
  intros Hg Hi. unfold group_int.
  destruct (exec r s) as [caps|] eqn:E; [|discriminate].
  intros H. inversion H; subst; clear H.
  pose proof (exec_records r i Hi s caps E) as Hc. unfold has_capture in Hc.
  destruct (capture i caps) as [w|] eqn:Ew; [|congruence].
  rewrite parseInt_digits; [apply to_double_not_NaN|].
  apply (capture_ok (fun _ w => lang (Plus Digit) w) caps i w); [|exact Ew].
  exact (proj2 (exec_sound _ r Hg s caps E)).
Qed.

(** ** The decision policy of the parser *)

(** C5. The parser decides in this order.  If the no-changes marker holds
    (one of "No changes", "up.to.date" with any one character that is not a
    line terminator at each dot, "Nothing to do" occurs in the text
    whatever the case of the letters, or the extracted file count is exactly
    0) the summary is the "already up to date" form, whatever else matched.
    Otherwise, if a size was captured, the summary is that size, preceded by
    the file count when one was extracted and followed by the duration and,
    when the checks line matched, the checks.  Otherwise it is the generic
    "done" form.  The parser is a total function: it has no error case. *)
Theorem C5_parser_decision_policy (combined durationSec : jsstring) :
  (noChanges combined = true <-> no_changes_marker combined)
  /\ (no_changes_marker combined ->
      parse combined durationSec = js "已是最新 (耗时 " ++ durationSec ++ js "s)")
  /\ (~ no_changes_marker combined ->
      forall size,
      transferredSize combined = Some size ->
      size <> []
      /\ parse combined durationSec =
           files_prefix combined ++ size ++ js " (耗时 " ++ durationSec
             ++ js "s" ++ checks_suffix combined ++ js ")")
  /\ (~ no_changes_marker combined ->
      transferredSize combined = None ->
      parse combined durationSec = js "完成 (耗时 " ++ durationSec ++ js "s)").
Proof.
  split; [exact (noChanges_iff combined)|]. unfold parse.
  split; [|split].
  - intros H. apply noChanges_iff in H. rewrite H. reflexivity.
  - intros H size Hs.
    assert (Hn : noChanges combined = false).
    { destruct (noChanges combined) eqn:E; [|reflexivity].
      exfalso. apply H. now apply noChanges_iff. }
    assert (Hne : size <> [])
      by (apply lang_sizeAmount_nonempty, (transferredSize_lang combined), Hs).
    split; [exact Hne|]. rewrite Hn, Hs.
    apply truthy_true in Hne. rewrite Hne. unfold sizeSummary.
    rewrite files_prefix_eq, checks_suffix_eq. reflexivity.
  - intros H Hs.
    assert (Hn : noChanges combined = false).
    { destruct (noChanges combined) eqn:E; [|reflexivity].
      exfalso. apply H. now apply noChanges_iff. }
    rewrite Hn, Hs. reflexivity.
Qed.

Lemma C5_witness :
  parse output_no_changes (js "0.5") = js "已是最新 (耗时 0.5s)"
  /\ parse output_transfer (js "2.5")
     = js "3 files, 1.234 MiB (耗时 2.5s, checks 10/12)"
  /\ parse output_unknown (js "0.1") = js "完成 (耗时 0.1s)"
  /\ parse output_large_counts (js "1.0")
     = js "9007199254740992 files, 1 KiB (耗时 1.0s, checks 1e+21/18446744073709552000)".
Proof.
  split; [|split; [|split]].
  - destruct (C5_parser_decision_policy output_no_changes (js "0.5"))
      as [H1 [H2 _]].
    rewrite H2; [reflexivity|]. apply H1. vm_compute. reflexivity.
  - destruct (C5_parser_decision_policy output_transfer (js "2.5"))
      as [H1 [_ [H3 _]]].
    assert (Hn : ~ no_changes_marker output_transfer).
    { intros H. apply H1 in H. vm_compute in H. discriminate. }
    destruct (H3 Hn (js "1.234 MiB")) as [_ E]; [vm_compute; reflexivity|].
    rewrite E. vm_compute. reflexivity.
  - destruct (C5_parser_decision_policy output_unknown (js "0.1"))
      as [H1 [_ [_ H4]]].
    rewrite H4; [reflexivity | | vm_compute; reflexivity].
    intros H. apply H1 in H. vm_compute in H. discriminate.
  - destruct (C5_parser_decision_policy output_large_counts (js "1.0"))
      as [H1 [_ [H3 _]]].
    assert (Hn : ~ no_changes_marker output_large_counts).
    { intros H. apply H1 in H. vm_compute in H. discriminate. }
    destruct (H3 Hn (js "1 KiB")) as [_ E]; [vm_compute; reflexivity|].
    rewrite E. vm_compute. reflexivity.
Defined.

(** ** Worked examples *)

Example parse_size :
  parse (js "Transferred:   1.234 MiB / 1.234 MiB, 100%, 0 B/s"
           ++ [newline] ++ js "Checks: 10 / 12, 100%") (js "2.5")
  = js "1.234 MiB (耗时 2.5s, checks 10/12)".
Proof. vm_compute. reflexivity. Qed.

Example parse_zero_bytes :
  parse (js "Transferred:   0 B / 0 B, -, 0 B/s, ETA -") (js "0.3")
  = js "0 B (耗时 0.3s)".
Proof. vm_compute. reflexivity. Qed.

Example parse_zero_files :
  parse (js "Transferred:   1.5 KiB / 1.5 KiB, 100%" ++ [newline]
           ++ js "Transferred:   0 / 0, -") (js "0.3")
  = js "已是最新 (耗时 0.3s)".
Proof. vm_compute. reflexivity. Qed.

Example parse_up_to_date_needs_separators :
  parse (js "Everything is UP-TO-DATE") (js "1.0") = js "已是最新 (耗时 1.0s)"
  /\ parse (js "Everything is uptodate") (js "1.0") = js "完成 (耗时 1.0s)".
Proof. split; vm_compute; reflexivity. Qed.

(** Three targets, the second disabled: the first child reports no change,
    the second child fails with exit code 1. *)
Example handleSync_sample :
  snd (handleSync sample_world sample_state) =
    [ Spawn (js "/usr/bin/rclone")
        [js "bisync"; js "/home/me/vault"; js "a:v"; js "--verbose";
         js "--resync"] false;
      ConsoleWarn (js "[rclone stderr] INFO : No changes found");
      ChildClose (Some 0%Z);
      Spawn (js "/usr/bin/rclone")
        [js "bisync"; js "/home/me/vault"; js "c:y"; js "--verbose";
         js "--resync"] false;
      ConsoleWarn (js "[rclone stderr] permission denied");
      ChildClose (Some 1%Z);
      ConsoleError (js "rclone 退出码 1" ++ [newline]
                      ++ js "permission denied");
      Notice (js "同步完成 (0.7s)" ++ [newline]
                ++ js "a: 已是最新 (耗时 0.5s)" ++ [newline]
                ++ js "c: 失败: rclone 退出码 1" ++ [newline]
                ++ js "permission denied") ]
  /\ statusBar (snd (fst (handleSync sample_world sample_state)))
     = Some (js "Rclone: 同步失败")
  /\ isSyncing (snd (fst (handleSync sample_world sample_state))) = false.
Proof. repeat split; vm_compute; reflexivity. Qed.

(** Counts from 2^53 on are doubles: the file count is rounded to the
    nearest of them and the checks are printed in exponent notation. *)
Example parse_large_counts :
  parseInt (js "9007199254740993") = Num 9007199254740992
  /\ number_to_string (parseInt (js "1000000000000000000000")) = js "1e+21"
  /\ number_to_string (parseInt (js "123456789012345678901234567890"))
     = js "1.2345678901234568e+29"
  /\ number_to_string (parseInt (js "18446744073709551615"))
     = js "18446744073709552000"
  /\ parseInt (repeat 57%N 400) = Infinity
  /\ parse output_large_counts (js "1.0")
     = js "9007199254740992 files, 1 KiB (耗时 1.0s, checks 1e+21/18446744073709552000)".
Proof. repeat split; vm_compute; reflexivity. Qed.

(* ================================================================== *)
(** * Part III: further properties of the code *)
(* ================================================================== *)

(** ** The parser and the case of letters *)

Lemma canon_idem (c : char) : canon (canon c) = canon c.
Proof.
  unfold canon.
  destruct ((97 <=? c)%N && (c <=? 122)%N) eqn:E; [|now rewrite E].
  apply andb_true_iff in E. destruct E as [E1 E2].
  apply N.leb_le in E1, E2.
  assert (H : ((97 <=? c - 32)%N && (c - 32 <=? 122)%N) = false).
  { apply andb_false_iff. left. apply N.leb_gt. lia. }
  now rewrite H.
Qed.

Lemma canon_cases (c : char) :
  canon c = c \/ ((97 <= c <= 122)%N /\ canon c = (c - 32)%N).
Proof.
  unfold canon.
  destruct ((97 <=? c)%N && (c <=? 122)%N) eqn:E; [|now left].
  apply andb_true_iff in E. destruct E as [E1 E2].
  apply N.leb_le in E1, E2. right. auto.
Qed.

Ltac bool_cases :=
  repeat match goal with
    | |- context [N.eqb ?a ?b] =>
        destruct (N.eqb_spec a b); try (exfalso; lia)
    | |- context [N.leb ?a ?b] =>
        destruct (N.leb_spec a b); try (exfalso; lia)
    end; try reflexivity.

Lemma is_digit_canon (c : char) : is_digit (canon c) = is_digit c.
Proof.
  destruct (canon_cases c) as [->|[[H1 H2] ->]]; [reflexivity|].
  unfold is_digit. bool_cases.
Qed.

Lemma is_space_canon (c : char) : is_space (canon c) = is_space c.
Proof.
  destruct (canon_cases c) as [->|[[H1 H2] ->]]; [reflexivity|].
  unfold is_space. bool_cases.
Qed.

Lemma is_line_terminator_canon (c : char) :
  is_line_terminator (canon c) = is_line_terminator c.
Proof.
  destruct (canon_cases c) as [->|[[H1 H2] ->]]; [reflexivity|].
  unfold is_line_terminator. bool_cases.
Qed.

Lemma is_word_canon (c : char) : is_word (canon c) = is_word c.
Proof.
  destruct (canon_cases c) as [->|[[H1 H2] ->]]; [reflexivity|].
  unfold is_word, is_digit. bool_cases.
Qed.

Lemma dot_canon (c : char) : N.eqb (canon c) 46 = N.eqb c 46.
Proof.
  destruct (canon_cases c) as [->|[[H1 H2] ->]]; [reflexivity|].
  bool_cases.
Qed.

Lemma atom_matches_canon (a : atom) (c : char) :
  atom_matches a (canon c) = atom_matches a c.
Proof.
  destruct a; simpl.
  - now rewrite canon_idem.
  - now rewrite is_line_terminator_canon.
  - apply is_space_canon.
  - apply is_digit_canon.
  - apply is_word_canon.
  - now rewrite is_digit_canon, dot_canon.
Qed.

Section CaseSimulation.

Variables R R' : Type.
Variable f : R -> R'.

Lemma first_of_map (x y : option R) :
  first_of (option_map f x) (option_map f y) = option_map f (first_of x y).
Proof. destruct x; reflexivity. Qed.

Lemma one_m_canon (a : atom) (s : jsstring) (caps : captures)
  (k : cont R) (k' : cont R') :
  follows f k k' ->
  one_m a (map canon s) (canon_captures caps) k'
  = option_map f (one_m a s caps k).
Proof.
  intros Hk. destruct s as [|c s]; simpl; [reflexivity|].
  rewrite atom_matches_canon. destruct (atom_matches a c); [apply Hk|].
  reflexivity.
Qed.

Lemma star_m_canon (a : atom) (caps : captures) (k : cont R) (k' : cont R') :
  follows f k k' ->
  forall s,
  star_m a (map canon s) (canon_captures caps) k'
  = option_map f (star_m a s caps k).
Proof.
  intros Hk. induction s as [|c s IH]; simpl.
  - apply (Hk []).
  - rewrite atom_matches_canon. destruct (atom_matches a c).
    + rewrite IH. rewrite <- first_of_map. f_equal. apply (Hk (c :: s)).
    + apply (Hk (c :: s)).
Qed.

End CaseSimulation.

Lemma rmatch_canon (r : regex) :
  forall (R R' : Type) (f : R -> R') (s : jsstring) (caps : captures)
         (k : cont R) (k' : cont R'),
  follows f k k' ->
  rmatch r (map canon s) (canon_captures caps) k'
  = option_map f (rmatch r s caps k).
Proof.
  induction r as [|a|a|a|a|r1 IH1 r2 IH2|r1 IH1 r2 IH2|i r1 IH1];
    intros R R' f s caps k k' Hk; simpl.
  - apply Hk.
  - now apply one_m_canon.
  - now apply star_m_canon.
  - apply one_m_canon. intros s1 c1. now apply star_m_canon.
  - rewrite <- first_of_map. f_equal; [now apply one_m_canon | apply Hk].
  - apply IH1. intros s1 c1. now apply IH2.
  - rewrite <- first_of_map. f_equal; [now apply IH1 | now apply IH2].
  - apply IH1. intros s1 c1.
    rewrite !length_map, firstn_map. apply (Hk s1 ((i, _) :: c1)).
Qed.

Lemma exec_canon (r : regex) (s : jsstring) :
  exec r (map canon s) = option_map canon_captures (exec r s).
Proof.
  assert (Hm : forall s0,
            rmatch r (map canon s0) [] (fun _ c => Some c)
            = option_map canon_captures
                (rmatch r s0 [] (fun _ c => Some c))).
  { intros s0.
    apply (rmatch_canon r _ _ canon_captures s0 [] (fun _ c => Some c)
             (fun _ c => Some c)).
    intros ? ?. reflexivity. }
  induction s as [|c s IH].
  - pose proof (Hm []) as E. simpl in E. simpl.
    destruct (rmatch r [] [] (fun _ c => Some c)); [exact E | reflexivity].
  - change (exec r (map canon (c :: s)))
      with (match rmatch r (map canon (c :: s)) [] (fun _ c => Some c) with
            | Some c0 => Some c0
            | None => exec r (map canon s)
            end).
    rewrite (Hm (c :: s)). simpl.
    destruct (rmatch r (c :: s) [] (fun _ c => Some c)); simpl;
      [reflexivity | exact IH].
Qed.

Lemma capture_canon (i : nat) (caps : captures) :
  capture i (canon_captures caps) = option_map (map canon) (capture i caps).
Proof.
  induction caps as [|[j w] caps IH]; simpl; [reflexivity|].
  destruct (Nat.eqb i j); [reflexivity | exact IH].
Qed.

Lemma digits_value_canon (s : jsstring) :
  forall acc, digits_value acc (map canon s) = digits_value acc s.
Proof.
  induction s as [|c s IH]; intros acc; simpl; [reflexivity|].
  rewrite is_digit_canon. destruct (is_digit c) eqn:E; [|reflexivity].
  destruct (canon_cases c) as [->|[[H1 H2] _]]; [apply IH|].
  unfold is_digit in E. apply andb_true_iff in E. destruct E as [_ E].
  apply N.leb_le in E. lia.
Qed.

Lemma parseInt_canon (s : jsstring) : parseInt (map canon s) = parseInt s.
Proof.
  destruct s as [|c s]; [reflexivity|]. unfold parseInt. cbn [map].
  rewrite is_digit_canon. destruct (is_digit c); [|reflexivity].
  change (canon c :: map canon s) with (map canon (c :: s)).
  now rewrite digits_value_canon.
Qed.

Lemma group_int_canon (i : nat) (r : regex) (s : jsstring) :
  group_int i (exec r (map canon s)) = group_int i (exec r s).
Proof.
  rewrite exec_canon. destruct (exec r s) as [caps|]; simpl; [|reflexivity].
  rewrite capture_canon. destruct (capture i caps); simpl; [|reflexivity].
  now rewrite parseInt_canon.
Qed.

Lemma test_canon (r : regex) (s : jsstring) :
  test r (map canon s) = test r s.
Proof. unfold test. rewrite exec_canon. destruct (exec r s); reflexivity. Qed.

Lemma noChanges_canon (s : jsstring) : noChanges (map canon s) = noChanges s.
Proof.
  unfold noChanges, transferredFiles, countLineMatch.
  now rewrite group_int_canon, test_canon.
Qed.

Lemma transferredSize_canon (s : jsstring) :
  transferredSize (map canon s) = option_map (map canon) (transferredSize s).
Proof.
  unfold transferredSize, sizeLineMatch, group. rewrite exec_canon.
  destruct (exec sizeLineRe s); simpl; [apply capture_canon | reflexivity].
Qed.

Lemma checksPart_canon (s : jsstring) :
  checksPart (map canon s) = checksPart s.
Proof.
  unfold checksPart, checksDone, checksTotal, checksLineMatch.
  rewrite !group_int_canon, exec_canon.
  destruct (exec checksLineRe s); reflexivity.
Qed.

Lemma filesPart_canon (s : jsstring) : filesPart (map canon s) = filesPart s.
Proof.
  unfold filesPart, transferredFiles, countLineMatch.
  now rewrite group_int_canon.
Qed.

Lemma map_canon_idem (s : jsstring) : map canon (map canon s) = map canon s.
Proof. rewrite map_map. apply map_ext. apply canon_idem. Qed.

Lemma parse_canon (s d : jsstring) :
  same_letters (parse (map canon s) d) (parse s d).
Proof.
  unfold same_letters, parse. rewrite noChanges_canon.
  destruct (noChanges s); [reflexivity|].
  rewrite transferredSize_canon.
  destruct (transferredSize s) as [size|]; simpl; [|reflexivity].
  replace (truthy (map canon size)) with (truthy size)
    by (destruct size; reflexivity).
  destruct (truthy size); [|reflexivity].
  unfold sizeSummary. rewrite filesPart_canon, checksPart_canon.
  rewrite !map_app, map_canon_idem. reflexivity.
Qed.

(** X1. The parser is blind to the case of ASCII letters: two outputs
    that differ only in letter case carry the same no-changes flag, the
    same file count and the same checks, and their summaries differ at most
    in the letter case of the captured size. *)
Theorem X1_parse_ignores_letter_case (s1 s2 durationSec : jsstring) :
  same_letters s1 s2 ->
  noChanges s1 = noChanges s2
  /\ transferredFiles s1 = transferredFiles s2
  /\ checksDone s1 = checksDone s2
  /\ checksTotal s1 = checksTotal s2
  /\ same_letters (parse s1 durationSec) (parse s2 durationSec).
Proof.
  unfold same_letters. intros H.
  split; [now rewrite <- (noChanges_canon s1), H, noChanges_canon|].
  unfold transferredFiles, checksDone, checksTotal, countLineMatch,
    checksLineMatch.
  split; [now rewrite <- (group_int_canon 1 _ s1), H, group_int_canon|].
  split; [now rewrite <- (group_int_canon 1 _ s1), H, group_int_canon|].
  split; [now rewrite <- (group_int_canon 2 _ s1), H, group_int_canon|].
  rewrite <- (parse_canon s1), <- (parse_canon s2). now rewrite H.
Qed.

Lemma X1_witness :
  parse (js "TRANSFERRED: 1.5 mib / 1.5 mib, 100%") (js "2.0")
  = js "1.5 mib (耗时 2.0s)"
  /\ same_letters (parse (js "TRANSFERRED: 1.5 mib / 1.5 mib, 100%") (js "2.0"))
       (parse (js "Transferred: 1.5 MiB / 1.5 MiB, 100%") (js "2.0")).
Proof.
  split; [vm_compute; reflexivity|].
  apply (X1_parse_ignores_letter_case
           (js "TRANSFERRED: 1.5 mib / 1.5 mib, 100%")
           (js "Transferred: 1.5 MiB / 1.5 MiB, 100%") (js "2.0")).
  vm_compute. reflexivity.
Defined.

(** ** What is captured comes from the output *)

Lemma part_of_suffix (w s pre : jsstring) :
  part_of w s -> part_of w (pre ++ s).
Proof.
  intros [a [b E]]. exists (pre ++ a), b. rewrite E.
  now rewrite <- app_assoc.
Qed.

Lemma rmatch_parts (R : Type) (r : regex) :
  forall (s : jsstring) (caps : captures) (k : cont R) (x : R),
  rmatch r s caps k = Some x ->
  exists s' caps',
    k s' caps' = Some x
    /\ (exists w, s = w ++ s')
    /\ forall i w, In (i, w) caps' -> In (i, w) caps \/ part_of w s.
Proof.
  induction r as [|a|a|a|a|r1 IH1 r2 IH2|r1 IH1 r2 IH2|j r1 IH1];
    intros s caps k x H; simpl in H.
  - exists s, caps. split; [exact H|]. split; [now exists []|]. auto.
  - apply one_m_sound in H. destruct H as [c [s' [E [_ Hk]]]].
    exists s', caps. split; [exact Hk|]. split; [now exists [c]|]. auto.
  - apply star_m_sound in H. destruct H as [w [s' [E [_ Hk]]]].
    exists s', caps. split; [exact Hk|]. split; [now exists w|]. auto.
  - apply one_m_sound in H. destruct H as [c [s1 [E [_ Hk]]]].
    apply star_m_sound in Hk. destruct Hk as [w [s' [E' [_ Hk]]]].
    exists s', caps. split; [exact Hk|].
    split; [exists (c :: w); now subst|]. auto.
  - apply first_of_Some in H. destruct H as [H|H].
    + apply one_m_sound in H. destruct H as [c [s' [E [_ Hk]]]].
      exists s', caps. split; [exact Hk|]. split; [now exists [c]|]. auto.
    + exists s, caps. split; [exact H|]. split; [now exists []|]. auto.
  - destruct (IH1 _ _ _ _ H) as [s1 [c1 [H1 [[w1 E1] Hc1]]]].
    destruct (IH2 _ _ _ _ H1) as [s2 [c2 [H2 [[w2 E2] Hc2]]]].
    exists s2, c2. split; [exact H2|].
    split; [exists (w1 ++ w2); subst; now rewrite <- app_assoc|].
    intros i w Hin. destruct (Hc2 i w Hin) as [Hin1|Hp].
    + apply Hc1. exact Hin1.
    + right. subst s. now apply part_of_suffix.
  - apply first_of_Some in H. destruct H as [H|H];
      [exact (IH1 _ _ _ _ H) | exact (IH2 _ _ _ _ H)].
  - destruct (IH1 _ _ _ _ H) as [s1 [c1 [H1 [[w1 E1] Hc1]]]].
    subst s. rewrite firstn_consumed in H1.
    eexists. eexists. split; [exact H1|]. split; [now exists w1|].
    intros i w [Heq|Hin].
    + inversion Heq; subst. right. exists [], s1. reflexivity.
    + apply Hc1. exact Hin.
Qed.

Lemma exec_parts (r : regex) :
  forall s caps, exec r s = Some caps ->
  forall i w, In (i, w) caps -> part_of w s.
Proof.
  assert (Hm : forall s caps,
            rmatch r s [] (fun _ c => Some c) = Some caps ->
            forall i w, In (i, w) caps -> part_of w s).
  { intros s caps H i w Hin.
    destruct (rmatch_parts _ r _ _ _ _ H) as [s' [c' [Hk [_ Hc]]]].
    inversion Hk; subst. destruct (Hc i w Hin) as [[]|Hp]. exact Hp. }
  induction s as [|c s IH]; intros caps H i w Hin; simpl in H.
  - destruct (rmatch r [] [] (fun _ c => Some c)) as [c0|] eqn:E;
      [|discriminate].
    inversion H; subst. exact (Hm _ _ E i w Hin).
  - destruct (rmatch r (c :: s) [] (fun _ c => Some c)) as [c0|] eqn:E.
    + inversion H; subst. exact (Hm _ _ E i w Hin).
    + apply (part_of_suffix w s [c]). exact (IH caps H i w Hin).
Qed.

Lemma capture_In (i : nat) (caps : captures) (w : jsstring) :
  capture i caps = Some w -> In (i, w) caps.
Proof.
  induction caps as [|[j v] caps IH]; simpl; [discriminate|].
  destruct (Nat.eqb i j) eqn:E.
  - intros H. inversion H; subst. apply Nat.eqb_eq in E. subst. now left.
  - intros H. right. now apply IH.
Qed.

Lemma letter_i_is_word (c : char) : canon c = canon 105%N -> is_word c = true.
Proof.
  intros H. rewrite <- is_word_canon, H. reflexivity.
Qed.

Lemma lang_sizeAmount_shape (w : jsstring) :
  lang sizeAmount w -> size_shaped w.
Proof.
  unfold sizeAmount, cat. cbn [lang fold_right].
  intros [w1 [r1 [-> [[Hne H1] H]]]].
  destruct H as [w2 [r2 [-> [H2 H]]]].
  destruct H as [w3 [r3 [-> [H3 H]]]].
  destruct H as [w4 [r4 [-> [H4 H]]]].
  destruct H as [w5 [r5 [-> [[b [-> Hb]] ->]]]].
  exists w1, w2, (w3 ++ w4), b. rewrite app_nil_r, <- !app_assoc.
  split; [reflexivity|]. split; [exact Hne|]. split; [|split; [|split]].
  - unfold all_match in H1. rewrite Forall_forall in *. intros c Hc.
    specialize (H1 c Hc). simpl in H1. apply orb_true_iff in H1.
    destruct H1 as [H1|H1]; [now left | right; now apply N.eqb_eq].
  - exact H2.
  - apply Forall_app. split; [exact H3|].
    destruct H4 as [->|[c [-> Hc]]]; constructor; [|constructor].
    apply lit_matches in Hc. now apply letter_i_is_word.
  - apply lit_matches in Hb. exact Hb.
Qed.

(** X2. A captured size is a contiguous part of the child's output, made
    of an amount of digits and dots, optional white space and a unit of
    word characters ending in the letter B. *)
Theorem X2_size_comes_from_output (combined size : jsstring) :
  transferredSize combined = Some size ->
  part_of size combined /\ size_shaped size.
Proof.
  intros H. split.
  - unfold transferredSize, sizeLineMatch, group in H.
    destruct (exec sizeLineRe combined) as [caps|] eqn:E; [|discriminate].
    apply (exec_parts sizeLineRe combined caps E 1). now apply capture_In.
  - apply lang_sizeAmount_shape. exact (transferredSize_lang _ _ H).
Qed.

Lemma X2_witness :
  part_of (js "1.234 MiB") output_transfer /\ size_shaped (js "1.234 MiB").
Proof.
  apply (X2_size_comes_from_output output_transfer (js "1.234 MiB")).
  vm_compute. reflexivity.
Defined.

Lemma group_int_digits (r : regex) (i : nat) (s : jsstring) (x : number) :
  groups_ok (fun _ w => lang (Plus Digit) w) r ->
  always_captures i r = true ->
  group_int i (exec r s) = Some x ->
  exists w, part_of w s /\ w <> [] /\ Forall (fun c => is_digit c = true) w
            /\ x = to_double (digits_value 0 w).
Proof.
  intros Hg Hi. unfold group_int.
  destruct (exec r s) as [caps|] eqn:E; [|discriminate].
  intros H. inversion H; subst; clear H.
  pose proof (exec_records r i Hi s caps E) as Hc. unfold has_capture in Hc.
  destruct (capture i caps) as [w|] eqn:Ew; [|congruence].
  assert (L : lang (Plus Digit) w).
  { apply (capture_ok (fun _ w => lang (Plus Digit) w) caps i w); [|exact Ew].
    exact (proj2 (exec_sound _ r Hg s caps E)). }
  exists w. split; [|split; [|split]].
  - apply (exec_parts r s caps E i). now apply capture_In.
  - apply L.
  - apply L.
  - now apply parseInt_digits.
Qed.

Lemma number_line_groups (p : jsstring) :
  groups_ok (fun _ w => lang (Plus Digit) w)
    (cat [word p; Star Space; Group 1 (Plus Digit); Star Space;
          One (Lit 47%N); Star Space; Group 2 (Plus Digit)]).
Proof.
  unfold cat. cbn [groups_ok fold_right].
  repeat match goal with |- _ /\ _ => split end; auto using groups_ok_word.
Qed.

(** X3. Every count shown in a summary comes from a non-empty run of
    decimal digits that occurs in the child's output: it is the double
    nearest to the number the digits denote, never [NaN] or [undefined],
    and the summary shows it as that double is printed.  When the digits
    denote a number below 2^53 the count is that number, shown as its
    decimal numeral.  This holds of the file count when the count line
    matches and of both checks when the checks line matches; without a
    checks line the summary has no checks part. *)
Theorem X3_counts_come_from_output (combined : jsstring) :
  (forall x, transferredFiles combined = Some x ->
     exists w, part_of w combined /\ w <> []
               /\ Forall (fun c => is_digit c = true) w
               /\ x = to_double (digits_value 0 w) /\ x <> NaN
               /\ filesPart combined = number_to_string x ++ js " files"
               /\ ((digits_value 0 w < two_53)%N ->
                   x = Num (digits_value 0 w)
                   /\ filesPart combined
                      = numeral (digits_value 0 w) ++ js " files"))
  /\ (checksLineMatch combined <> None ->
      exists wd wt,
        part_of wd combined /\ part_of wt combined
        /\ wd <> [] /\ wt <> []
        /\ Forall (fun c => is_digit c = true) wd
        /\ Forall (fun c => is_digit c = true) wt
        /\ checksDone combined = Some (to_double (digits_value 0 wd))
        /\ checksTotal combined = Some (to_double (digits_value 0 wt))
        /\ checksPart combined
           = js ", checks "
               ++ number_to_string (to_double (digits_value 0 wd))
               ++ js "/"
               ++ number_to_string (to_double (digits_value 0 wt))
        /\ ((digits_value 0 wd < two_53)%N ->
            (digits_value 0 wt < two_53)%N ->
            checksPart combined
            = js ", checks " ++ numeral (digits_value 0 wd)
                ++ js "/" ++ numeral (digits_value 0 wt)))
  /\ (checksLineMatch combined = None -> checksPart combined = []).
Proof.
  split; [|split].
  - intros x H.
    destruct (group_int_digits countLineRe 1 combined x
                (number_line_groups _) eq_refl H)
      as [w [Hp [Hne [Hd Hx]]]].
    exists w. split; [exact Hp|]. split; [exact Hne|]. split; [exact Hd|].
    split; [exact Hx|].
    split; [rewrite Hx; apply to_double_not_NaN|].
    assert (Hf : filesPart combined = number_to_string x ++ js " files")
      by (unfold filesPart; now rewrite H).
    split; [exact Hf|].
    intros Hs. rewrite Hf, Hx, (to_double_small _ Hs).
    split; [reflexivity|]. now rewrite (number_to_string_small _ Hs).
  - intros Hm. unfold checksPart.
    destruct (checksLineMatch combined) as [caps|] eqn:E; [|congruence].
    assert (Hd : exists x, checksDone combined = Some x).
    { unfold checksDone, group_int. rewrite E. eauto. }
    assert (Ht : exists x, checksTotal combined = Some x).
    { unfold checksTotal, group_int. rewrite E. eauto. }
    destruct Hd as [xd Hd]. destruct Ht as [xt Ht].
    destruct (group_int_digits checksLineRe 1 combined xd
                (number_line_groups _) eq_refl Hd)
      as [wd [Pd [Nd [Dd Xd]]]].
    destruct (group_int_digits checksLineRe 2 combined xt
                (number_line_groups _) eq_refl Ht)
      as [wt [Pt [Nt [Dt Xt]]]].
    exists wd, wt. rewrite Hd, Ht. subst xd xt.
    repeat match goal with |- _ /\ _ => split end;
      try assumption; try reflexivity.
    intros Hsd Hst.
    rewrite (to_double_small _ Hsd), (to_double_small _ Hst).
    cbn [opt_number_to_string].
    rewrite (number_to_string_small _ Hsd), (number_to_string_small _ Hst).
    reflexivity.
  - intros Hm. unfold checksPart. now rewrite Hm.
Qed.

Lemma X3_witness :
  exists w, part_of w output_transfer /\ w <> []
            /\ Forall (fun c => is_digit c = true) w
            /\ Num 3 = to_double (digits_value 0 w) /\ Num 3 <> NaN
            /\ filesPart output_transfer
               = number_to_string (Num 3) ++ js " files"
            /\ ((digits_value 0 w < two_53)%N ->
                Num 3 = Num (digits_value 0 w)
                /\ filesPart output_transfer
                   = numeral (digits_value 0 w) ++ js " files").
Proof.
  destruct (X3_counts_come_from_output output_transfer) as [H _].
  apply H. vm_compute. reflexivity.
Defined.

(** ** The footprint of the runner and of a run *)

Lemma code_is_zero_iff (code : option Z) :
  code_is_zero code = true <-> code = Some 0%Z.
Proof.
  destruct code as [z|]; simpl; [|split; discriminate].
  rewrite Z.eqb_eq. split; [intros ->; reflexivity | intros H; now inversion H].
Qed.

(** X4. The runner succeeds exactly when its three checks pass and the
    child closes with exit code 0; what the child printed decides nothing
    but the text of the summary. *)
Theorem X4_success_is_exit_code_zero (W : World) (r : RcloneRemote)
  (st : State) (s : jsstring) :
  fst (fst (runRcloneSync W r st)) = Returned s
  <-> rclonePath (settings st) <> [] /\ remoteTarget r <> []
      /\ exists v chunks d,
           getBasePath W = Some v /\ v <> []
           /\ child W (spawned st) (rclonePath (settings st))
                (bisync_args v (remoteTarget r))
              = Closes chunks (Some 0%Z) d
           /\ s = parse (stdout_of chunks ++ [newline] ++ stderr_of chunks) d.
Proof.
  split.
  - intros H.
    destruct (run_cases W r st) as [[m [_ E]] | [v [Hp [Hg [Hv [Ht E]]]]]];
      rewrite E in H; simpl in H; [discriminate|].
    split; [exact Hp|]. split; [exact Ht|].
    destruct (child W _ _ _) as [m|chunks code d] eqn:Hc; simpl in H;
      [discriminate|].
    destruct (code_is_zero code) eqn:Hz; [|discriminate].
    apply code_is_zero_iff in Hz. subst code. inversion H.
    exists v, chunks, d. auto.
  - intros [Hp [Ht [v [chunks [d [Hg [Hv [Hc ->]]]]]]]].
    rewrite (run_spawns W r st v Hp Hg Hv Ht). simpl. rewrite Hc. reflexivity.
Qed.

Lemma child_events_no_notice (b : ChildBehaviour) :
  filter is_notice (child_events b) = [].
Proof.
  destruct b as [m|chunks code d]; simpl; [reflexivity|].
  rewrite filter_app. simpl. rewrite app_nil_r.
  induction chunks as [|c chunks IH]; simpl; [reflexivity|].
  destruct c; exact IH.
Qed.

Lemma iteration_footprint (W : World) (r : RcloneRemote) (st st1 : State)
  o t :
  runRcloneSync W r st = (o, st1, t) ->
  spawned st1 = spawned st + List.length (spawns (t ++ catch_events o))
  /\ List.length (spawns (t ++ catch_events o)) <= 1
  /\ filter is_notice (t ++ catch_events o) = [].
Proof.
  intros H. rewrite spawns_app, filter_app.
  rewrite (spawns_none _ (catch_events_no_spawn o)), app_nil_r.
  assert (Hn : filter is_notice (catch_events o) = [])
    by (destruct o; reflexivity).
  rewrite Hn, app_nil_r.
  destruct (run_cases W r st) as [[m [_ E]] | [v [_ [_ [_ [_ E]]]]]];
    rewrite E in H; inversion H; subst; clear H; simpl.
  - repeat split; lia.
  - rewrite (spawns_none _ (child_events_no_spawn _)), child_events_no_notice.
    simpl. repeat split; lia.
Qed.

(** X5. One call of the runner leaves the settings, the status bar, the
    guard and the storage as they were; it spawns at most one child, the
    spawn counter advancing by the number of children spawned; and it shows
    no notice. *)
Theorem X5_runner_footprint (W : World) (r : RcloneRemote) (st : State) :
  settings (state_after (runRcloneSync W r st)) = settings st
  /\ statusBar (state_after (runRcloneSync W r st)) = statusBar st
  /\ isSyncing (state_after (runRcloneSync W r st)) = isSyncing st
  /\ storage (state_after (runRcloneSync W r st)) = storage st
  /\ spawned (state_after (runRcloneSync W r st))
     = spawned st + List.length (spawns (trace_of (runRcloneSync W r st)))
  /\ List.length (spawns (trace_of (runRcloneSync W r st))) <= 1
  /\ filter is_notice (trace_of (runRcloneSync W r st)) = [].
Proof.
  destruct (runRcloneSync W r st) as [[o st1] t] eqn:E.
  unfold state_after, trace_of. simpl.
  pose proof (run_frame W r st st1 o t E) as Hf.
  destruct (iteration_footprint W r st st1 o t E) as [H1 [H2 H3]].
  rewrite spawns_app, (spawns_none _ (catch_events_no_spawn o)), app_nil_r
    in H1, H2.
  rewrite filter_app in H3. apply app_eq_nil in H3. destruct H3 as [H3 _].
  rewrite Hf at 1 2 3 4. simpl. repeat split; assumption.
Qed.

Lemma Runs_footprint (W : World) st rs l st2 :
  Runs W st rs l st2 ->
  spawned st2 = spawned st + List.length (spawns (List.concat (map snd l)))
  /\ List.length (spawns (List.concat (map snd l))) <= List.length rs
  /\ filter is_notice (List.concat (map snd l)) = [].
Proof.
  induction 1 as [st | st r o st1 t rs l st2 Hr HR IH]; simpl.
  - repeat split; lia.
  - destruct (iteration_footprint W r st st1 o t Hr) as [H1 [H2 H3]].
    destruct IH as [I1 [I2 I3]].
    rewrite spawns_app, filter_app, length_app, H3, I3.
    repeat split; [lia | lia].
Qed.

Lemma statusBar_with_status (x : jsstring) (s : State) :
  statusBar (set_isSyncing false (with_status x s))
  = match statusBar s with
    | None => None
    | Some _ => Some (js "Rclone: " ++ x)
    end.
Proof.
  unfold with_status. destruct s as [x1 [b|] x3 x4 x5]; reflexivity.
Qed.

Lemma statusBar_running (st : State) :
  statusBar (running st)
  = match statusBar st with
    | None => None
    | Some _ => Some (js "Rclone: " ++ js "正在同步...")
    end.
Proof. unfold running. destruct st as [x1 [b|] x3 x4 x5]; reflexivity. Qed.

(** X6. A request never throws and shows exactly one notice, as its last
    event.  When it is served and the status bar exists, the bar ends on
    "success" or on "failure", never on "syncing"; a plugin without status
    bar stays without; a refused request leaves the bar as it is. *)
Theorem X6_one_notice_and_final_status (W : World) (st : State) :
  fst (fst (handleSync W st)) = Returned tt
  /\ List.length (filter is_notice (trace_of (handleSync W st))) = 1
  /\ (exists pre text, trace_of (handleSync W st) = pre ++ [Notice text])
  /\ (isSyncing st = true ->
      statusBar (state_after (handleSync W st)) = statusBar st)
  /\ (isSyncing st = false -> statusBar st = None ->
      statusBar (state_after (handleSync W st)) = None)
  /\ (isSyncing st = false -> statusBar st <> None ->
      statusBar (state_after (handleSync W st)) = Some (js "Rclone: 同步成功")
      \/ statusBar (state_after (handleSync W st))
         = Some (js "Rclone: 同步失败")).
Proof.
  unfold state_after, trace_of.
  destruct (isSyncing st) eqn:Hs.
  - rewrite (handleSync_busy W st Hs). cbn [fst snd].
    repeat split; try discriminate; try reflexivity.
    exists [], msg_already_syncing. reflexivity.
  - destruct (enabledRemotes (settings st)) as [|r0 rs] eqn:He.
    + rewrite (handleSync_no_enabled W st Hs He). cbn [fst snd].
      split; [reflexivity|]. split; [reflexivity|].
      split; [exists [ConsoleError msg_no_enabled]; eexists; reflexivity|].
      split; [discriminate|].
      rewrite statusBar_with_status, statusBar_running.
      destruct (statusBar st) as [b|]; split; intros _ Hb;
        try congruence; try reflexivity.
      right. reflexivity.
    + assert (Hne : enabledRemotes (settings st) <> [])
        by (rewrite He; discriminate).
      destruct (handleSync_completed W st Hs Hne) as [l [st2 [HR E]]].
      rewrite E. cbn [fst snd].
      destruct (Runs_footprint W _ _ _ _ HR) as [_ [_ Hn]].
      pose proof (Runs_frame W _ _ _ _ HR) as Hf.
      split; [reflexivity|].
      split; [rewrite filter_app, Hn; reflexivity|].
      split; [eexists; eexists; reflexivity|].
      split; [discriminate|].
      rewrite statusBar_with_status.
      assert (Hb2 : statusBar st2 = statusBar (running st))
        by (rewrite Hf; reflexivity).
      rewrite Hb2, statusBar_running.
      destruct (statusBar st) as [b|]; split; intros _ Hb;
        try congruence; try reflexivity.
      destruct (forallb success (map fst l)); [left | right]; reflexivity.
Qed.

Lemma finished_frame (x : jsstring) (s : State) :
  settings (set_isSyncing false (with_status x s)) = settings s
  /\ storage (set_isSyncing false (with_status x s)) = storage s
  /\ isSyncing (set_isSyncing false (with_status x s)) = false
  /\ spawned (set_isSyncing false (with_status x s)) = spawned s.
Proof.
  unfold with_status. destruct s as [x1 [b|] x3 x4 x5]; repeat split.
Qed.

(** X7. A request changes neither the settings nor the storage and
    leaves the guard as it found it.  It spawns at most one child per
    enabled target, and the spawn counter advances by the number of children
    spawned. *)
Theorem X7_run_footprint (W : World) (st : State) :
  settings (state_after (handleSync W st)) = settings st
  /\ storage (state_after (handleSync W st)) = storage st
  /\ isSyncing (state_after (handleSync W st)) = isSyncing st
  /\ spawned (state_after (handleSync W st))
     = spawned st + List.length (spawns (trace_of (handleSync W st)))
  /\ List.length (spawns (trace_of (handleSync W st)))
     <= List.length (enabledRemotes (settings st)).
Proof.
  unfold state_after, trace_of.
  destruct (isSyncing st) eqn:Hs.
  - rewrite (handleSync_busy W st Hs). cbn [fst snd]. simpl.
    repeat split; try lia. now rewrite Hs.
  - destruct (enabledRemotes (settings st)) as [|r0 rs] eqn:He.
    + rewrite (handleSync_no_enabled W st Hs He). cbn [fst snd].
      destruct (finished_frame (js "同步失败") (running st))
        as [H1 [H2 [H3 H4]]].
      rewrite H1, H2, H3, H4, settings_running, storage_running,
        spawned_running. simpl. repeat split; lia.
    + assert (Hne : enabledRemotes (settings st) <> [])
        by (rewrite He; discriminate).
      destruct (handleSync_completed W st Hs Hne) as [l [st2 [HR E]]].
      rewrite E. cbn [fst snd].
      destruct (Runs_footprint W _ _ _ _ HR) as [F1 [F2 _]].
      pose proof (Runs_frame W _ _ _ _ HR) as Hf.
      rewrite spawned_running in F1. rewrite He in F2.
      destruct (finished_frame
                  (if forallb success (map fst l)
                   then js "同步成功" else js "同步失败") st2)
        as [H1 [H2 [H3 H4]]].
      rewrite H1, H2, H3, H4.
      rewrite spawns_app, length_app. simpl. rewrite Nat.add_0_r.
      assert (Hset : settings st2 = settings st)
        by (rewrite Hf; simpl; apply settings_running).
      assert (Hsto : storage st2 = storage st)
        by (rewrite Hf; simpl; apply storage_running).
      repeat split; assumption.
Qed.

(** ** Start-up *)

Lemma enabledRemotes_empty (s : ObsidianRcloneBridgeSettings) :
  remotes_empty s = true -> enabledRemotes s = [].
Proof.
  unfold remotes_empty, enabledRemotes.
  destruct (remotes s) as [[|r l]|]; [reflexivity | discriminate | reflexivity].
Qed.

Lemma onload_eq (st : State) :
  onload st =
    (Returned tt,
     set_statusBar (Some (js "Rclone: " ++ js "就绪")) (loaded st),
     []).
Proof. reflexivity. Qed.

(** X8. Start-up with nothing configured, in a module that has just been
    evaluated (the array of the defaults is empty): when the stored
    [remotes] is absent, [null] or empty and both legacy fields are absent
    or empty, [onload] leaves the status bar on "ready", and the first sync
    request fails as a whole with the "enable at least one remote" notice:
    nothing is spawned and the bar ends on "failure". *)
Theorem X8_nothing_configured (W : World) (st : State) :
  isSyncing st = false ->
  defaultRemotes st = [] ->
  stored_remotes_absent_or_empty (storage st) = true ->
  opt_truthy (legacyRemoteName (storage st))
  || opt_truthy (legacyRemotePath (storage st)) = false ->
  statusBar (state_after (onload st)) = Some (js "Rclone: 就绪")
  /\ trace_of (handleSync W (state_after (onload st)))
     = [ConsoleError msg_no_enabled;
        Notice (js "同步失败: " ++ msg_no_enabled)]
  /\ statusBar (state_after (handleSync W (state_after (onload st))))
     = Some (js "Rclone: 同步失败").
Proof.
  intros Hs Hf He Hl. unfold state_after, trace_of. rewrite onload_eq.
  cbn [fst snd]. split; [reflexivity|].
  rewrite handleSync_no_enabled.
  - cbn [fst snd]. split; [reflexivity|].
    rewrite statusBar_with_status, statusBar_running. reflexivity.
  - exact Hs.
  - apply enabledRemotes_empty.
    change (remotes_empty (settings (loaded st)) = true).
    rewrite settings_loaded, (migrate_without_legacy _ _ Hl).
    rewrite remotes_empty_fresh; [exact He | intros _; exact Hf].
Qed.

Lemma X8_witness :
  trace_of (handleSync sample_world
              (state_after (onload (set_storage None sample_state))))
  = [ConsoleError msg_no_enabled;
     Notice (js "同步失败: " ++ msg_no_enabled)].
Proof.
  apply (X8_nothing_configured sample_world (set_storage None sample_state));
    reflexivity.
Defined.

(** ** The settings tab *)

Lemma trimStart_spec (s : jsstring) :
  exists a,
    s = a ++ trimStart s
    /\ Forall (fun c => is_space c = true) a
    /\ (trimStart s = []
        \/ exists c t, trimStart s = c :: t /\ is_space c = false).
Proof.
  induction s as [|c s [a [E [Ha Hh]]]].
  - exists []. repeat split; [constructor | now left].
  - simpl. destruct (is_space c) eqn:Hc.
    + exists (c :: a). split; [simpl; now rewrite <- E|].
      split; [now constructor | exact Hh].
    + exists []. split; [reflexivity|]. split; [constructor|].
      right. exists c, s. auto.
Qed.

Lemma trimEnd_spec (s : jsstring) :
  exists b,
    s = trimEnd s ++ b
    /\ Forall (fun c => is_space c = true) b
    /\ (trimEnd s = []
        \/ exists t c, trimEnd s = t ++ [c] /\ is_space c = false).
Proof.
  unfold trimEnd. destruct (trimStart_spec (rev s)) as [a [E [Ha Hh]]].
  exists (rev a). split; [|split].
  - rewrite <- rev_app_distr, <- E. now rewrite rev_involutive.
  - now apply Forall_rev.
  - destruct Hh as [->|[c [t [-> Hc]]]]; [now left|].
    right. exists (rev t), c. auto.
Qed.

Lemma trim_spec (s : jsstring) :
  exists a b,
    s = a ++ trim s ++ b
    /\ Forall (fun c => is_space c = true) a
    /\ Forall (fun c => is_space c = true) b
    /\ (trim s = []
        \/ (exists c t, trim s = c :: t /\ is_space c = false)
           /\ (exists t c, trim s = t ++ [c] /\ is_space c = false)).
Proof.
  unfold trim.
  destruct (trimStart_spec s) as [a [Ea [Ha Hh]]].
  destruct (trimEnd_spec (trimStart s)) as [b [Eb [Hb Hl]]].
  exists a, b. split; [now rewrite <- Eb|]. split; [exact Ha|].
  split; [exact Hb|].
  destruct Hl as [Hl|Hl]; [now left|]. right. split; [|exact Hl].
  destruct Hh as [Hh|[c [t [Hh Hc]]]].
  - rewrite Hh in *. destruct Hl as [t [c [Hl _]]]. rewrite Hl in Eb.
    destruct t; discriminate.
  - destruct (trimEnd (trimStart s)) as [|c' t'] eqn:Et.
    + destruct Hl as [t0 [c0 [Hl _]]]. destruct t0; discriminate.
    + exists c', t'. split; [reflexivity|].
      rewrite Hh in Eb. simpl in Eb. inversion Eb. now subst.
Qed.

Lemma trimStart_blank (s : jsstring) :
  Forall (fun c => is_space c = true) s -> trimStart s = [].
Proof.
  induction 1 as [|c s Hc _ IH]; simpl; [reflexivity|]. now rewrite Hc.
Qed.

Lemma trim_blank (s : jsstring) :
  Forall (fun c => is_space c = true) s -> trim s = [].
Proof. intros H. unfold trim. now rewrite (trimStart_blank s H). Qed.

Lemma failed_entries_spawns (m : jsstring) (rs : list RcloneRemote) :
  spawns (List.concat (map snd (map (failed_entry m) rs))) = [].
Proof. induction rs as [|r rs IH]; simpl; [reflexivity | exact IH]. Qed.

(** X9. Editing the executable path stores and saves the value without
    the white space around it: the stored path is what lies between a run
    of white space in front and one behind, and when it is not empty
    neither its first nor its last character is white space.  A value of
    white space only is stored as the empty path, so a sync requested
    afterwards spawns nothing. *)
Theorem X9_rclonePath_is_trimmed (value : jsstring) (st : State) :
  rclonePath (settings (state_after (rclonePath_onChange value st)))
  = trim value
  /\ storage (state_after (rclonePath_onChange value st))
     = Some (to_stored (settings (state_after (rclonePath_onChange value st))))
  /\ remotes (settings (state_after (rclonePath_onChange value st)))
     = remotes (settings st)
  /\ (exists a b,
        value = a ++ trim value ++ b
        /\ Forall (fun c => is_space c = true) a
        /\ Forall (fun c => is_space c = true) b
        /\ (trim value = []
            \/ (exists c t, trim value = c :: t /\ is_space c = false)
               /\ (exists t c, trim value = t ++ [c] /\ is_space c = false)))
  /\ (Forall (fun c => is_space c = true) value ->
      forall W,
        spawns (trace_of (handleSync W
                            (state_after (rclonePath_onChange value st))))
        = []).
Proof.
  split; [reflexivity|]. split; [reflexivity|]. split; [reflexivity|].
  split; [apply trim_spec|].
  intros Hv W.
  assert (Hb : List.length
                 (spawns (trace_of (handleSync W
                            (state_after (rclonePath_onChange value st)))))
               = 0).
  { set (st1 := state_after (rclonePath_onChange value st)).
    assert (Hp : rclonePath (settings st1) = [])
      by (unfold st1; simpl; now apply trim_blank).
    unfold trace_of. destruct (isSyncing st1) eqn:Hs.
    - rewrite (handleSync_busy W st1 Hs). reflexivity.
    - destruct (enabledRemotes (settings st1)) as [|r0 rs] eqn:He.
      + rewrite (handleSync_no_enabled W st1 Hs He). reflexivity.
      + assert (Hne : enabledRemotes (settings st1) <> [])
          by (rewrite He; discriminate).
        destruct (handleSync_completed W st1 Hs Hne) as [l [st2 [HR E]]].
        rewrite E. cbn [snd].
        destruct (Runs_no_executable W _ _ _ _ HR) as [Hl _];
          [rewrite settings_running; exact Hp|].
        rewrite spawns_app, Hl, failed_entries_spawns. reflexivity. }
  destruct (spawns _); [reflexivity | discriminate].
Qed.

Lemma X9_witness :
  spawns (trace_of (handleSync sample_world state_blank_path_typed)) = [].
Proof.
  destruct (X9_rclonePath_is_trimmed (js "   ") sample_state)
    as [_ [_ [_ [_ H]]]].
  apply H. repeat constructor.
Defined.

Lemma splice1_nth (l : list RcloneRemote) :
  forall i j,
  nth_error (splice1 i l) j
  = if Nat.ltb j i then nth_error l j else nth_error l (S j).
Proof.
  induction l as [|x l IH]; intros i j.
  - destruct i as [|i]; simpl; [destruct j; reflexivity|].
    destruct (Nat.ltb j (S i)); destruct j; reflexivity.
  - destruct i as [|i]; simpl; [reflexivity|].
    destruct j as [|j]; [reflexivity|]. simpl. rewrite IH.
    change (Nat.ltb (S j) (S i)) with (Nat.ltb j i). reflexivity.
Qed.

Lemma splice1_length (l : list RcloneRemote) :
  forall i,
  List.length (splice1 i l)
  = if Nat.ltb i (List.length l) then List.length l - 1 else List.length l.
Proof.
  induction l as [|x l IH]; intros i; [destruct i; reflexivity|].
  destruct i as [|i]; simpl; [now rewrite Nat.sub_0_r|].
  rewrite IH. change (Nat.ltb (S i) (S (List.length l)))
    with (Nat.ltb i (List.length l)).
  destruct (Nat.ltb_spec i (List.length l)); [|reflexivity]. lia.
Qed.

Lemma splice1_last (l : list RcloneRemote) (x : RcloneRemote) :
  splice1 (List.length l) (l ++ [x]) = l.
Proof. induction l as [|y l IH]; simpl; [reflexivity | now rewrite IH]. Qed.

Lemma update_at_nth (f : RcloneRemote -> RcloneRemote)
  (l : list RcloneRemote) :
  forall i j,
  nth_error (update_at i f l) j
  = if Nat.eqb j i then option_map f (nth_error l j) else nth_error l j.
Proof.
  induction l as [|x l IH]; intros i j.
  - destruct i as [|i]; simpl; [destruct j; reflexivity|].
    destruct (Nat.eqb j (S i)); destruct j; reflexivity.
  - destruct i as [|i]; destruct j as [|j]; simpl; try reflexivity.
    apply IH.
Qed.

Lemma update_at_length (f : RcloneRemote -> RcloneRemote)
  (l : list RcloneRemote) :
  forall i, List.length (update_at i f l) = List.length l.
Proof.
  induction l as [|x l IH]; intros i; [destruct i; reflexivity|].
  destruct i; simpl; [reflexivity | now rewrite IH].
Qed.

(** X10. The trash button removes exactly the row it belongs to: the rows
    before it keep their place, the rows after it move up by one, an index
    past the end removes nothing, and the list is saved.  Adding a remote
    appends a blank enabled row; removing that row again gives back the
    settings as they were. *)
Theorem X10_trash_and_add (st : State) (l : list RcloneRemote) (i : nat) :
  remotes (settings st) = Some l ->
  (exists l',
     remotes (settings (state_after (trash_onClick i st))) = Some l'
     /\ (forall j, nth_error l' j
                   = if Nat.ltb j i then nth_error l j
                     else nth_error l (S j))
     /\ List.length l'
        = (if Nat.ltb i (List.length l) then List.length l - 1
           else List.length l)
     /\ storage (state_after (trash_onClick i st))
        = Some (to_stored (settings (state_after (trash_onClick i st)))))
  /\ remotes (settings (state_after (add_onClick st)))
     = Some (l ++ [ {| name := []; path := []; enable := true |} ])
  /\ settings (state_after
                 (trash_onClick (List.length l)
                    (state_after (add_onClick st))))
     = settings st.
Proof.
  intros Hl. unfold state_after, trash_onClick, add_onClick, bind, get,
    modify, saveSettings, in_place.
  simpl. rewrite Hl. simpl.
  destruct (sharesDefault st) eqn:Hsh; simpl; rewrite ?Hsh; simpl;
    (split; [|split]);
    try (exists (splice1 i l); split; [reflexivity|];
         split; [apply splice1_nth|];
         split; [apply splice1_length | reflexivity]);
    try reflexivity;
    rewrite splice1_last; unfold with_remotes; simpl; rewrite <- Hl;
    destruct (settings st); reflexivity.
Qed.

Lemma X10_witness :
  remotes (settings (state_after (trash_onClick 1 sample_state)))
  = Some [remote_a; remote_c].
Proof.
  destruct (X10_trash_and_add sample_state [remote_a; remote_b; remote_c] 1)
    as [[l' [E [Hn [Hlen _]]]] _]; [reflexivity|].
  rewrite E. f_equal.
  destruct l' as [|x [|y [|z l']]]; try discriminate.
  pose proof (Hn 0) as H0. pose proof (Hn 1) as H1. simpl in H0, H1.
  inversion H0. inversion H1. reflexivity.
Defined.

(** X11. An edit of a row touches that row only: after the name, the path
    or the switch of row [i] is changed, the list has the same length, every
    other row is as it was, and row [i] differs from what it was in the
    edited field alone, names and paths being stored without the white
    space around them; the list is saved. *)
Theorem X11_row_edits (st : State) (l : list RcloneRemote) (i : nat)
  (r : RcloneRemote) (value : jsstring) (flag : bool) :
  remotes (settings st) = Some l ->
  nth_error l i = Some r ->
  (exists l',
     remotes (settings (state_after (name_onChange i value st))) = Some l'
     /\ List.length l' = List.length l
     /\ nth_error l' i
        = Some {| name := trim value; path := path r; enable := enable r |}
     /\ (forall j, j <> i -> nth_error l' j = nth_error l j)
     /\ storage (state_after (name_onChange i value st))
        = Some (to_stored (settings (state_after (name_onChange i value st)))))
  /\ (exists l',
        remotes (settings (state_after (path_onChange i value st))) = Some l'
        /\ List.length l' = List.length l
        /\ nth_error l' i
           = Some {| name := name r; path := trim value; enable := enable r |}
        /\ (forall j, j <> i -> nth_error l' j = nth_error l j)
        /\ storage (state_after (path_onChange i value st))
           = Some (to_stored
                     (settings (state_after (path_onChange i value st)))))
  /\ (exists l',
        remotes (settings (state_after (enable_onChange i flag st))) = Some l'
        /\ List.length l' = List.length l
        /\ nth_error l' i
           = Some {| name := name r; path := path r; enable := flag |}
        /\ (forall j, j <> i -> nth_error l' j = nth_error l j)
        /\ storage (state_after (enable_onChange i flag st))
           = Some (to_stored
                     (settings (state_after (enable_onChange i flag st))))).
Proof.
  intros Hl Hr.
  assert (Hedit : forall f,
            exists l',
              remotes (settings (state_after (edit_remote i f st))) = Some l'
              /\ List.length l' = List.length l
              /\ nth_error l' i = Some (f r)
              /\ (forall j, j <> i -> nth_error l' j = nth_error l j)
              /\ storage (state_after (edit_remote i f st))
                 = Some (to_stored
                           (settings (state_after (edit_remote i f st))))).
  { intros f. unfold state_after, edit_remote, bind, get, modify,
      saveSettings, in_place. simpl. rewrite Hl. simpl.
    exists (update_at i f l).
    split; [destruct (sharesDefault st); reflexivity|].
    split; [apply update_at_length|].
    split; [|split; [|destruct (sharesDefault st); reflexivity]].
    - rewrite update_at_nth, Nat.eqb_refl, Hr. reflexivity.
    - intros j Hj. rewrite update_at_nth.
      apply Nat.eqb_neq in Hj. now rewrite Hj. }
  split; [apply Hedit|]. split; apply Hedit.
Qed.

Lemma X11_witness :
  exists l',
    remotes (settings (state_after
                         (name_onChange 2 (js "  box ") sample_state)))
    = Some l'
    /\ nth_error l' 2
       = Some {| name := js "box"; path := js "y"; enable := true |}.
Proof.
  destruct (X11_row_edits sample_state [remote_a; remote_b; remote_c] 2
              remote_c (js "  box ") true)
    as [[l' [E [_ [Hn _]]]] _]; [reflexivity | reflexivity |].
  exists l'. split; [exact E|]. rewrite Hn. reflexivity.
Defined.

(** ** What the settings tab saves, loaded back *)

Lemma in_place_eq (l : option (list RcloneRemote)) (st : State) :
  exists d,
    in_place l st
    = set_defaultRemotes d (set_settings (with_remotes l (settings st)) st).
Proof.
  unfold in_place. destruct l as [rows|].
  - destruct (sharesDefault st).
    + exists rows. reflexivity.
    + exists (defaultRemotes st). reflexivity.
  - exists (defaultRemotes st). reflexivity.
Qed.

Lemma perform_spec (a : TabAction) (st : State) :
  (exists s' d,
     perform a st
     = (Returned tt,
        set_storage (Some (to_stored s'))
          (set_defaultRemotes d (set_settings s' st)), [])
     /\ remoteName s' = remoteName (settings st)
     /\ remotePath s' = remotePath (settings st))
  \/ (exists m, perform a st = (Thrown m, st, [])).
Proof.
  assert (Hedit : forall i f,
            exists s' d,
              edit_remote i f st
              = (Returned tt,
                 set_storage (Some (to_stored s'))
                   (set_defaultRemotes d (set_settings s' st)), [])
              /\ remoteName s' = remoteName (settings st)
              /\ remotePath s' = remotePath (settings st)).
  { intros i f. unfold edit_remote, bind, modify, saveSettings, get.
    cbn [fst snd app].
    destruct (in_place_eq
                (option_map (update_at i f) (remotes (settings st))) st)
      as [d E].
    rewrite E. eexists. exists d. split; [reflexivity|].
    split; reflexivity. }
  destruct a as [v|i v|i v|i v|i|]; simpl.
  - left. eexists. exists (defaultRemotes st).
    split; [reflexivity|]. split; reflexivity.
  - left. apply Hedit.
  - left. apply Hedit.
  - left. apply Hedit.
  - unfold trash_onClick, bind, get, modify, saveSettings. cbn [fst snd app].
    destruct (remotes (settings st)) as [l|]; [left | right].
    + cbn [fst snd app].
      destruct (in_place_eq (Some (splice1 i l)) st) as [d E]. rewrite E.
      eexists. exists d. split; [reflexivity|]. split; reflexivity.
    + eexists. reflexivity.
  - unfold add_onClick, bind, get, modify, saveSettings. cbn [fst snd app].
    destruct (remotes (settings st)) as [l|]; [left | right].
    + cbn [fst snd app].
      destruct (in_place_eq
                  (Some (l ++ [ {| name := []; path := [];
                                   enable := true |} ])) st) as [d E].
      rewrite E. eexists. exists d. split; [reflexivity|]. split; reflexivity.
    + eexists. reflexivity.
Qed.

Lemma perform_all_spec (actions : list TabAction) :
  forall st st' t,
  perform_all actions st = (Returned tt, st', t) ->
  t = []
  /\ remoteName (settings st') = remoteName (settings st)
  /\ remotePath (settings st') = remotePath (settings st)
  /\ statusBar st' = statusBar st
  /\ isSyncing st' = isSyncing st
  /\ spawned st' = spawned st
  /\ (actions <> [] -> storage st' = Some (to_stored (settings st'))).
Proof.
  induction actions as [|a rest IH]; intros st st' t H.
  - inversion H; subst. repeat split. congruence.
  - simpl in H. unfold bind in H.
    destruct (perform_spec a st) as [[s' [d [E [Hn Hp]]]] | [m E]];
      rewrite E in H; [|discriminate].
    destruct (perform_all rest _) as [[o st2] t2] eqn:E2.
    inversion H; subst. clear H.
    destruct (IH _ _ _ E2) as [Ht [H1 [H2 [H3 [H4 [H5 H6]]]]]].
    simpl in *.
    repeat split; try congruence.
    intros _. destruct rest as [|b rest]; [|apply H6; discriminate].
    inversion E2; subst. reflexivity.
Qed.

(** X12. Whatever the user does in the settings tab, the last action
    that went through has saved the settings, and none of them spawns or
    shows anything.  Loading what was saved gives the same settings back,
    with one exception: when the list of remotes has been emptied while the
    settings still carry a non-empty legacy field, the load installs the
    legacy target again. *)
Theorem X12_saved_settings_load_back (actions : list TabAction)
  (st st' : State) (t : list Event) :
  actions <> [] ->
  perform_all actions st = (Returned tt, st', t) ->
  t = []
  /\ storage st' = Some (to_stored (settings st'))
  /\ spawned st' = spawned st
  /\ (remotes_empty (settings st') && has_legacy (settings st') = false ->
      settings (loaded st') = settings st')
  /\ (remotes_empty (settings st') && has_legacy (settings st') = true ->
      remotes (settings (loaded st')) = Some [legacy_target (settings st')]).
Proof.
  intros Hne H.
  destruct (perform_all_spec actions st st' t H)
    as [Ht [_ [_ [_ [_ [Hsp Hsto]]]]]].
  specialize (Hsto Hne).
  split; [exact Ht|]. split; [exact Hsto|]. split; [exact Hsp|].
  rewrite (settings_loaded_saved st' _ Hsto).
  unfold migrate, migrates, has_legacy.
  cbn [legacyRemoteName legacyRemotePath to_stored stored_remoteName
       stored_remotePath].
  split; intros Hc; rewrite Hc; reflexivity.
Qed.

Lemma X12_witness :
  remotes (settings state_migrated)
  = Some [ {| name := js "onedrive"; path := js "vault"; enable := true |} ]
  /\ remotes (settings (state_after (perform_all [Trash 0] state_migrated)))
     = Some []
  /\ remotes (settings (loaded (state_after
                                  (perform_all [Trash 0] state_migrated))))
     = Some [ {| name := js "onedrive"; path := js "vault"; enable := true |} ].
Proof.
  split; [reflexivity|]. split; [reflexivity|].
  destruct (X12_saved_settings_load_back [Trash 0] state_migrated
              (state_after (perform_all [Trash 0] state_migrated)) [])
    as [_ [_ [_ [_ H]]]]; [discriminate | reflexivity |].
  rewrite H; reflexivity.
Defined.

(** ** A row just added *)

Lemma forallb_success_false (results : list SyncResult) (x : SyncResult) :
  In x results -> success x = false -> forallb success results = false.
Proof.
  intros Hin Hx. apply not_all_success. apply Exists_exists. eauto.
Qed.

(** X13. A sync requested right after a remote was added, its row still
    blank: the blank row is run last and recorded as failed at one of the
    runner's checks, without any child; the notice lists it as the unnamed
    target with that error, and the status bar ends on "failure" whatever
    the other targets did. *)
Theorem X13_blank_row_fails (W : World) (st : State)
  (l : list RcloneRemote) :
  isSyncing st = false ->
  remotes (settings st) = Some l ->
  enabledRemotes (settings (state_after (add_onClick st)))
  = enabledRemotes (settings st) ++ [blank_remote]
  /\ exists entries st2 m,
       Runs W (running (state_after (add_onClick st)))
         (enabledRemotes (settings st) ++ [blank_remote]) entries st2
       /\ is_precheck_message m
       /\ nth_error entries (List.length (enabledRemotes (settings st)))
          = Some (failed_entry m blank_remote)
       /\ (exists pre text,
             trace_of (handleSync W (state_after (add_onClick st)))
             = pre ++ [Notice text]
             /\ part_of (js "(未命名): 失败: " ++ m) text)
       /\ (statusBar st <> None ->
           statusBar (state_after
                        (handleSync W (state_after (add_onClick st))))
           = Some (js "Rclone: 同步失败")).
Proof.
  intros Hs Hl.
  set (st1 := state_after (add_onClick st)).
  assert (Hst1 : exists d,
            st1 = set_storage
                    (Some (to_stored
                             (with_remotes (Some (l ++ [blank_remote]))
                                (settings st))))
                    (set_defaultRemotes d
                       (set_settings
                          (with_remotes (Some (l ++ [blank_remote]))
                             (settings st)) st))).
  { unfold st1, state_after, add_onClick, bind, get, modify, saveSettings.
    cbn [fst snd]. rewrite Hl. cbn [fst snd].
    destruct (in_place_eq (Some (l ++ [blank_remote])) st) as [d E].
    exists d. unfold blank_remote in E. rewrite E. reflexivity. }
  destruct Hst1 as [d Hst1].
  assert (He : enabledRemotes (settings st1)
               = enabledRemotes (settings st) ++ [blank_remote]).
  { rewrite Hst1. unfold enabledRemotes. simpl. rewrite Hl.
    rewrite filter_app. reflexivity. }
  assert (Hs1 : isSyncing st1 = false) by (rewrite Hst1; exact Hs).
  assert (Hbar : statusBar st1 = statusBar st) by (rewrite Hst1; reflexivity).
  split; [exact He|].
  assert (Hne : enabledRemotes (settings st1) <> []).
  { rewrite He. destruct (enabledRemotes (settings st)); discriminate. }
  destruct (handleSync_completed W st1 Hs1 Hne) as [entries [st2 [HR E]]].
  rewrite He in HR.
  assert (Hnth : nth_error (enabledRemotes (settings st) ++ [blank_remote])
                   (List.length (enabledRemotes (settings st)))
                 = Some blank_remote).
  { rewrite nth_error_app2, Nat.sub_diag; [reflexivity | lia]. }
  destruct (Runs_nth W _ _ _ _ HR _ _ Hnth) as [n [o [s' [t [Hrun Hent]]]]].
  destruct (run_cases W blank_remote (set_spawned n (running st1)))
    as [[m [Hm Em]] | [v [_ [_ [_ [Hcontra _]]]]]];
    [| exfalso; apply Hcontra; reflexivity].
  rewrite Em in Hrun. inversion Hrun; subst o s' t. clear Hrun.
  exists entries, st2, m.
  split; [exact HR|]. split; [exact Hm|]. split; [exact Hent|].
  assert (Hin : In {| remote := blank_remote; success := false;
                      summary := js "失败: " ++ m |} (map fst entries)).
  { apply nth_error_In in Hent.
    apply (in_map fst) in Hent. exact Hent. }
  split.
  - exists (List.concat (map snd entries)),
      (completionNotice (overallDurationSec W) (map fst entries)).
    unfold trace_of. rewrite E. split; [reflexivity|].
    unfold completionNotice, part_of.
    apply (join_In [newline]
             (resultLine {| remote := blank_remote; success := false;
                            summary := js "失败: " ++ m |})).
    right. apply in_map. exact Hin.
  - intros Hb. unfold state_after. rewrite E. cbn [fst snd].
    rewrite statusBar_with_status.
    rewrite (forallb_success_false _ _ Hin eq_refl).
    pose proof (Runs_frame W _ _ _ _ HR) as Hf.
    assert (Hb2 : statusBar st2 = statusBar (running st1))
      by (rewrite Hf; reflexivity).
    rewrite Hb2, statusBar_running, Hbar.
    destruct (statusBar st); [reflexivity | congruence].
Qed.

Lemma X13_witness :
  exists entries st2 m,
    Runs sample_world (running (state_after (add_onClick sample_state)))
      ([remote_a; remote_c] ++ [blank_remote]) entries st2
    /\ is_precheck_message m
    /\ nth_error entries 2 = Some (failed_entry m blank_remote).
Proof.
  destruct (X13_blank_row_fails sample_world sample_state
              [remote_a; remote_b; remote_c])
    as [_ [entries [st2 [m [H1 [H2 [H3 _]]]]]]]; [reflexivity | reflexivity |].
  exists entries, st2, m. split; [exact H1|]. split; [exact H2 | exact H3].
Defined.

(** ** The single-target version against the migrated settings *)

Lemma set_spawned_same (st : State) : set_spawned (spawned st) st = st.
Proof. destruct st; reflexivity. Qed.

(** On states that agree on the spawn counter, the runner of the
    single-target version and the runner on the target made of the same
    name and path leave the same trace and counter, and succeed
    together. *)
Lemma legacy_run_related (W : World) (s : Legacy.Settings)
  (r : RcloneRemote) (X Y : State) :
  rclonePath (settings X) = Legacy.rclonePath s ->
  name r = Legacy.remoteName s ->
  path r = Legacy.remotePath s ->
  spawned X = spawned Y ->
  exists o o' n t,
    runRcloneSync W r X = (o, set_spawned n X, t)
    /\ Legacy.runRcloneSync W s Y = (o', set_spawned n Y, t)
    /\ (o' = Returned tt <-> exists x, o = Returned x).
Proof.
  intros Hp Hn Hpa Hsp.
  assert (Ht : Legacy.remoteTarget s = remoteTarget r).
  { unfold Legacy.remoteTarget, remoteTarget. now rewrite Hn, Hpa. }
  unfold Legacy.runRcloneSync. rewrite Ht.
  destruct (list_eq_dec N.eq_dec (Legacy.rclonePath s) []) as [E|E].
  - assert (E0 : rclonePath (settings X) = []) by (rewrite Hp; exact E).
    rewrite (run_no_rclonePath W r X E0). rewrite E. simpl.
    exists (Thrown msg_no_rclonePath), (Thrown msg_no_rclonePath),
      (spawned X), [].
    rewrite set_spawned_same, Hsp, set_spawned_same.
    repeat split; try discriminate. intros [x Hx]. discriminate.
  - assert (E' : rclonePath (settings X) <> []) by (rewrite Hp; exact E).
    pose proof E as Et. apply truthy_true in Et. rewrite Et. simpl.
    destruct (opt_truthy (getBasePath W)) eqn:Hv.
    + destruct (getBasePath W) as [v|] eqn:Hg; [|discriminate].
      simpl in Hv. rewrite Hv. simpl. pose proof Hv as Hv'.
      apply truthy_true in Hv'.
      destruct (list_eq_dec N.eq_dec (remoteTarget r) []) as [T|T].
      * assert (Hvt : opt_truthy (getBasePath W) = true)
          by (rewrite Hg; exact Hv).
        rewrite (run_no_remoteTarget W r X E' Hvt T).
        rewrite T. simpl.
        exists (Thrown msg_no_remoteTarget), (Thrown msg_no_remoteTarget),
          (spawned X), [].
        rewrite set_spawned_same, Hsp, set_spawned_same.
        repeat split; try discriminate. intros [x Hx]. discriminate.
      * rewrite (run_spawns W r X v E' Hg Hv' T).
        pose proof T as Tt. apply truthy_true in Tt. rewrite Tt. simpl.
        unfold bind, spawn, emit, emit_all, throw, ret. simpl.
        rewrite <- Hp, <- Hsp.
        destruct (child W (spawned X) (rclonePath (settings X))
                    (bisync_args v (remoteTarget r)))
          as [m|chunks code d]; simpl.
        -- exists (Thrown m), (Thrown m), (S (spawned X)),
             [Spawn (rclonePath (settings X))
                (bisync_args v (remoteTarget r)) false; ChildError m].
           rewrite Hsp. repeat split; try discriminate.
           intros [x Hx]. discriminate.
        -- destruct (code_is_zero code); simpl; rewrite ?app_nil_r.
           ++ eexists. exists (Returned tt), (S (spawned X)). eexists.
              rewrite Hsp. repeat split; eauto.
           ++ eexists. eexists. exists (S (spawned X)). eexists.
              rewrite Hsp. repeat split; try discriminate.
              intros [x Hx]. discriminate.
    + rewrite (run_no_vaultPath W r X E' Hv).
      exists (Thrown msg_no_vaultPath), (Thrown msg_no_vaultPath),
        (spawned X), [].
      rewrite set_spawned_same, Hsp, set_spawned_same.
      destruct (getBasePath W) as [v|]; simpl in *; [rewrite Hv|];
        repeat split; try discriminate; intros [x Hx]; discriminate.
Qed.

Lemma legacy_handleSync_idle (W : World) (s : Legacy.Settings) (st st1 : State)
  (o : outcome unit) (t : list Event) :
  isSyncing st = false ->
  Legacy.runRcloneSync W s (running st) = (o, st1, t) ->
  Legacy.handleSync W s st =
    (Returned tt,
     set_isSyncing false
       (with_status
          (match o with
           | Returned _ => js "同步成功"
           | Thrown _ => js "同步失败"
           end) st1),
     t ++ match o with
          | Returned _ => [Notice (js "同步成功 ✅")]
          | Thrown m => [ConsoleError m; Notice (js "同步失败: " ++ m)]
          end).
Proof.
  intros Hs Hr. unfold Legacy.handleSync, bind at 1, get. rewrite Hs.
  assert (Hstart : forall k : M unit,
            (modify (set_isSyncing true) ;;
             updateStatus (js "正在同步...") ;; k) st
            = k (running st)).
  { intros k. unfold bind, modify, updateStatus, running. simpl.
    destruct (statusBar st); simpl; destruct (k _) as [[o0 s0] t0];
      reflexivity. }
  rewrite Hstart. unfold try_finally, try_catch, bind at 1. rewrite Hr.
  destruct o as [[]|m]; unfold bind, updateStatus, modify, emit, with_status;
    simpl; rewrite ?app_nil_r; reflexivity.
Qed.

Lemma spawns_tail_none (t tail : list Event) :
  Forall (fun e => is_spawn e = false) tail -> spawns (t ++ tail) = spawns t.
Proof.
  intros H. rewrite spawns_app, (spawns_none _ H). apply app_nil_r.
Qed.

(** X14. For a blob written by the single-target version (no list of
    remotes in it), a sync by the multi-target version after its load does
    to the outside what a sync by the single-target version does: the
    same children are spawned with the same command and argv, the status
    bar ends on the same text, the spawn counter ends on the same number,
    and both leave the guard free.  The load takes the array of the
    defaults when the blob has no [remotes]; that array is empty, as it is
    in a module that has just been evaluated. *)
Theorem X14_migration_preserves_behaviour (W : World) (st : State) :
  isSyncing st = false ->
  stored_remotes_absent_or_empty (storage st) = true ->
  (takes_default_remotes (storage st) = true -> defaultRemotes st = []) ->
  spawns (trace_of (handleSync W (loaded st)))
  = spawns (trace_of (Legacy.handleSync W
                        (Legacy.loadSettings (storage st)) st))
  /\ statusBar (state_after (handleSync W (loaded st)))
     = statusBar (state_after (Legacy.handleSync W
                                 (Legacy.loadSettings (storage st)) st))
  /\ spawned (state_after (handleSync W (loaded st)))
     = spawned (state_after (Legacy.handleSync W
                               (Legacy.loadSettings (storage st)) st))
  /\ isSyncing (state_after (handleSync W (loaded st))) = false
  /\ isSyncing (state_after (Legacy.handleSync W
                               (Legacy.loadSettings (storage st)) st))
     = false.
Proof.
  intros Hs He Hf.
  set (s := Legacy.loadSettings (storage st)).
  set (new := loaded st).
  assert (Hset : settings new
                 = migrate (storage st)
                     (assign_defaults (defaults_in st) (storage st)))
    by reflexivity.
  assert (Hempty : remotes_empty
                     (assign_defaults (defaults_in st) (storage st)) = true)
    by (rewrite (remotes_empty_fresh st Hf); exact He).
  assert (Hsn : isSyncing new = false) by exact Hs.
  assert (Hp : rclonePath (settings (running new)) = Legacy.rclonePath s).
  { rewrite settings_running, Hset. unfold s, migrate.
    destruct (migrates _ _); destruct (storage st) as [d|]; reflexivity. }
  assert (Hname : Legacy.remoteName s
                  = opt_or_empty (legacyRemoteName (storage st))).
  { unfold s. destruct (storage st) as [d|]; [|reflexivity]. simpl.
    destruct (stored_remoteName d); reflexivity. }
  assert (Hpath : Legacy.remotePath s
                  = opt_or_empty (legacyRemotePath (storage st))).
  { unfold s. destruct (storage st) as [d|]; [|reflexivity]. simpl.
    destruct (stored_remotePath d); reflexivity. }
  assert (Hsp : spawned (running new) = spawned (running st))
    by (rewrite !spawned_running; reflexivity).
  destruct (legacy_run_related W s (legacy_remote s) (running new)
              (running st) Hp eq_refl eq_refl Hsp)
    as [o [o' [n [t [Rnew [Rold Hrel]]]]]].
  rewrite (legacy_handleSync_idle W s st _ o' t Hs Rold).
  unfold state_after, trace_of. cbn [fst snd].
  assert (Hbar : statusBar new = statusBar st) by reflexivity.
  destruct (opt_truthy (legacyRemoteName (storage st))
            || opt_truthy (legacyRemotePath (storage st))) eqn:Hl.
  - (* the legacy target was installed *)
    assert (Hen : enabledRemotes (settings new) = [legacy_remote s]).
    { unfold enabledRemotes. rewrite Hset.
      rewrite migrate_synthesizes
        by (unfold migrates; rewrite Hempty; exact Hl).
      simpl. unfold legacy_remote. now rewrite Hname, Hpath. }
    assert (Hne : enabledRemotes (settings new) <> [])
      by (rewrite Hen; discriminate).
    destruct (handleSync_completed W new Hsn Hne) as [l [st2 [HR E]]].
    rewrite Hen in HR.
    inversion HR as [| ? ? o0 st1 t0 ? l0 ? Hrun Hrest]; subst.
    inversion Hrest; subst. rewrite Rnew in Hrun. inversion Hrun; subst.
    rewrite E. cbn [fst snd map List.concat forallb].
    rewrite app_nil_r, andb_true_r.
    destruct (finished_frame
                (if success (result_of (legacy_remote s) o0)
                 then js "同步成功" else js "同步失败")
                (set_spawned n (running new))) as [_ [_ [F3 F4]]].
    destruct (finished_frame
                (match o' with
                 | Returned _ => js "同步成功"
                 | Thrown _ => js "同步失败"
                 end) (set_spawned n (running st))) as [_ [_ [G3 G4]]].
    rewrite F3, F4, G3, G4, !statusBar_with_status.
    cbn [statusBar set_spawned]. rewrite !statusBar_running, Hbar.
    split.
    { rewrite (spawns_tail_none (t0 ++ catch_events o0))
        by repeat constructor.
      rewrite (spawns_tail_none t0 (catch_events o0))
        by apply catch_events_no_spawn.
      rewrite (spawns_tail_none t0)
        by (destruct o'; repeat constructor).
      reflexivity. }
    split; [|repeat split].
    destruct (statusBar st); [|reflexivity].
    destruct o0 as [x|m]; destruct o' as [[]|m']; simpl; try reflexivity.
    + destruct Hrel as [_ H]. specialize (H (ex_intro _ x eq_refl)).
      discriminate.
    + destruct Hrel as [H _]. destruct (H eq_refl) as [x Hx]. discriminate.
  - (* nothing to migrate: no target on either side *)
    assert (Hen : enabledRemotes (settings new) = []).
    { apply enabledRemotes_empty.
      rewrite Hset, (migrate_without_legacy _ _ Hl). exact Hempty. }
    rewrite (handleSync_no_enabled W new Hsn Hen). cbn [fst snd].
    assert (Hblank : remoteTarget (legacy_remote s) = []).
    { apply orb_false_iff in Hl. destruct Hl as [L1 L2].
      unfold remoteTarget, legacy_remote. simpl. rewrite Hname, Hpath.
      destruct (legacyRemoteName (storage st)) as [[|c nm]|];
        destruct (legacyRemotePath (storage st)) as [[|c' pa]|];
        try discriminate; reflexivity. }
    destruct (run_cases W (legacy_remote s) (running new))
      as [[m [_ Em]] | [v [_ [_ [_ [Hcontra _]]]]]]; [|contradiction].
    rewrite Em in Rnew. inversion Rnew as [[Ho Hst Ht]]. subst o t.
    assert (Hn : n = spawned (running new)).
    { apply (f_equal spawned) in Hst. simpl in Hst. now symmetry. }
    destruct o' as [[]|m'].
    { destruct Hrel as [H _]. destruct (H eq_refl) as [x Hx]. discriminate. }
    destruct (finished_frame (js "同步失败") (running new))
      as [_ [_ [F3 F4]]].
    destruct (finished_frame (js "同步失败") (set_spawned n (running st)))
      as [_ [_ [G3 G4]]].
    rewrite F3, F4, G3, G4, !statusBar_with_status.
    cbn [statusBar set_spawned]. rewrite !statusBar_running, Hbar, Hn.
    rewrite !spawned_running. repeat split; reflexivity.
Qed.

Lemma X14_witness :
  spawns (trace_of (handleSync sample_world
                      (loaded (set_storage (Some legacy_onedrive)
                                 sample_state))))
  = [ Spawn (js "/usr/bin/rclone")
        [js "bisync"; js "/home/me/vault"; js "onedrive:vault";
         js "--verbose"; js "--resync"] false ]
  /\ spawns (trace_of (handleSync sample_world
                         (loaded (set_storage (Some legacy_onedrive)
                                    sample_state))))
     = spawns (trace_of (Legacy.handleSync sample_world
                           (Legacy.loadSettings (Some legacy_onedrive))
                           (set_storage (Some legacy_onedrive)
                              sample_state))).
Proof.
  split; [vm_compute; reflexivity|].
  apply (X14_migration_preserves_behaviour sample_world
           (set_storage (Some legacy_onedrive) sample_state));
    reflexivity.
Defined.

(** ** The array of the defaults *)

Lemma sharesDefault_loaded (st : State) :
  sharesDefault (loaded st)
  = takes_default_remotes (storage st)
    && negb (migrates (storage st)
               (assign_defaults (defaults_in st) (storage st))).
Proof. reflexivity. Qed.

Lemma remotes_assign_default (defaults : ObsidianRcloneBridgeSettings)
  (data : option StoredData) :
  takes_default_remotes data = true ->
  remotes (assign_defaults defaults data) = remotes defaults.
Proof.
  unfold takes_default_remotes. destruct data as [d|]; [|reflexivity].
  simpl. destruct (stored_remotes d); [discriminate | reflexivity].
Qed.

(** X15. The array of the defaults is shared.  After a load that found no
    [remotes] in the storage and had no legacy field to migrate, the
    settings hold the array of [DEFAULT_SETTINGS] itself, so a remote added
    in the tab is pushed into it; a later load that again finds neither
    [remotes] nor a legacy field starts from the rows added so far, not
    from an empty list.  After a load that found a stored [remotes] the
    array of the defaults is out of reach, and no action of the tab on
    settings that do not share it changes it. *)
Theorem X15_default_array_is_shared (st : State) :
  (takes_default_remotes (storage st) = true ->
   opt_truthy (legacyRemoteName (storage st))
   || opt_truthy (legacyRemotePath (storage st)) = false ->
   sharesDefault (loaded st) = true
   /\ remotes (settings (loaded st)) = Some (defaultRemotes st)
   /\ defaultRemotes (state_after (add_onClick (loaded st)))
      = defaultRemotes st ++ [blank_remote]
   /\ remotes (settings
                 (loaded (set_storage None
                            (state_after (add_onClick (loaded st))))))
      = Some (defaultRemotes st ++ [blank_remote]))
  /\ (takes_default_remotes (storage st) = false ->
      sharesDefault (loaded st) = false)
  /\ (forall a st' t,
        sharesDefault st = false ->
        perform a st = (Returned tt, st', t) ->
        defaultRemotes st' = defaultRemotes st
        /\ sharesDefault st' = false).
Proof.
  split; [|split].
  - intros Ht Hl.
    assert (Hm : migrates (storage st)
                   (assign_defaults (defaults_in st) (storage st)) = false).
    { unfold migrates. rewrite Hl. apply andb_false_r. }
    assert (Hsh : sharesDefault (loaded st) = true)
      by (rewrite sharesDefault_loaded, Ht, Hm; reflexivity).
    assert (Hr : remotes (settings (loaded st)) = Some (defaultRemotes st)).
    { rewrite settings_loaded, (migrate_unless _ _ Hm).
      now rewrite (remotes_assign_default _ _ Ht). }
    split; [exact Hsh|]. split; [exact Hr|].
    assert (Hadd : state_after (add_onClick (loaded st))
                   = set_storage
                       (Some (to_stored
                                (with_remotes
                                   (Some (defaultRemotes st ++ [blank_remote]))
                                   (settings (loaded st)))))
                       (set_defaultRemotes (defaultRemotes st ++ [blank_remote])
                          (set_settings
                             (with_remotes
                                (Some (defaultRemotes st ++ [blank_remote]))
                                (settings (loaded st))) (loaded st)))).
    { unfold state_after, add_onClick, bind, get, modify, saveSettings.
      cbn [fst snd]. rewrite Hr. cbn [fst snd]. unfold in_place.
      rewrite Hsh. reflexivity. }
    rewrite Hadd. split; [reflexivity|].
    rewrite settings_loaded, migrate_without_legacy by reflexivity.
    reflexivity.
  - intros Ht. rewrite sharesDefault_loaded, Ht. reflexivity.
  - intros a st' t Hsh H.
    assert (Hin : forall l, in_place l st
                            = set_settings (with_remotes l (settings st)) st).
    { intros l. unfold in_place. rewrite Hsh. now destruct l. }
    destruct a as [v|i v|i v|i v|i|]; simpl in H;
      unfold name_onChange, path_onChange, enable_onChange, edit_remote,
        rclonePath_onChange, trash_onClick, add_onClick, bind, get, modify,
        saveSettings in H; cbn [fst snd] in H;
      try (destruct (remotes (settings st)) as [l|]; [|discriminate]);
      cbn [fst snd] in H; rewrite ?Hin in H;
      inversion H; subst; split; assumption || reflexivity.
Qed.

Lemma X15_witness :
  remotes (settings
             (loaded (set_storage None
                        (state_after
                           (add_onClick
                              (loaded (set_storage None sample_state)))))))
  = Some ([] ++ [blank_remote]).
Proof.
  destruct (X15_default_array_is_shared (set_storage None sample_state))
    as [H _].
  destruct H as [_ [_ [_ H]]]; [reflexivity | reflexivity | exact H].
Defined.
